(** * Reference-counted handles [GC::Ptr] and their control blocks

    A shallow embedding of [src/gc/cpp/Cpp_Ptr.hpp] (the control block and
    the handle type) and of [src/gc/c/C_Ptr.cpp] with [src/gc/gc.h] (the
    raw allocation facade), followed by the properties of the
    specification that were checked against them.

    The embedding is sequential: every atomic operation is one step on an
    explicit program state, memory orders are dropped, and a spurious
    failure of [compare_exchange_weak] is an input of the operation. *)

From Stdlib Require Import ZArith List Lia Bool.
From stdpp Require Import base option gmap sets list.

(** ** Data model *)

(** Addresses of heap objects ([ControlBlock<T>*], [T*], [Ptr<T>*]).  A
    nullable pointer is an [option]: [None] is [nullptr]. *)
Abbreviation addr := nat (only parsing).

(** [size_t] is taken to be 64 bits wide; [fetch_add] and [fetch_sub] wrap. *)
Definition size_bits : Z := 64.
Definition wrap (z : Z) : Z := (z mod 2 ^ size_bits)%Z.

(** [class ControlBlock]: the four atomic members. *)
Record ControlBlock := mkCB {
  gc_strong_count_ : Z;
  gc_weak_count_ : Z;
  ptr_ : option addr;
  object_destroyed_ : bool
}.

(** [class Ptr]: the two atomic members. *)
Record Ptr := mkPtr {
  ctrl_ : option addr;
  is_weak_ : bool
}.

#[global] Instance Ptr_eq_dec : EqDecision Ptr.
Proof. solve_decision. Defined.

(** What the program does to the free store: [delete p] of a managed value
    and [delete this] of a control block. *)
Inductive event :=
  | EvDeleteValue (p : addr)
  | EvDeleteBlock (c : addr).

#[global] Instance event_eq_dec : EqDecision event.
Proof. solve_decision. Defined.

(** The program state: the allocated control blocks, the [Ptr] objects that
    are alive (each at its own address, so that [this == &other] is
    equality of addresses), and the trace of deletions so far. *)
Record State := mkState {
  blocks : gmap nat ControlBlock;
  handles : gmap nat Ptr;
  trace : list event
}.

Definition set_blocks (f : gmap nat ControlBlock → gmap nat ControlBlock) (s : State) : State :=
  mkState (f (blocks s)) (handles s) (trace s).
Definition set_handles (f : gmap nat Ptr → gmap nat Ptr) (s : State) : State :=
  mkState (blocks s) (f (handles s)) (trace s).
Definition log_event (e : event) (s : State) : State :=
  mkState (blocks s) (handles s) (trace s ++ [e]).

(** ** Effects

    A computation either returns, throws a C++ exception, or has undefined
    behaviour (it touches a control block or a handle that is not alive). *)
Inductive outcome (A : Type) :=
  | Ret (a : A) (s : State)
  | Throw (s : State)
  | Undef.
Arguments Ret {A} a s.
Arguments Throw {A} s.
Arguments Undef {A}.

Definition M (A : Type) : Type := State → outcome A.

Definition ret {A} (a : A) : M A := λ s, Ret a s.
Definition bind {A B} (m : M A) (k : A → M B) : M B :=
  λ s, match m s with
       | Ret a s' => k a s'
       | Throw s' => Throw s'
       | Undef => Undef
       end.
Definition throw {A} : M A := λ s, Throw s.
Definition undef {A} : M A := λ _, Undef.
(** [try { m } catch (...) { handler }] *)
Definition try_catch {A} (m : M A) (handler : M A) : M A :=
  λ s, match m s with
       | Throw s' => handler s'
       | r => r
       end.

Notation "x <- m ;; k" := (bind m (λ x, k))
  (at level 100, m at next level, right associativity).
Notation "m ;;; k" := (bind m (λ _, k))
  (at level 100, right associativity).

(** ** The control block *)

Definition load_block (c : addr) : M ControlBlock :=
  λ s, match blocks s !! c with
       | Some cb => Ret cb s
       | None => Undef
       end.
Definition store_block (c : addr) (cb : ControlBlock) : M unit :=
  λ s, Ret tt (set_blocks <[c := cb]> s).
Definition emit (e : event) : M unit := λ s, Ret tt (log_event e s).

Definition with_strong (n : Z) (cb : ControlBlock) : ControlBlock :=
  mkCB n (gc_weak_count_ cb) (ptr_ cb) (object_destroyed_ cb).
Definition with_weak (n : Z) (cb : ControlBlock) : ControlBlock :=
  mkCB (gc_strong_count_ cb) n (ptr_ cb) (object_destroyed_ cb).
Definition with_ptr (p : option addr) (cb : ControlBlock) : ControlBlock :=
  mkCB (gc_strong_count_ cb) (gc_weak_count_ cb) p (object_destroyed_ cb).
Definition with_destroyed (b : bool) (cb : ControlBlock) : ControlBlock :=
  mkCB (gc_strong_count_ cb) (gc_weak_count_ cb) (ptr_ cb) b.

(** [new ControlBlock<T>(p)].  [alloc] is what [operator new] does this
    time: [None] is [std::bad_alloc], [Some c] is the address of the fresh
    block (an address in use is outside the model). *)
Definition new_ControlBlock (alloc : option addr) (p : option addr) : M addr :=
  match alloc with
  | None => throw
  | Some c =>
      λ s, match blocks s !! c with
           | Some _ => Undef
           | None => Ret c (set_blocks <[c := mkCB 1 0 p false]> s)
           end
  end.

(** [delete this] *)
Definition delete_this (c : addr) : M unit :=
  λ s, match blocks s !! c with
       | Some _ => Ret tt (log_event (EvDeleteBlock c) (set_blocks (delete c) s))
       | None => Undef
       end.

Definition add_strong (c : addr) : M unit :=
  cb <- load_block c ;;
  store_block c (with_strong (wrap (gc_strong_count_ cb + 1)) cb).

Definition add_weak (c : addr) : M unit :=
  cb <- load_block c ;;
  store_block c (with_weak (wrap (gc_weak_count_ cb + 1)) cb).

(** [gc_strong_count_.compare_exchange_weak(expected, desired)]: returns
    whether it stored, and the value [expected] holds afterwards. *)
Definition compare_exchange_weak_strong (spurious : bool) (c : addr)
    (expected desired : Z) : M (bool * Z) :=
  cb <- load_block c ;;
  if spurious || negb (gc_strong_count_ cb =? expected)%Z
  then ret (false, gc_strong_count_ cb)
  else store_block c (with_strong desired cb) ;;; ret (true, expected).

(** The loop of [try_add_strong]; [spurious] is the number of spurious
    failures of the weak compare-exchange before it behaves like the strong
    one.  Without another thread the comparison cannot fail after that. *)
Fixpoint try_add_strong_loop (spurious : nat) (c : addr) (count : Z) : M bool :=
  if (0 <? count)%Z then
    match spurious with
    | S k =>
        r <- compare_exchange_weak_strong true c count (wrap (count + 1)) ;;
        if fst r then ret true else try_add_strong_loop k c (snd r)
    | O =>
        r <- compare_exchange_weak_strong false c count (wrap (count + 1)) ;;
        if fst r then ret true else undef
    end
  else ret false.

Definition try_add_strong (spurious : nat) (c : addr) : M bool :=
  cb <- load_block c ;;
  try_add_strong_loop spurious c (gc_strong_count_ cb).

(** [destroy_object()].  [delete p] is the event [EvDeleteValue p] and
    nothing more: this is the destructor of a [T] that holds no handles,
    and the model keeps no store of the values that are alive.  For a [T]
    with [Ptr] members see [destroy_object_T] below, which takes the
    deleter of [T] as a parameter. *)
Definition destroy_object (c : addr) : M unit :=
  cb <- load_block c ;;
  if object_destroyed_ cb then ret tt
  else
    store_block c (with_destroyed true cb) ;;;
    cb' <- load_block c ;;
    store_block c (with_ptr None cb') ;;;
    match ptr_ cb' with
    | Some p => emit (EvDeleteValue p)
    | None => ret tt
    end.

Definition release_strong (c : addr) : M unit :=
  cb <- load_block c ;;
  store_block c (with_strong (wrap (gc_strong_count_ cb - 1)) cb) ;;;
  if (gc_strong_count_ cb =? 1)%Z then
    destroy_object c ;;;
    cb' <- load_block c ;;
    if (gc_weak_count_ cb' =? 0)%Z then delete_this c else ret tt
  else ret tt.

Definition release_weak (c : addr) : M unit :=
  cb <- load_block c ;;
  store_block c (with_weak (wrap (gc_weak_count_ cb - 1)) cb) ;;;
  if (gc_weak_count_ cb =? 1)%Z then
    cb' <- load_block c ;;
    if (gc_strong_count_ cb' =? 0)%Z then delete_this c else ret tt
  else ret tt.

Definition get_ptr (c : addr) : M (option addr) :=
  cb <- load_block c ;; ret (ptr_ cb).
Definition is_alive (c : addr) : M bool :=
  cb <- load_block c ;; ret (0 <? gc_strong_count_ cb)%Z.
Definition strong_count (c : addr) : M Z :=
  cb <- load_block c ;; ret (gc_strong_count_ cb).
Definition weak_count_cb (c : addr) : M Z :=
  cb <- load_block c ;; ret (gc_weak_count_ cb).

(** ** The handle *)

(** A [Ptr] object is reached through its address; using one that is not
    alive is undefined. *)
Definition load_handle (h : addr) : M Ptr :=
  λ s, match handles s !! h with
       | Some p => Ret p s
       | None => Undef
       end.
Definition load_ctrl (h : addr) : M (option addr) :=
  p <- load_handle h ;; ret (ctrl_ p).
Definition load_weak (h : addr) : M bool :=
  p <- load_handle h ;; ret (is_weak_ p).
Definition store_ctrl (h : addr) (c : option addr) : M unit :=
  p <- load_handle h ;;
  λ s, Ret tt (set_handles <[h := mkPtr c (is_weak_ p)]> s).
Definition store_weak (h : addr) (w : bool) : M unit :=
  p <- load_handle h ;;
  λ s, Ret tt (set_handles <[h := mkPtr (ctrl_ p) w]> s).
Definition exchange_ctrl (h : addr) (c : option addr) : M (option addr) :=
  old <- load_ctrl h ;; store_ctrl h c ;;; ret old.
Definition exchange_weak (h : addr) (w : bool) : M bool :=
  old <- load_weak h ;; store_weak h w ;;; ret old.

(** The member initialisers of a constructor: the object at [this] starts
    to exist, in storage that holds no other [Ptr]. *)
Definition construct (this : addr) (c : option addr) (w : bool) : M unit :=
  λ s, match handles s !! this with
       | Some _ => Undef
       | None => Ret tt (set_handles <[this := mkPtr c w]> s)
       end.
(** The end of the object's lifetime, after its destructor body, or when
    its constructor is left by an exception. *)
Definition discard (this : addr) : M unit :=
  λ s, Ret tt (set_handles (delete this) s).

(** [Ptr()], [Ptr(nullptr)] and the private [Ptr(ctrl, is_weak)] *)
Definition Ptr_default (this : addr) : M unit := construct this None false.
Definition Ptr_private (this : addr) (c : option addr) (w : bool) : M unit :=
  construct this c w.

(** [explicit Ptr(T* ptr)] *)
Definition Ptr_from_raw (alloc : option addr) (this : addr) (ptr : option addr) : M unit :=
  construct this None false ;;;
  match ptr with
  | Some p =>
      try_catch
        (c <- new_ControlBlock alloc (Some p) ;; store_ctrl this (Some c))
        (emit (EvDeleteValue p) ;;; discard this ;;; throw)
  | None => ret tt
  end.

(** [Ptr(const Ptr& other)]; the converting constructor from [Ptr<U>] has
    the same body up to the cast of the control block pointer. *)
Definition Ptr_copy (this other : addr) : M unit :=
  construct this None false ;;;
  other_ctrl <- load_ctrl other ;;
  other_weak <- load_weak other ;;
  match other_ctrl with
  | Some c => if other_weak then add_weak c else add_strong c
  | None => ret tt
  end ;;;
  store_ctrl this other_ctrl ;;;
  store_weak this other_weak.

(** [Ptr(Ptr&& other)] *)
Definition Ptr_move (this other : addr) : M unit :=
  c <- exchange_ctrl other None ;;
  w <- exchange_weak other false ;;
  construct this c w.

(** [release()] *)
Definition release (this : addr) : M unit :=
  ctrl <- load_ctrl this ;;
  match ctrl with
  | Some c =>
      weak <- load_weak this ;;
      if weak then release_weak c else release_strong c
  | None => ret tt
  end.

(** [~Ptr()] *)
Definition Ptr_dtor (this : addr) : M unit :=
  release this ;;; discard this.

(** [swap(Ptr& other)] *)
Definition swap (this other : addr) : M unit :=
  oc <- load_ctrl other ;;
  my_ctrl <- exchange_ctrl this oc ;;
  store_ctrl other my_ctrl ;;;
  ow <- load_weak other ;;
  my_weak <- exchange_weak this ow ;;
  store_weak other my_weak.

(** [operator=(const Ptr& other)]; [tmp] is the storage of the local copy. *)
Definition assign_copy (tmp : addr) (this other : addr) : M unit :=
  if decide (this = other) then ret tt
  else Ptr_copy tmp other ;;; swap this tmp ;;; Ptr_dtor tmp.

(** [operator=(Ptr&& other)] *)
Definition assign_move (this other : addr) : M unit :=
  if decide (this = other) then ret tt
  else
    release this ;;;
    c <- exchange_ctrl other None ;;
    store_ctrl this c ;;;
    w <- exchange_weak other false ;;
    store_weak this w.

(** [reset()] and [operator=(nullptr)] *)
Definition reset (this : addr) : M unit :=
  release this ;;;
  store_ctrl this None ;;;
  store_weak this false.

(** [reset(T* ptr)] *)
Definition reset_raw (alloc : option addr) (tmp : addr) (this : addr) (ptr : option addr) : M unit :=
  Ptr_from_raw alloc tmp ptr ;;; swap this tmp ;;; Ptr_dtor tmp.

(** [safe(const Ptr& strong_ref)]: the result is built at [result] (the
    local [weak_ptr] is the returned object). *)
Definition safe (result : addr) (this strong_ref : addr) : M unit :=
  ref_ctrl <- load_ctrl strong_ref ;;
  ref_weak <- load_weak strong_ref ;;
  match ref_ctrl with
  | Some c =>
      if ref_weak then Ptr_default result
      else
        Ptr_default result ;;;
        store_ctrl result (Some c) ;;;
        store_weak result true ;;;
        add_weak c
  | None => Ptr_default result
  end.

(** [lock()], the result built at [result] *)
Definition lock (spurious : nat) (result : addr) (this : addr) : M unit :=
  weak <- load_weak this ;;
  ctrl <- load_ctrl this ;;
  match ctrl with
  | Some c =>
      if negb weak then Ptr_copy result this
      else
        ok <- try_add_strong spurious c ;;
        if ok then Ptr_private result (Some c) false
        else Ptr_default result
  | None => Ptr_copy result this
  end.

(** [Ref(const Ptr& other)] *)
Definition Ref (this other : addr) : M unit :=
  if decide (this = other) then ret tt
  else
    release this ;;;
    other_ctrl <- load_ctrl other ;;
    other_weak <- load_weak other ;;
    match other_ctrl with
    | Some c =>
        if negb other_weak then
          add_weak c ;;;
          store_ctrl this (Some c) ;;;
          store_weak this true
        else ret tt
    | None => ret tt
    end.

(** [expired()] *)
Definition expired (this : addr) : M bool :=
  ctrl <- load_ctrl this ;;
  match ctrl with
  | None => ret true
  | Some c => a <- is_alive c ;; ret (negb a)
  end.

(** [get()] *)
Definition get (this : addr) : M (option addr) :=
  ctrl <- load_ctrl this ;;
  match ctrl with
  | None => ret None
  | Some c =>
      weak <- load_weak this ;;
      if weak then ret None else get_ptr c
  end.

(** [explicit operator bool()] *)
Definition operator_bool (this : addr) : M bool :=
  weak <- load_weak this ;;
  if weak then e <- expired this ;; ret (negb e)
  else p <- get this ;; ret (bool_decide (p ≠ None)).

(** [ref_count()], [weak_count()], [unique()], [is_weak()] *)
Definition ref_count (this : addr) : M Z :=
  ctrl <- load_ctrl this ;;
  match ctrl with
  | Some c => strong_count c
  | None => ret 0%Z
  end.
Definition weak_count (this : addr) : M Z :=
  ctrl <- load_ctrl this ;;
  match ctrl with
  | Some c => weak_count_cb c
  | None => ret 0%Z
  end.
Definition unique (this : addr) : M bool :=
  n <- ref_count this ;; ret (n =? 1)%Z.
Definition is_weak (this : addr) : M bool := load_weak this.

(** [operator==(const Ptr&)], [operator!=], and the comparisons with
    [nullptr] *)
Definition operator_eq (this other : addr) : M bool :=
  p <- get this ;; q <- get other ;; ret (bool_decide (p = q)).
Definition operator_ne (this other : addr) : M bool :=
  e <- operator_eq this other ;; ret (negb e).
Definition operator_eq_nullptr (this : addr) : M bool :=
  p <- get this ;; ret (bool_decide (p = None)).
Definition operator_ne_nullptr (this : addr) : M bool :=
  p <- get this ;; ret (bool_decide (p ≠ None)).

(** [GC::New<T>(args...)]: [new T(...)] yields the value at [p], or fails. *)
Definition New (new_T : option addr) (alloc : option addr) (this : addr) : M unit :=
  match new_T with
  | Some p => Ptr_from_raw alloc this (Some p)
  | None => throw
  end.

(** [operator->()] and [operator*()]: the assertion [!weak && ctrl] guards
    the access; a failed assertion has no defined result. *)
Definition operator_arrow (this : addr) : M (option addr) :=
  ctrl <- load_ctrl this ;;
  weak <- load_weak this ;;
  match ctrl with
  | Some c => if negb weak then get_ptr c else undef
  | None => undef
  end.

(** ** The raw allocation facade ([C_Ptr.cpp], [gc.h]) *)

Module Facade.

(** A [char] of a block: [new char[n]] leaves it indeterminate. *)
Inductive cell := Indeterminate | Byte (b : Z).

Inductive fevent :=
  | Printed (a : addr)       (* "[C++ backend] Freed memory @ a" *)
  | DeleteArray (a : addr).  (* delete[] a *)

(** The live [char] arrays, the use count of the [std::shared_ptr]
    control block of each owned array, and what happened so far. *)
Record FState := mkFState {
  arrays : gmap nat (list cell);
  use_count : gmap nat nat;
  out : list fevent
}.

(** [struct PtrBase] *)
Record PtrBase := mkPtrBase { raw : option addr }.

(** [struct LocalPtrCpp]: [raw] and the [holder]'s stored pointer. *)
Record LocalPtrCpp := mkLocal { l_raw : option addr; holder : option addr }.

(** [DebugDeleter::operator()] *)
Definition DebugDeleter (a : addr) (s : FState) : FState :=
  mkFState (delete a (arrays s)) (use_count s) (out s ++ [Printed a; DeleteArray a]).

(** [std::shared_ptr<char>(p, DebugDeleter{})] *)
Definition shared_ptr_ctor (a : addr) (s : FState) : FState :=
  mkFState (arrays s) (<[a := 1]> (use_count s)) (out s).

(** [~shared_ptr()]: the last owner runs the deleter. *)
Definition shared_ptr_dtor (h : option addr) (s : FState) : FState :=
  match h with
  | None => s
  | Some a =>
      match use_count s !! a with
      | Some (S O) =>
          DebugDeleter a (mkFState (arrays s) (delete a (use_count s)) (out s))
      | Some n => mkFState (arrays s) (<[a := pred n]> (use_count s)) (out s)
      | None => s
      end
  end.

(** [new char[n]] at the address [a] the allocator picks *)
Definition new_char_array (a : addr) (n : Z) (s : FState) : FState :=
  mkFState (<[a := replicate (Z.to_nat n) Indeterminate]> (arrays s)) (use_count s) (out s).

(** [std::memset(a, 0, n)] *)
Definition memset0 (a : addr) (n : Z) (s : FState) : FState :=
  match arrays s !! a with
  | Some cells =>
      mkFState (<[a := replicate (Z.to_nat n) (Byte 0) ++ drop (Z.to_nat n) cells]> (arrays s))
               (use_count s) (out s)
  | None => s
  end.

(** [~LocalPtrCpp()]: the empty body, then the member [holder] dies. *)
Definition LocalPtrCpp_dtor (cpp : LocalPtrCpp) (s : FState) : FState :=
  shared_ptr_dtor (holder cpp) s.

(** The body of [gc_local_malloc] up to the [return] expression: the
    local [cpp] and the state while it is still alive. *)
Definition gc_local_malloc_body (a : addr) (size : Z) (s : FState) : LocalPtrCpp * FState :=
  let s1 := shared_ptr_ctor a (new_char_array a size s) in
  (mkLocal (Some a) (Some a), s1).

(** [gc_local_malloc]: the result is copied out of [cpp], then the local
    [cpp] is destroyed as the function returns. *)
Definition gc_local_malloc (a : addr) (size : Z) (s : FState) : PtrBase * FState :=
  let '(cpp, s1) := gc_local_malloc_body a size s in
  (mkPtrBase (l_raw cpp), LocalPtrCpp_dtor cpp s1).

Definition gc_local_calloc_body (a : addr) (count size : Z) (s : FState) : LocalPtrCpp * FState :=
  let total := wrap (count * size) in
  let s1 := shared_ptr_ctor a (new_char_array a total s) in
  let s2 := memset0 a total s1 in
  (mkLocal (Some a) (Some a), s2).

Definition gc_local_calloc (a : addr) (count size : Z) (s : FState) : PtrBase * FState :=
  let '(cpp, s1) := gc_local_calloc_body a count size s in
  (mkPtrBase (l_raw cpp), LocalPtrCpp_dtor cpp s1).

(** The macros of [gc.h] *)
Definition gc_new (sizeof_T : Z) (a : addr) (s : FState) : option addr * FState :=
  let '(b, s') := gc_local_malloc a sizeof_T s in (raw b, s').
Definition gc_new_array (sizeof_T : Z) (count : Z) (a : addr) (s : FState) : option addr * FState :=
  let '(b, s') := gc_local_calloc a count sizeof_T s in (raw b, s').
Definition gc_malloc (size : Z) (a : addr) (s : FState) : option addr * FState :=
  let '(b, s') := gc_local_malloc a size s in (raw b, s').
Definition gc_calloc (count size : Z) (a : addr) (s : FState) : option addr * FState :=
  let '(b, s') := gc_local_calloc a count size s in (raw b, s').

End Facade.

(** ** Counting the handles that refer to a block *)

Definition refs (q : Ptr) (hs : gmap nat Ptr) : nat :=
  size (filter (λ kv : nat * Ptr, kv.2 = q) hs).

Definition hit (q : Ptr) (o : option Ptr) : nat :=
  match o with
  | Some p => if decide (p = q) then 1 else 0
  | None => 0
  end.
#[global] Arguments hit : simpl never.

Definition strong_refs (c : nat) (hs : gmap nat Ptr) : nat := refs (mkPtr (Some c) false) hs.
Definition weak_refs (c : nat) (hs : gmap nat Ptr) : nat := refs (mkPtr (Some c) true) hs.

(** Handle stores that hold the same references, up to one acquired
    ([acq]) and one released ([rel]). *)
Definition refs_moved (hs hs' : gmap nat Ptr) (acq rel : option Ptr) : Prop :=
  ∀ q, ctrl_ q ≠ None → refs q hs' + hit q rel = refs q hs + hit q acq.

(** ** The counting invariant

    A block is allocated exactly while some handle refers to it, its
    counters are the numbers of strong and of weak handles that refer to
    it, and its value is gone (the flag set, the pointer cleared) exactly
    when no strong handle is left. *)
Definition block_ok (c : nat) (st : State) : Prop :=
  match blocks st !! c with
  | Some cb =>
      gc_strong_count_ cb = Z.of_nat (strong_refs c (handles st)) ∧
      gc_weak_count_ cb = Z.of_nat (weak_refs c (handles st)) ∧
      0 < strong_refs c (handles st) + weak_refs c (handles st) ∧
      object_destroyed_ cb = bool_decide (strong_refs c (handles st) = 0) ∧
      (object_destroyed_ cb = true ↔ ptr_ cb = None)
  | None => strong_refs c (handles st) = 0 ∧ weak_refs c (handles st) = 0
  end.

Definition wf (st : State) : Prop := ∀ c, block_ok c st.

(** The counters cannot overflow while the handles are fewer than
    [2^64 - 2]: a handle occupies memory of the same address space. *)
Definition roomy (st : State) : Prop :=
  (Z.of_nat (size (handles st)) + 2 < 2 ^ size_bits)%Z.

Definition incr_count (w : bool) (cb : ControlBlock) : ControlBlock :=
  if w then with_weak (wrap (gc_weak_count_ cb + 1)) cb
  else with_strong (wrap (gc_strong_count_ cb + 1)) cb.

(** The state after [release_strong] ([w = false]) or [release_weak]
    ([w = true]) on a block [c] whose contents were [cb]. *)
Definition released (c : nat) (w : bool) (cb : ControlBlock) (st : State) : State :=
  if w then
    if (gc_weak_count_ cb =? 1)%Z && (gc_strong_count_ cb =? 0)%Z
    then log_event (EvDeleteBlock c) (set_blocks (delete c) st)
    else set_blocks <[c := with_weak (wrap (gc_weak_count_ cb - 1)) cb]> st
  else
    if (gc_strong_count_ cb =? 1)%Z then
      let tr := trace st ++ match ptr_ cb with Some p => [EvDeleteValue p] | None => [] end in
      if (gc_weak_count_ cb =? 0)%Z
      then mkState (delete c (blocks st)) (handles st) (tr ++ [EvDeleteBlock c])
      else mkState (<[c := mkCB 0 (gc_weak_count_ cb) None true]> (blocks st)) (handles st) tr
    else set_blocks <[c := with_strong (wrap (gc_strong_count_ cb - 1)) cb]> st.

(** ** Client programs

    The operations of a client that copy, move and release handles, and
    the two that make and promote weak handles.  Each names the [Ptr]
    objects it works on by their addresses. *)
Inductive op :=
  | OpCopy (dst src : nat)             (* Ptr dst(src); *)
  | OpMove (dst src : nat)             (* Ptr dst(std::move(src)); *)
  | OpAssignCopy (tmp dst src : nat)   (* dst = src; *)
  | OpAssignMove (dst src : nat)       (* dst = std::move(src); *)
  | OpSwap (a b : nat)                 (* a.swap(b); *)
  | OpReset (h : nat)                  (* h.reset(); *)
  | OpDestroy (h : nat)                (* h goes out of scope *)
  | OpSafe (dst src : nat)             (* Ptr dst = src.safe(src); *)
  | OpLock (spurious : nat) (dst src : nat).  (* Ptr dst = src.lock(); *)

Definition exec (o : op) : M unit :=
  match o with
  | OpCopy dst src => Ptr_copy dst src
  | OpMove dst src => Ptr_move dst src
  | OpAssignCopy tmp dst src => assign_copy tmp dst src
  | OpAssignMove dst src => assign_move dst src
  | OpSwap a b => swap a b
  | OpReset h => reset h
  | OpDestroy h => Ptr_dtor h
  | OpSafe dst src => safe dst src src
  | OpLock spurious dst src => lock spurious dst src
  end.

Fixpoint run (ops : list op) : M unit :=
  match ops with
  | [] => ret tt
  | o :: rest => exec o ;;; run rest
  end.

(** The scoping rule of the language: an operation may only name objects
    that are alive, and builds a new object in storage that is free.
    [scoped_op D o] is the set of live objects after [o]. *)
Definition scoped_op (D : gset nat) (o : op) : option (gset nat) :=
  match o with
  | OpCopy dst src | OpMove dst src | OpSafe dst src | OpLock _ dst src =>
      if decide (src ∈ D ∧ dst ∉ D) then Some ({[dst]} ∪ D) else None
  | OpAssignCopy tmp dst src =>
      if decide (src ∈ D ∧ dst ∈ D ∧ tmp ∉ D) then Some D else None
  | OpAssignMove a b | OpSwap a b =>
      if decide (a ∈ D ∧ b ∈ D) then Some D else None
  | OpReset h => if decide (h ∈ D) then Some D else None
  | OpDestroy h => if decide (h ∈ D) then Some (D ∖ {[h]}) else None
  end.

Fixpoint scoped (D : gset nat) (ops : list op) : option (gset nat) :=
  match ops with
  | [] => Some D
  | o :: rest =>
      match scoped_op D o with
      | Some D' => scoped D' rest
      | None => None
      end
  end.

(** The state right after [Ptr<T> a(p)] in an empty program, the block
    allocated at [c]. *)
Definition fresh_handle (p c a : nat) : State :=
  mkState {[c := mkCB 1 0 (Some p) false]} {[a := mkPtr (Some c) false]} [].

Definition destroyed_times (p : nat) (st : State) : nat :=
  count_occ event_eq_dec (trace st) (EvDeleteValue p).
Definition freed_times (c : nat) (st : State) : nat :=
  count_occ event_eq_dec (trace st) (EvDeleteBlock c).

(** What the trace says about the value [p] managed by the block [c];
    [nd] and [nf] are the numbers of deletions at these two addresses
    before the value was wrapped (an address can be used again). *)
Definition value_ok (p c nd nf : nat) (st : State) : Prop :=
  match blocks st !! c with
  | Some cb =>
      freed_times c st = nf ∧
      if object_destroyed_ cb then destroyed_times p st = S nd
      else ptr_ cb = Some p ∧ destroyed_times p st = nd
  | None => destroyed_times p st = S nd ∧ freed_times c st = S nf
  end.

(** No other block manages [p]: the value was wrapped once. *)
Definition sole_owner (p c : nat) (st : State) : Prop :=
  ∀ c' cb', c' ≠ c → blocks st !! c' = Some cb' → ptr_ cb' ≠ Some p.

(** The invariant of a program in which the value [p] is managed through
    the block [c]. *)
Definition Inv (p c nd nf : nat) (st : State) : Prop :=
  wf st ∧ value_ok p c nd nf st ∧ sole_owner p c st.

(** "Copy the original N times": [Ptr h1(a); ...; Ptr hN(a);] *)
Definition copies (a : nat) (hs : list nat) : list op := map (λ h, OpCopy h a) hs.
Definition destroys (hs : list nat) : list op := map OpDestroy hs.

(** ** Statements of the specification about [Ref], [lock] and [==]

    The address of the value a handle refers to, whatever its kind, and
    what [get()] makes of it. *)
Definition referent (st : State) (q : Ptr) : option nat :=
  match ctrl_ q with
  | Some c =>
      match blocks st !! c with
      | Some cb => ptr_ cb
      | None => None
      end
  | None => None
  end.

Definition resolved (st : State) (q : Ptr) : option nat :=
  if is_weak_ q then None else referent st q.


(** [h.lock()] as the specification words it: a counted copy of a strong
    [h]; for a weak [h], an empty handle once the strong count is zero,
    else a strong handle with the strong count one higher that compares
    equal to [h]. *)
Definition lock_as_specified (st : State) (n r h : nat) : Prop :=
  ∀ q, handles st !! h = Some q → handles st !! r = None →
  ∃ st', lock n r h st = Ret tt st' ∧
    match is_weak_ q, ctrl_ q with
    | false, None => handles st' !! r = Some q
    | false, Some c =>
        handles st' !! r = Some q ∧
        ∀ cb, blocks st !! c = Some cb →
          blocks st' !! c = Some (with_strong (wrap (gc_strong_count_ cb + 1)) cb)
    | true, Some c =>
        ∀ cb, blocks st !! c = Some cb →
          if (0 <? gc_strong_count_ cb)%Z then
            handles st' !! r = Some (mkPtr (Some c) false) ∧
            blocks st' !! c = Some (with_strong (wrap (gc_strong_count_ cb + 1)) cb) ∧
            operator_eq r h st' = Ret true st'
          else handles st' !! r = Some (mkPtr None false)
    | true, None => True
    end.

(** [a == b] as the specification words it: equal exactly when both refer
    to the same value address, strong or weak. *)
Definition eq_as_specified (st : State) (a b : nat) : Prop :=
  ∀ qa qb, handles st !! a = Some qa → handles st !! b = Some qb →
  ∃ r, operator_eq a b st = Ret r st ∧
       (r = true ↔ referent st qa = referent st qb).

(** Two states of a small program: after [Ptr<T> h1(p)] with [p] at 7 and
    the block at 100, and after [h2 = h1.safe(h1)] on top of that. *)
Definition st_owner : State := fresh_handle 7 100 1.
Definition st_shared : State :=
  mkState {[100 := mkCB 1 1 (Some 7) false]}
          (<[2 := mkPtr (Some 100) true]> {[1 := mkPtr (Some 100) false]}) [].
Definition st_empty : State := mkState ∅ ∅ [].

(** ** Programs over the whole interface of the handle

    Every operation of [Ptr] with what the environment contributes to it:
    the storage of the objects it builds and what the allocator does. *)
Inductive action :=
  | Client (o : op)
  | ADefault (this : nat)                                  (* Ptr this; *)
  | AFromRaw (alloc : option nat) (this : nat) (ptr : option nat)  (* Ptr this(ptr); *)
  | AResetRaw (alloc : option nat) (tmp h : nat) (ptr : option nat) (* h.reset(ptr); *)
  | ARef (self other : nat).                               (* self.Ref(other); *)

Definition perform (a : action) : M unit :=
  match a with
  | Client o => exec o
  | ADefault this => Ptr_default this
  | AFromRaw alloc this ptr => Ptr_from_raw alloc this ptr
  | AResetRaw alloc tmp h ptr => reset_raw alloc tmp h ptr
  | ARef self other => Ref self other
  end.

(** The allocator hands out an address that holds no block. *)
Definition alloc_free (alloc : option nat) (st : State) : Prop :=
  match alloc with
  | Some c => blocks st !! c = None
  | None => True
  end.

(** What a program has to respect: it names objects that are alive, builds
    objects in free storage, and gives [Ref] a handle that is empty, or an
    argument that is a non-null strong handle, or the handle itself. *)
Definition enabled (a : action) (st : State) : Prop :=
  match a with
  | Client o => is_Some (scoped_op (dom (handles st)) o)
  | ADefault this => handles st !! this = None
  | AFromRaw alloc this ptr => handles st !! this = None ∧ alloc_free alloc st
  | AResetRaw alloc tmp h ptr =>
      handles st !! tmp = None ∧ is_Some (handles st !! h) ∧ alloc_free alloc st
  | ARef self other =>
      ∃ qs qo, handles st !! self = Some qs ∧ handles st !! other = Some qo ∧
        (self = other ∨ ctrl_ qs = None ∨ (is_Some (ctrl_ qo) ∧ is_weak_ qo = false))
  end.

(** The states of such programs; an exception is caught and the program
    goes on. *)
Inductive reachable : State → Prop :=
  | reach_init : reachable st_empty
  | reach_ret st st' a :
      reachable st → roomy st → enabled a st →
      perform a st = Ret tt st' → reachable st'
  | reach_throw st st' a :
      reachable st → roomy st → enabled a st →
      perform a st = Throw st' → reachable st'.


(** ** Values that hold handles ([test1.cpp])

    [delete p] runs the destructor of [T], and the destructor of a [T]
    with [Ptr] members releases them while [destroy_object] is still
    running.  The member functions that can reach [delete p] are given
    here with the deleter of [T] as a parameter, as the class templates
    have it; [λ p, emit (EvDeleteValue p)] is the deleter of a [T] without
    such members, and with it they are the definitions above. *)
Section Deleter.
Variable delete_T : addr → M unit.

Definition destroy_object_T (c : addr) : M unit :=
  cb <- load_block c ;;
  if object_destroyed_ cb then ret tt
  else
    store_block c (with_destroyed true cb) ;;;
    cb' <- load_block c ;;
    store_block c (with_ptr None cb') ;;;
    match ptr_ cb' with
    | Some p => delete_T p
    | None => ret tt
    end.

Definition release_strong_T (c : addr) : M unit :=
  cb <- load_block c ;;
  store_block c (with_strong (wrap (gc_strong_count_ cb - 1)) cb) ;;;
  if (gc_strong_count_ cb =? 1)%Z then
    destroy_object_T c ;;;
    cb' <- load_block c ;;
    if (gc_weak_count_ cb' =? 0)%Z then delete_this c else ret tt
  else ret tt.

Definition release_T (this : addr) : M unit :=
  ctrl <- load_ctrl this ;;
  match ctrl with
  | Some c =>
      weak <- load_weak this ;;
      if weak then release_weak c else release_strong_T c
  | None => ret tt
  end.

Definition Ptr_dtor_T (this : addr) : M unit :=
  release_T this ;;; discard this.

Definition Ref_T (this other : addr) : M unit :=
  if decide (this = other) then ret tt
  else
    release_T this ;;;
    other_ctrl <- load_ctrl other ;;
    other_weak <- load_weak other ;;
    match other_ctrl with
    | Some c =>
        if negb other_weak then
          add_weak c ;;;
          store_ctrl this (Some c) ;;;
          store_weak this true
        else ret tt
    | None => ret tt
    end.

End Deleter.

(** [struct Node] of [test1.cpp].  [next p] is the address of the member
    [next] of the [Node] at [p].  The constructor builds the member empty;
    the destructor runs its body and then the destructor of the member.
    A list of nodes is destroyed by nested calls, which [fuel] bounds: with
    none left the model gives up (as [undef]). *)
Section Test1.
Variable next : addr → addr.

Definition new_Node (p : addr) : M unit := Ptr_default (next p).

Fixpoint delete_Node (fuel : nat) (p : addr) : M unit :=
  match fuel with
  | O => undef
  | S k => emit (EvDeleteValue p) ;;; Ptr_dtor_T (delete_Node k) (next p)
  end.

(** [node->next.Ref(other)] *)
Definition link (fuel : nat) (node other : addr) : M unit :=
  p <- operator_arrow node ;;
  match p with
  | Some p => Ref_T (delete_Node fuel) (next p) other
  | None => undef
  end.

(** The block of [main]: the two nodes are at [p1] and [p2], their control
    blocks at [c1] and [c2], the handles [node1] and [node2] at [h1] and
    [h2]; the result is the two counts that are printed.  The handles are
    destroyed in the reverse order of their declarations. *)
Definition test1_main (fuel : nat) (p1 p2 c1 c2 h1 h2 : addr) : M (Z * Z) :=
  new_Node p1 ;;; Ptr_from_raw (Some c1) h1 (Some p1) ;;;
  new_Node p2 ;;; Ptr_from_raw (Some c2) h2 (Some p2) ;;;
  link fuel h1 h2 ;;;
  link fuel h2 h1 ;;;
  r1 <- ref_count h1 ;;
  r2 <- ref_count h2 ;;
  Ptr_dtor_T (delete_Node fuel) h2 ;;;
  Ptr_dtor_T (delete_Node fuel) h1 ;;;
  ret (r1, r2).

(** A node linked to itself: [Ptr<Node> node(new Node(d)); node->next.Ref(node);]
    and the end of the scope. *)
Definition self_link (fuel : nat) (p c h : addr) : M unit :=
  new_Node p ;;; Ptr_from_raw (Some c) h (Some p) ;;;
  link fuel h h.

End Test1.

(** ** Assignment and reset for values that hold handles

    [reset()] and the two assignment operators reach [delete p] through
    [release()] and [~Ptr()]; they are given here with the deleter of [T]
    as a parameter, like the functions above. *)
Section DeleterAssign.
Variable delete_T : addr → M unit.

Definition reset_T (this : addr) : M unit :=
  release_T delete_T this ;;;
  store_ctrl this None ;;;
  store_weak this false.

Definition assign_copy_T (tmp : addr) (this other : addr) : M unit :=
  if decide (this = other) then ret tt
  else Ptr_copy tmp other ;;; swap this tmp ;;; Ptr_dtor_T delete_T tmp.

Definition assign_move_T (this other : addr) : M unit :=
  if decide (this = other) then ret tt
  else
    release_T delete_T this ;;;
    c <- exchange_ctrl other None ;;
    store_ctrl this c ;;;
    w <- exchange_weak other false ;;
    store_weak this w.

End DeleterAssign.

(** Programs on one [Node] that give the node a handle to itself. *)
Section OwnHandle.
Variable next : addr → addr.

(** [Ptr<Node> h(new Node(d)); h->next = h;]: the member becomes a copy
    of the original handle.  [tmp] is the storage of the local copy in
    [operator=]. *)
Definition own_copy (fuel : nat) (p c h tmp : addr) : M unit :=
  new_Node next p ;;; Ptr_from_raw (Some c) h (Some p) ;;;
  m <- operator_arrow h ;;
  match m with
  | Some q => assign_copy_T (delete_Node next fuel) tmp (next q) h
  | None => undef
  end.

(** [Ptr<Node> h(new Node(d)); h->next = h.safe(h);]: the member becomes
    a weak handle on the node's own block; [tmp] is the temporary that
    [safe] returns, destroyed at the end of the statement. *)
Definition own_weak (fuel : nat) (p c h tmp : addr) : M unit :=
  new_Node next p ;;; Ptr_from_raw (Some c) h (Some p) ;;;
  safe tmp h h ;;;
  m <- operator_arrow h ;;
  match m with
  | Some q => assign_move_T (delete_Node next fuel) (next q) tmp
  | None => undef
  end ;;;
  Ptr_dtor_T (delete_Node next fuel) tmp.

End OwnHandle.

(** ** Values and the blocks that manage them

    A block manages the value its [ptr_] names.  [Ptr(T* ptr)] keeps no
    record of the pointers it was given; a program wraps a raw pointer
    once when it gives the constructor only values that no block manages
    at that time. *)
Definition manages (st : State) (p : addr) : Prop :=
  ∃ c cb, blocks st !! c = Some cb ∧ ptr_ cb = Some p.

Definition managed_once (st : State) : Prop :=
  ∀ c1 c2 cb1 cb2 p,
    blocks st !! c1 = Some cb1 → blocks st !! c2 = Some cb2 →
    ptr_ cb1 = Some p → ptr_ cb2 = Some p → c1 = c2.

Definition wraps_fresh (a : action) (st : State) : Prop :=
  match a with
  | AFromRaw _ _ (Some p) | AResetRaw _ _ _ (Some p) => ¬ manages st p
  | _ => True
  end.

(** The states of programs that respect the scoping of their handles and
    wrap every raw pointer once. *)
Inductive reachable_once : State → Prop :=
  | once_init : reachable_once st_empty
  | once_ret st st' a :
      reachable_once st → roomy st → enabled a st → wraps_fresh a st →
      perform a st = Ret tt st' → reachable_once st'
  | once_throw st st' a :
      reachable_once st → roomy st → enabled a st → wraps_fresh a st →
      perform a st = Throw st' → reachable_once st'.

(** What one operation may do to the values: the blocks of [st'] manage
    what they managed in [st] or nothing, and every value deleted on the
    way from [st] to [st'] was managed in [st] and is not in [st']. *)
Definition ptr_kept (st st' : State) : Prop :=
  ∀ c cb', blocks st' !! c = Some cb' →
    ptr_ cb' = None ∨ ∃ cb, blocks st !! c = Some cb ∧ ptr_ cb = ptr_ cb'.

Definition deletes_managed (st st' : State) : Prop :=
  ∃ evs, trace st' = trace st ++ evs ∧
    ∀ q, EvDeleteValue q ∈ evs → manages st q ∧ ¬ manages st' q.

Definition step_ok (st st' : State) : Prop := ptr_kept st st' ∧ deletes_managed st st'.

Definition good {A} (m : M A) : Prop :=
  ∀ st, managed_once st →
    match m st with
    | Ret _ st' | Throw st' => step_ok st st'
    | Undef => True
    end.

(** ** Who holds what after an operation

    The handle store an operation of a client is meant to leave, as its
    documentation has it: a copy has the fields of its source, a moved-from
    handle is empty, [reset] empties, destruction removes, [safe] gives a
    weak handle on the block of a non-empty strong source and an empty one
    otherwise, and [lock] promotes a weak handle while a strong handle is
    left on its block.  The code is compared with it below. *)
Definition handles_after (o : op) (hs : gmap nat Ptr) : gmap nat Ptr :=
  match o with
  | OpCopy dst src | OpAssignCopy _ dst src =>
      match hs !! src with
      | Some q => <[dst := q]> hs
      | None => hs
      end
  | OpMove dst src =>
      match hs !! src with
      | Some q => <[dst := q]> (<[src := mkPtr None false]> hs)
      | None => hs
      end
  | OpAssignMove dst src =>
      if decide (dst = src) then hs
      else match hs !! src with
           | Some q => <[dst := q]> (<[src := mkPtr None false]> hs)
           | None => hs
           end
  | OpSwap a b =>
      match hs !! a, hs !! b with
      | Some qa, Some qb => <[b := qa]> (<[a := qb]> hs)
      | _, _ => hs
      end
  | OpReset h => <[h := mkPtr None false]> hs
  | OpDestroy h => delete h hs
  | OpSafe dst src =>
      match hs !! src with
      | Some (mkPtr (Some c) false) => <[dst := mkPtr (Some c) true]> hs
      | _ => <[dst := mkPtr None false]> hs
      end
  | OpLock _ dst src =>
      match hs !! src with
      | Some (mkPtr (Some c) true) =>
          if decide (0 < strong_refs c hs) then <[dst := mkPtr (Some c) false]> hs
          else <[dst := mkPtr None false]> hs
      | Some q => <[dst := q]> hs
      | None => hs
      end
  end.

Fixpoint handles_after_run (ops : list op) (hs : gmap nat Ptr) : gmap nat Ptr :=
  match ops with
  | [] => hs
  | o :: rest => handles_after_run rest (handles_after o hs)
  end.
(** * Properties *)

(** ** Counting lemmas *)

Lemma refs_empty q : refs q ∅ = 0.
Proof. unfold refs. by rewrite map_filter_empty, map_size_empty. Qed.

Lemma refs_insert_fresh q hs h p :
  hs !! h = None → refs q (<[h := p]> hs) = refs q hs + hit q (Some p).
Proof.
  intros Hh. unfold refs, hit. rewrite map_filter_insert. simpl.
  destruct (decide (p = q)) as [->|Hne].
  - rewrite map_size_insert_None; [lia|].
    apply map_lookup_filter_None. left. done.
  - rewrite delete_id by done. lia.
Qed.

Lemma refs_delete q hs h :
  refs q (delete h hs) + hit q (hs !! h) = refs q hs.
Proof.
  unfold refs, hit. rewrite map_filter_delete, map_size_delete.
  destruct (hs !! h) as [p|] eqn:Hh.
  - destruct (decide (p = q)) as [->|Hne].
    + assert (Hf : filter (λ kv : nat * Ptr, kv.2 = q) hs !! h = Some q).
      { apply map_lookup_filter_Some. done. }
      rewrite Hf.
      assert (size (filter (λ kv : nat * Ptr, kv.2 = q) hs) ≠ 0).
      { apply (map_size_ne_0_lookup_2 _ h). eauto. }
      lia.
    + assert (Hf : filter (λ kv : nat * Ptr, kv.2 = q) hs !! h = None).
      { apply map_lookup_filter_None. right. intros x Hx. simpl. congruence. }
      rewrite Hf. simpl. lia.
  - assert (Hf : filter (λ kv : nat * Ptr, kv.2 = q) hs !! h = None).
    { apply map_lookup_filter_None. left. done. }
    rewrite Hf. simpl. lia.
Qed.

Lemma refs_insert q hs h p :
  refs q (<[h := p]> hs) + hit q (hs !! h) = refs q hs + hit q (Some p).
Proof.
  rewrite <- (insert_delete_eq hs).
  rewrite refs_insert_fresh by apply lookup_delete_eq.
  pose proof (refs_delete q hs h). lia.
Qed.

Lemma refs_le_size q hs : refs q hs ≤ size hs.
Proof. unfold refs. apply map_subseteq_size, map_filter_subseteq. Qed.

Lemma refs_pos q hs h : hs !! h = Some q → 0 < refs q hs.
Proof.
  intros Hh. pose proof (refs_delete q hs h) as H. rewrite Hh in H.
  unfold hit in H. rewrite decide_True in H by done. lia.
Qed.

Lemma refs_two q hs h1 h2 :
  h1 ≠ h2 → hs !! h1 = Some q → hs !! h2 = Some q → 2 ≤ refs q hs.
Proof.
  intros Hne H1 H2. pose proof (refs_delete q hs h1) as H. rewrite H1 in H.
  unfold hit in H. rewrite decide_True in H by done.
  assert (0 < refs q (delete h1 hs)).
  { apply (refs_pos _ _ h2). by rewrite lookup_delete_ne. }
  lia.
Qed.

Lemma refs_zero q hs h : refs q hs = 0 → hs !! h ≠ Some q.
Proof. intros Hz Hh. pose proof (refs_pos _ _ _ Hh). lia. Qed.

Lemma wrap_small z : (0 ≤ z < 2 ^ size_bits)%Z → wrap z = z.
Proof. intros. unfold wrap. by apply Z.mod_small. Qed.

Ltac munfold :=
  unfold operator_bool, operator_eq, operator_ne, operator_eq_nullptr, operator_ne_nullptr,
    operator_arrow, unique, is_weak, ref_count, weak_count, get, expired,
    Ptr_from_raw, Ptr_copy, Ptr_move, Ptr_dtor, Ptr_default, Ptr_private, release,
    exchange_ctrl, exchange_weak, store_ctrl, store_weak, load_ctrl, load_weak,
    construct, discard, load_handle,
    release_strong, release_weak, destroy_object, add_strong, add_weak,
    try_add_strong, get_ptr, is_alive, strong_count, weak_count_cb,
    delete_this, new_ControlBlock, store_block, load_block,
    try_catch, throw, undef, emit, bind, ret in *.

Ltac mred :=
  repeat first
    [ progress simpl
    | progress unfold set_handles, set_blocks, log_event
    | rewrite lookup_insert_eq
    | rewrite lookup_delete_eq
    | rewrite lookup_empty
    | rewrite insert_insert_eq
    | rewrite lookup_insert_ne by (done || congruence)
    | rewrite lookup_delete_ne by (done || congruence)
    | match goal with
      | H : ?m !! ?k = _ |- context [?m !! ?k] => rewrite H
      end ].

Lemma release_strong_eq c cb st :
  blocks st !! c = Some cb →
  object_destroyed_ cb = false →
  release_strong c st = Ret tt (released c false cb st).
Proof.
  intros Hc Hd. munfold. rewrite Hc. mred.
  unfold released, with_strong, with_destroyed, with_ptr, set_blocks, log_event.
  destruct (gc_strong_count_ cb =? 1)%Z eqn:E1; mred; [|done].
  rewrite Hd. mred.
  apply Z.eqb_eq in E1. rewrite E1. change (wrap (1 - 1)) with 0%Z.
  destruct (ptr_ cb) as [p|]; mred;
    destruct (gc_weak_count_ cb =? 0)%Z eqn:E2; mred; try done.
  - by rewrite delete_insert_eq.
  - by rewrite delete_insert_eq, app_nil_r.
  - by rewrite app_nil_r.
Qed.

Lemma release_weak_eq c cb st :
  blocks st !! c = Some cb →
  release_weak c st = Ret tt (released c true cb st).
Proof.
  intros Hc. munfold. rewrite Hc. mred.
  unfold released, with_weak, set_blocks, log_event.
  destruct (gc_weak_count_ cb =? 1)%Z eqn:E1; mred; [|done].
  destruct (gc_strong_count_ cb =? 0)%Z eqn:E2; mred; try done.
  by rewrite delete_insert_eq.
Qed.


Lemma hit_none q : hit q None = 0.
Proof. done. Qed.
Lemma hit_other q p : p ≠ q → hit q (Some p) = 0.
Proof. intros. unfold hit. by rewrite decide_False. Qed.
Lemma hit_same q : hit q (Some q) = 1.
Proof. unfold hit. by rewrite decide_True. Qed.


Lemma wf_neutral st hs' tr' :
  wf st → refs_moved (handles st) hs' None None →
  wf (mkState (blocks st) hs' tr').
Proof.
  intros Hwf Hm c. specialize (Hwf c). unfold block_ok in *. simpl.
  unfold strong_refs, weak_refs in *.
  pose proof (Hm (mkPtr (Some c) false)) as Hs.
  pose proof (Hm (mkPtr (Some c) true)) as Hw. rewrite ?hit_none, ?Nat.add_0_r in Hs, Hw.
  rewrite Hs, Hw by done. exact Hwf.
Qed.

Lemma wf_acquire st c w cb hs' tr' :
  wf st →
  blocks st !! c = Some cb →
  (w = false → 0 < strong_refs c (handles st)) →
  roomy st →
  refs_moved (handles st) hs' (Some (mkPtr (Some c) w)) None →
  wf (mkState (<[c := incr_count w cb]> (blocks st)) hs' tr').
Proof.
  intros Hwf Hc Hpos Hroom Hm c'.
  pose proof (Hwf c') as Hb. unfold block_ok in *. simpl.
  unfold strong_refs, weak_refs, roomy in *.
  pose proof (Hm (mkPtr (Some c') false)) as Hs.
  pose proof (Hm (mkPtr (Some c') true)) as Hw. rewrite ?hit_none, ?Nat.add_0_r in Hs, Hw.
  specialize (Hs ltac:(done)). specialize (Hw ltac:(done)).
  pose proof (refs_le_size (mkPtr (Some c) false) (handles st)).
  pose proof (refs_le_size (mkPtr (Some c) true) (handles st)).
  destruct (decide (c' = c)) as [->|Hne].
  - rewrite lookup_insert_eq. rewrite Hc in Hb.
    destruct Hb as (Hsc & Hwc & Hpos' & Hd & Hp).
    destruct w; simpl.
    + rewrite hit_other in Hs by done. rewrite hit_same in Hw.
      rewrite Hs, Hw, ?Nat.add_0_r. rewrite wrap_small by lia.
      split_and!; try done; lia.
    + rewrite hit_same in Hs. rewrite hit_other in Hw by done.
      rewrite Hs, Hw, ?Nat.add_0_r. rewrite wrap_small by lia.
      specialize (Hpos eq_refl).
      split_and!; try done; try lia.
      rewrite Hd. rewrite !bool_decide_eq_false_2 by lia. done.
  - rewrite lookup_insert_ne by done.
    rewrite !hit_other in Hs, Hw by congruence.
    rewrite Hs, Hw, !Nat.add_0_r. exact Hb.
Qed.

Lemma blocks_released_ne c c' w cb st :
  c' ≠ c → blocks (released c w cb st) !! c' = blocks st !! c'.
Proof.
  intros Hne. unfold released.
  repeat (match goal with |- context [if ?b then _ else _] => destruct b end);
    simpl; by rewrite ?lookup_delete_ne, ?lookup_insert_ne by done.
Qed.

Lemma handles_released c w cb st : handles (released c w cb st) = handles st.
Proof.
  unfold released.
  by repeat (match goal with |- context [if ?b then _ else _] => destruct b end).
Qed.

Lemma wf_release st c w cb hs' :
  wf st →
  (Z.of_nat (size (handles st)) < 2 ^ size_bits)%Z →
  blocks st !! c = Some cb →
  refs_moved (handles st) hs' None (Some (mkPtr (Some c) w)) →
  wf (set_handles (λ _, hs') (released c w cb st)).
Proof.
  intros Hwf Hroom Hc Hm c'.
  pose proof (Hwf c') as Hb. pose proof (Hwf c) as Hbc.
  unfold block_ok in *. rewrite Hc in Hbc.
  destruct Hbc as (Hsc & Hwc & Hpos' & Hd & Hp).
  unfold strong_refs, weak_refs, roomy in *.
  pose proof (Hm (mkPtr (Some c') false)) as Hs.
  pose proof (Hm (mkPtr (Some c') true)) as Hw.
  rewrite ?hit_none, ?Nat.add_0_r in Hs, Hw.
  specialize (Hs ltac:(done)). specialize (Hw ltac:(done)).
  pose proof (refs_le_size (mkPtr (Some c) false) (handles st)).
  pose proof (refs_le_size (mkPtr (Some c) true) (handles st)).
  simpl.
  destruct (decide (c' = c)) as [->|Hne].
  - clear Hb. unfold released.
    destruct w.
    + rewrite hit_other in Hs by done. rewrite hit_same in Hw.
      destruct ((gc_weak_count_ cb =? 1)%Z && (gc_strong_count_ cb =? 0)%Z) eqn:E; simpl.
      * rewrite lookup_delete_eq. apply andb_true_iff in E as [E1%Z.eqb_eq E2%Z.eqb_eq]. lia.
      * rewrite lookup_insert_eq. simpl.
        rewrite wrap_small by lia.
        apply andb_false_iff in E.
        split_and!; try done; try lia.
        rewrite Hd. apply bool_decide_ext. lia.
    + rewrite hit_same in Hs. rewrite hit_other in Hw by done.
      assert (Hnd : object_destroyed_ cb = false).
      { rewrite Hd. apply bool_decide_eq_false_2. lia. }
      destruct (gc_strong_count_ cb =? 1)%Z eqn:E1.
      * apply Z.eqb_eq in E1.
        destruct (gc_weak_count_ cb =? 0)%Z eqn:E2; simpl.
        -- apply Z.eqb_eq in E2. rewrite lookup_delete_eq. lia.
        -- apply Z.eqb_neq in E2. rewrite lookup_insert_eq. simpl.
           split_and!; try done; try lia.
           symmetry. apply bool_decide_eq_true_2. lia.
      * apply Z.eqb_neq in E1. simpl. rewrite lookup_insert_eq. simpl.
        rewrite wrap_small by lia.
        split_and!; try done; try lia.
        rewrite Hnd. symmetry. apply bool_decide_eq_false_2. lia.
  - rewrite blocks_released_ne by done.
    rewrite !hit_other in Hs, Hw by congruence.
    rewrite ?Nat.add_0_r in Hs, Hw. rewrite Hs, Hw. exact Hb.
Qed.

(** ** What each operation of the handle computes *)

Lemma release_null (h : nat) w st :
  handles st !! h = Some (mkPtr None w) → release h st = Ret tt st.
Proof. intros Hh. munfold. mred. done. Qed.

Lemma release_eq (h c : nat) w cb st :
  handles st !! h = Some (mkPtr (Some c) w) →
  blocks st !! c = Some cb →
  (w = false → object_destroyed_ cb = false) →
  release h st = Ret tt (released c w cb st).
Proof.
  intros Hh Hc Hd. unfold release, load_ctrl, load_weak, load_handle, bind, ret.
  mred. destruct w.
  - by apply release_weak_eq.
  - apply release_strong_eq; auto.
Qed.

Lemma Ptr_copy_null (dst src : nat) w st :
  handles st !! dst = None →
  handles st !! src = Some (mkPtr None w) →
  Ptr_copy dst src st = Ret tt (set_handles <[dst := mkPtr None w]> st).
Proof.
  intros Hd Hs. assert (dst ≠ src) by congruence.
  munfold. mred. done.
Qed.

Lemma Ptr_copy_ref (dst src c : nat) w cb st :
  handles st !! dst = None →
  handles st !! src = Some (mkPtr (Some c) w) →
  blocks st !! c = Some cb →
  Ptr_copy dst src st
  = Ret tt (mkState (<[c := incr_count w cb]> (blocks st))
                    (<[dst := mkPtr (Some c) w]> (handles st)) (trace st)).
Proof.
  intros Hd Hs Hc. assert (dst ≠ src) by congruence.
  munfold. mred. destruct w; mred; done.
Qed.

Lemma Ptr_move_eq (dst src : nat) q st :
  handles st !! dst = None →
  handles st !! src = Some q →
  Ptr_move dst src st
  = Ret tt (set_handles (λ hs, <[dst := q]> (<[src := mkPtr None false]> hs)) st).
Proof.
  intros Hd Hs. assert (dst ≠ src) by congruence.
  munfold. mred. destruct q; done.
Qed.

Lemma swap_eq (a b : nat) qa qb st :
  handles st !! a = Some qa →
  handles st !! b = Some qb →
  swap a b st = Ret tt (set_handles (λ hs, <[b := qa]> (<[a := qb]> hs)) st).
Proof.
  intros Ha Hb. unfold swap. munfold.
  destruct (decide (a = b)) as [->|Hne].
  - mred. assert (qa = qb) as -> by congruence. destruct qb; done.
  - mred. destruct qa, qb; simpl. do 2 f_equal.
    apply map_eq; intros k.
    destruct (decide (k = a)) as [Hka|?]; destruct (decide (k = b)) as [Hkb|?];
      subst; mred; done.
Qed.

Lemma store_null_eq (h : nat) q st :
  handles st !! h = Some q →
  (store_ctrl h None ;;; store_weak h false) st
  = Ret tt (set_handles <[h := mkPtr None false]> st).
Proof. intros Hh. munfold. mred. done. Qed.

(** ** How the operations move references *)

Lemma hit_null q w : ctrl_ q ≠ None → hit q (Some (mkPtr None w)) = 0.
Proof. intros Hq. apply hit_other. intros <-. done. Qed.

Lemma refs_moved_fresh hs (h : nat) q :
  hs !! h = None → refs_moved hs (<[h := q]> hs) (Some q) None.
Proof.
  intros Hh q' _. rewrite hit_none, refs_insert_fresh by done. lia.
Qed.

Lemma refs_moved_fresh_null hs (h : nat) w :
  hs !! h = None → refs_moved hs (<[h := mkPtr None w]> hs) None None.
Proof.
  intros Hh q' Hq'. rewrite hit_none, refs_insert_fresh by done.
  by rewrite hit_null.
Qed.

Lemma refs_moved_delete hs (h : nat) q :
  hs !! h = Some q → refs_moved hs (delete h hs) None (Some q).
Proof.
  intros Hh q' _. pose proof (refs_delete q' hs h) as H. rewrite Hh in H.
  rewrite hit_none. lia.
Qed.

Lemma refs_moved_clear hs (h : nat) q w :
  hs !! h = Some q → refs_moved hs (<[h := mkPtr None w]> hs) None (Some q).
Proof.
  intros Hh q' Hq'. pose proof (refs_insert q' hs h (mkPtr None w)) as H.
  rewrite Hh in H. rewrite hit_null in H by done. rewrite hit_none. lia.
Qed.

Lemma refs_moved_clear_null hs (h : nat) w w' :
  hs !! h = Some (mkPtr None w') → refs_moved hs (<[h := mkPtr None w]> hs) None None.
Proof.
  intros Hh q' Hq'. pose proof (refs_insert q' hs h (mkPtr None w)) as H.
  rewrite Hh in H. rewrite !hit_null in H by done. rewrite hit_none. lia.
Qed.

Lemma refs_moved_move hs (dst src : nat) q :
  hs !! dst = None → hs !! src = Some q →
  refs_moved hs (<[dst := q]> (<[src := mkPtr None false]> hs)) None None.
Proof.
  intros Hd Hs q' Hq'. assert (dst ≠ src) by congruence.
  rewrite refs_insert_fresh by (by rewrite lookup_insert_ne).
  pose proof (refs_insert q' hs src (mkPtr None false)) as H1.
  rewrite Hs in H1. rewrite hit_null in H1 by done. rewrite hit_none. lia.
Qed.

Lemma refs_moved_swap hs (a b : nat) qa qb :
  hs !! a = Some qa → hs !! b = Some qb →
  refs_moved hs (<[b := qa]> (<[a := qb]> hs)) None None.
Proof.
  intros Ha Hb q' _. rewrite hit_none.
  pose proof (refs_insert q' (<[a := qb]> hs) b qa) as H1.
  pose proof (refs_insert q' hs a qb) as H2. rewrite Ha in H2.
  destruct (decide (a = b)) as [->|Hne].
  - rewrite lookup_insert_eq in H1. assert (qa = qb) by congruence. subst. lia.
  - rewrite lookup_insert_ne, Hb in H1 by done. lia.
Qed.

(** [dst = std::move(src)] when [dst] held [qd] *)
Lemma refs_moved_assign hs (dst src : nat) qd qs :
  dst ≠ src → hs !! dst = Some qd → hs !! src = Some qs →
  refs_moved hs (<[dst := qs]> (<[src := mkPtr None false]> hs)) None (Some qd).
Proof.
  intros Hne Hd Hs q' Hq'. rewrite hit_none.
  pose proof (refs_insert q' (<[src := mkPtr None false]> hs) dst qs) as H1.
  rewrite lookup_insert_ne, Hd in H1 by done.
  pose proof (refs_insert q' hs src (mkPtr None false)) as H2.
  rewrite Hs in H2. rewrite hit_null in H2 by done. lia.
Qed.

Lemma refs_pos_inv q hs : 0 < refs q hs → ∃ h : nat, hs !! h = Some q.
Proof.
  unfold refs. intros Hpos.
  destruct (map_size_ne_0_lookup_1 (filter (λ kv : nat * Ptr, kv.2 = q) hs))
    as [h [x Hx]]; [lia|].
  apply map_lookup_filter_Some in Hx as [Hx Heq]. simpl in Heq. subst. eauto.
Qed.

Lemma refs_zero_iff q hs : refs q hs = 0 ↔ ∀ h : nat, hs !! h ≠ Some q.
Proof.
  split.
  - intros Hz h. by apply refs_zero.
  - intros Hn. destruct (refs q hs) eqn:E; [done|].
    destruct (refs_pos_inv q hs) as [h Hh]; [lia|]. by destruct (Hn h).
Qed.

(** A handle that refers to a block keeps it allocated; a strong one keeps
    the value. *)
Lemma wf_live st (h c : nat) w :
  wf st → handles st !! h = Some (mkPtr (Some c) w) →
  ∃ cb, blocks st !! c = Some cb ∧
        (w = false → object_destroyed_ cb = false ∧ 0 < strong_refs c (handles st)).
Proof.
  intros Hwf Hh. specialize (Hwf c). unfold block_ok in Hwf.
  pose proof (refs_pos _ _ _ Hh) as Hpos.
  destruct (blocks st !! c) as [cb|].
  - exists cb. split; [done|]. intros ->. unfold strong_refs in *.
    destruct Hwf as (_ & _ & _ & Hd & _). rewrite Hd.
    split; [|done]. apply bool_decide_eq_false_2. lia.
  - unfold strong_refs, weak_refs in Hwf. destruct w; lia.
Qed.

(** ** The invariant of a managed value *)

Lemma count_snoc_same (tr : list event) e :
  count_occ event_eq_dec (tr ++ [e]) e = S (count_occ event_eq_dec tr e).
Proof.
  rewrite count_occ_app. simpl. destruct (event_eq_dec e e); [lia|done].
Qed.

Lemma count_snoc_other (tr : list event) e e' :
  e ≠ e' → count_occ event_eq_dec (tr ++ [e']) e = count_occ event_eq_dec tr e.
Proof.
  intros Hne. rewrite count_occ_app. simpl.
  destruct (event_eq_dec e' e); [congruence|lia].
Qed.

(** Releasing a reference to another block leaves the counts of [p] and
    [c] alone. *)
Lemma released_other_trace (p c c' : nat) w cb' st :
  c' ≠ c → ptr_ cb' ≠ Some p →
  destroyed_times p (released c' w cb' st) = destroyed_times p st ∧
  freed_times c (released c' w cb' st) = freed_times c st.
Proof.
  intros Hne Hp. unfold released, destroyed_times, freed_times.
  assert (Hv : count_occ event_eq_dec
                 (trace st ++ match ptr_ cb' with Some p' => [EvDeleteValue p'] | None => [] end)
                 (EvDeleteValue p) = count_occ event_eq_dec (trace st) (EvDeleteValue p)).
  { destruct (ptr_ cb') as [p'|]; [|by rewrite app_nil_r].
    apply count_snoc_other. congruence. }
  assert (Hf : count_occ event_eq_dec
                 (trace st ++ match ptr_ cb' with Some p' => [EvDeleteValue p'] | None => [] end)
                 (EvDeleteBlock c) = count_occ event_eq_dec (trace st) (EvDeleteBlock c)).
  { destruct (ptr_ cb') as [p'|]; [|by rewrite app_nil_r].
    by apply count_snoc_other. }
  destruct w.
  - destruct ((gc_weak_count_ cb' =? 1)%Z && (gc_strong_count_ cb' =? 0)%Z); simpl;
      [|done].
    rewrite !count_snoc_other by congruence. done.
  - destruct (gc_strong_count_ cb' =? 1)%Z; [|done].
    destruct (gc_weak_count_ cb' =? 0)%Z; simpl; [|done].
    rewrite !count_snoc_other by congruence. done.
Qed.

Lemma sole_owner_released (p c c' : nat) w cb' st :
  blocks st !! c' = Some cb' →
  sole_owner p c st → sole_owner p c (released c' w cb' st).
Proof.
  intros Hc' Ho c2 cb2 Hne Hl.
  destruct (decide (c2 = c')) as [->|Hne'].
  - pose proof (Ho c' cb' Hne Hc') as Hp.
    revert Hl. unfold released.
    repeat (match goal with |- context [if ?b then _ else _] => destruct b end);
      mred; intros Hl; simplify_eq; done.
  - rewrite blocks_released_ne in Hl by done. eauto.
Qed.

Section OneValue.
Variables p c nd nf : nat.

Lemma inv_neutral st hs' :
  Inv p c nd nf st → refs_moved (handles st) hs' None None →
  Inv p c nd nf (mkState (blocks st) hs' (trace st)).
Proof.
  intros (Hwf & Hv & Ho) Hm. split; [|split]; [|done|done].
  by apply wf_neutral.
Qed.

Lemma inv_acquire st (c' : nat) w cb hs' :
  Inv p c nd nf st → roomy st →
  blocks st !! c' = Some cb →
  (w = false → 0 < strong_refs c' (handles st)) →
  refs_moved (handles st) hs' (Some (mkPtr (Some c') w)) None →
  Inv p c nd nf (mkState (<[c' := incr_count w cb]> (blocks st)) hs' (trace st)).
Proof.
  intros (Hwf & Hv & Ho) Hroom Hc Hpos Hm. split; [|split].
  - by apply wf_acquire.
  - unfold value_ok, destroyed_times, freed_times in *. simpl.
    destruct (decide (c' = c)) as [->|Hne].
    + rewrite lookup_insert_eq. rewrite Hc in Hv. by destruct w.
    + by rewrite lookup_insert_ne.
  - intros c2 cb2 Hne Hl. simpl in Hl.
    destruct (decide (c2 = c')) as [->|Hne'].
    + rewrite lookup_insert_eq in Hl. simplify_eq.
      pose proof (Ho c' cb Hne Hc). by destruct w.
    + rewrite lookup_insert_ne in Hl by done. eauto.
Qed.

Lemma value_ok_released st w cb :
  wf st → value_ok p c nd nf st → blocks st !! c = Some cb →
  0 < refs (mkPtr (Some c) w) (handles st) →
  value_ok p c nd nf (released c w cb st).
Proof.
  intros Hwf Hv Hc Hpos. specialize (Hwf c).
  unfold block_ok, value_ok, destroyed_times, freed_times, strong_refs, weak_refs in *.
  rewrite Hc in Hwf, Hv. destruct Hwf as (Hsc & Hwc & _ & Hd & Hp).
  destruct Hv as [Hf Hv]. unfold released. destruct w.
  - destruct ((gc_weak_count_ cb =? 1)%Z && (gc_strong_count_ cb =? 0)%Z) eqn:E; simpl.
    + rewrite lookup_delete_eq.
      apply andb_true_iff in E as [E1%Z.eqb_eq E2%Z.eqb_eq].
      rewrite bool_decide_eq_true_2 in Hd by lia. rewrite Hd in Hv.
      rewrite count_snoc_other by done. rewrite count_snoc_same. lia.
    + rewrite lookup_insert_eq. simpl. done.
  - rewrite bool_decide_eq_false_2 in Hd by lia. rewrite Hd in Hv.
    destruct Hv as [Hptr Hv]. rewrite Hptr.
    destruct (gc_strong_count_ cb =? 1)%Z eqn:E1.
    + destruct (gc_weak_count_ cb =? 0)%Z eqn:E2; simpl.
      * rewrite lookup_delete_eq.
        rewrite count_snoc_other by done. rewrite !count_snoc_same.
        rewrite count_snoc_other by done. lia.
      * rewrite lookup_insert_eq. simpl.
        rewrite count_snoc_other by done. rewrite count_snoc_same. lia.
    + simpl. rewrite lookup_insert_eq. simpl. by rewrite Hd.
Qed.

Lemma inv_release st (c' : nat) w cb hs' :
  Inv p c nd nf st →
  (Z.of_nat (size (handles st)) < 2 ^ size_bits)%Z →
  blocks st !! c' = Some cb →
  refs_moved (handles st) hs' None (Some (mkPtr (Some c') w)) →
  Inv p c nd nf (set_handles (λ _, hs') (released c' w cb st)).
Proof.
  intros (Hwf & Hv & Ho) Hroom Hc Hm. split; [|split].
  - by apply wf_release.
  - destruct (decide (c' = c)) as [->|Hne].
    + assert (Hpos : 0 < refs (mkPtr (Some c) w) (handles st)).
      { specialize (Hm (mkPtr (Some c) w) ltac:(done)).
        rewrite hit_same, hit_none in Hm. lia. }
      pose proof (value_ok_released st w cb Hwf Hv Hc Hpos) as Hr.
      unfold value_ok, destroyed_times, freed_times in *. done.
    + destruct (released_other_trace p c c' w cb st Hne (Ho c' cb Hne Hc)) as [Hd Hf].
      unfold value_ok in *. simpl.
      rewrite blocks_released_ne by done.
      unfold destroyed_times, freed_times in *. simpl. rewrite Hd, Hf. done.
  - intros c2 cb2 Hne Hl. simpl in Hl.
    by apply (sole_owner_released p c c' w cb st Hc Ho c2 cb2).
Qed.

End OneValue.

(** ** Closed forms of the remaining operations *)

Lemma try_add_strong_loop_eq (n : nat) (c : nat) cb st :
  blocks st !! c = Some cb →
  try_add_strong_loop n c (gc_strong_count_ cb) st
  = if (0 <? gc_strong_count_ cb)%Z
    then Ret true (set_blocks <[c := incr_count false cb]> st)
    else Ret false st.
Proof.
  intros Hc. induction n as [|n IH]; simpl.
  - destruct (0 <? gc_strong_count_ cb)%Z; [|done].
    unfold compare_exchange_weak_strong. munfold. mred.
    rewrite Z.eqb_refl. done.
  - destruct (0 <? gc_strong_count_ cb)%Z eqn:E; [|done].
    unfold compare_exchange_weak_strong. munfold. mred.
    unfold bind in IH. rewrite IH. done.
Qed.

Lemma try_add_strong_eq (n : nat) (c : nat) cb st :
  blocks st !! c = Some cb →
  try_add_strong n c st
  = if (0 <? gc_strong_count_ cb)%Z
    then Ret true (set_blocks <[c := incr_count false cb]> st)
    else Ret false st.
Proof.
  intros Hc. unfold try_add_strong, load_block, bind. rewrite Hc.
  by apply try_add_strong_loop_eq.
Qed.

Lemma Ptr_dtor_eq (h : nat) st st1 :
  release h st = Ret tt st1 →
  Ptr_dtor h st = Ret tt (set_handles (delete h) st1).
Proof. intros Hr. unfold Ptr_dtor, bind, discard. by rewrite Hr. Qed.

Lemma reset_eq (h : nat) q st st1 :
  release h st = Ret tt st1 → handles st1 !! h = Some q →
  reset h st = Ret tt (set_handles <[h := mkPtr None false]> st1).
Proof.
  intros Hr Hh. unfold reset. unfold bind at 1. rewrite Hr.
  by apply (store_null_eq h q).
Qed.

Lemma assign_move_eq (dst src : nat) qd qs st st1 :
  dst ≠ src →
  release dst st = Ret tt st1 →
  handles st1 !! dst = Some qd → handles st1 !! src = Some qs →
  assign_move dst src st
  = Ret tt (set_handles (λ hs, <[dst := qs]> (<[src := mkPtr None false]> hs)) st1).
Proof.
  intros Hne Hr Hd Hs. unfold assign_move. rewrite decide_False by done.
  unfold bind at 1. rewrite Hr. munfold. mred. destruct qs, qd; simpl.
  do 2 f_equal. apply map_eq; intros k.
  destruct (decide (k = dst)) as [Hka|?]; destruct (decide (k = src)) as [Hkb|?];
    subst; mred; done.
Qed.

Lemma safe_strong_eq (dst this src c : nat) cb st :
  handles st !! dst = None →
  handles st !! src = Some (mkPtr (Some c) false) →
  blocks st !! c = Some cb →
  safe dst this src st
  = Ret tt (mkState (<[c := incr_count true cb]> (blocks st))
                    (<[dst := mkPtr (Some c) true]> (handles st)) (trace st)).
Proof.
  intros Hd Hs Hc. assert (dst ≠ src) by congruence.
  unfold safe. munfold. mred. done.
Qed.

Lemma safe_other_eq (dst this src : nat) q st :
  handles st !! dst = None →
  handles st !! src = Some q →
  ctrl_ q = None ∨ is_weak_ q = true →
  safe dst this src st = Ret tt (set_handles <[dst := mkPtr None false]> st).
Proof.
  intros Hd Hs Hq. assert (dst ≠ src) by congruence.
  unfold safe. munfold. mred.
  destruct q as [[c|] [|]]; mred; try done. by destruct Hq.
Qed.

Lemma lock_copy_eq (n dst src : nat) q st :
  handles st !! src = Some q →
  ctrl_ q = None ∨ is_weak_ q = false →
  lock n dst src st = Ptr_copy dst src st.
Proof.
  intros Hs Hq. unfold lock, load_weak, load_ctrl, load_handle, bind, ret. mred.
  destruct q as [[c|] [|]]; mred; try done. by destruct Hq.
Qed.

Lemma lock_weak_eq (n dst src c : nat) cb st :
  handles st !! dst = None →
  handles st !! src = Some (mkPtr (Some c) true) →
  blocks st !! c = Some cb →
  lock n dst src st
  = if (0 <? gc_strong_count_ cb)%Z
    then Ret tt (mkState (<[c := incr_count false cb]> (blocks st))
                         (<[dst := mkPtr (Some c) false]> (handles st)) (trace st))
    else Ret tt (set_handles <[dst := mkPtr None false]> st).
Proof.
  intros Hd Hs Hc. unfold lock, load_weak, load_ctrl, load_handle, bind, ret. mred.
  rewrite (try_add_strong_eq n c cb st Hc).
  destruct (0 <? gc_strong_count_ cb)%Z; munfold; mred; done.
Qed.

(** ** Every operation keeps the invariant *)

Lemma refs_moved_rel_null hs hs' acq w :
  refs_moved hs hs' acq (Some (mkPtr None w)) → refs_moved hs hs' acq None.
Proof. intros Hm q Hq. specialize (Hm q Hq). by rewrite hit_null in Hm. Qed.

Lemma size_insert_le (m : gmap nat Ptr) (k : nat) v : size (<[k := v]> m) ≤ S (size m).
Proof. rewrite map_size_insert. destruct (m !! k); unfold id; lia. Qed.

Lemma size_insert_live (m : gmap nat Ptr) (k : nat) v :
  is_Some (m !! k) → size (<[k := v]> m) = size m.
Proof. apply map_size_insert_Some. Qed.

Lemma roomy_bound st : roomy st → (Z.of_nat (size (handles st)) < 2 ^ size_bits)%Z.
Proof. unfold roomy. lia. Qed.

Section Operations.
Variables p c nd nf : nat.

Lemma copy_ok st (dst src : nat) q :
  Inv p c nd nf st → roomy st →
  handles st !! dst = None → handles st !! src = Some q →
  ∃ st', Ptr_copy dst src st = Ret tt st' ∧ Inv p c nd nf st' ∧
         handles st' = <[dst := q]> (handles st).
Proof.
  intros HI Hroom Hd Hs. pose proof HI as (Hwf & Hv & Ho).
  destruct q as [[c'|] w].
  - destruct (wf_live _ _ _ _ Hwf Hs) as (cb & Hc & Hlive).
    eexists. split; [by apply Ptr_copy_ref|]. split; [|done].
    apply inv_acquire; try done.
    + intros ->. by apply Hlive.
    + by apply refs_moved_fresh.
  - eexists. split; [by apply Ptr_copy_null|]. split; [|done].
    apply inv_neutral; try done. by apply refs_moved_fresh_null.
Qed.

Lemma move_ok st (dst src : nat) q :
  Inv p c nd nf st →
  handles st !! dst = None → handles st !! src = Some q →
  ∃ st', Ptr_move dst src st = Ret tt st' ∧ Inv p c nd nf st' ∧
         handles st' = <[dst := q]> (<[src := mkPtr None false]> (handles st)).
Proof.
  intros HI Hd Hs.
  eexists. split; [by apply Ptr_move_eq|]. split; [|done].
  apply inv_neutral; try done. by apply refs_moved_move.
Qed.

Lemma swap_ok st (a b : nat) qa qb :
  Inv p c nd nf st →
  handles st !! a = Some qa → handles st !! b = Some qb →
  ∃ st', swap a b st = Ret tt st' ∧ Inv p c nd nf st' ∧
         handles st' = <[b := qa]> (<[a := qb]> (handles st)).
Proof.
  intros HI Ha Hb.
  eexists. split; [by apply swap_eq|]. split; [|done].
  apply inv_neutral; try done. by apply refs_moved_swap.
Qed.

(** Releasing the reference of [h], whatever [h] is made to hold next *)
Lemma release_ok st (h : nat) q hs' :
  Inv p c nd nf st →
  (Z.of_nat (size (handles st)) < 2 ^ size_bits)%Z →
  handles st !! h = Some q →
  refs_moved (handles st) hs' None (Some q) →
  ∃ st1, release h st = Ret tt st1 ∧ handles st1 = handles st ∧
         Inv p c nd nf (set_handles (λ _, hs') st1).
Proof.
  intros HI Hroom Hh Hm. pose proof HI as (Hwf & Hv & Ho).
  destruct q as [[c'|] w].
  - destruct (wf_live _ _ _ _ Hwf Hh) as (cb & Hc & Hlive).
    exists (released c' w cb st). split; [|split].
    + apply release_eq; try done. intros ->. by apply Hlive.
    + apply handles_released.
    + by apply inv_release.
  - exists st. split; [by apply (release_null h w)|]. split; [done|].
    apply (inv_neutral p c nd nf st hs'); try done.
    by apply (refs_moved_rel_null _ _ _ w).
Qed.

Lemma dtor_ok st (h : nat) q :
  Inv p c nd nf st →
  (Z.of_nat (size (handles st)) < 2 ^ size_bits)%Z →
  handles st !! h = Some q →
  ∃ st', Ptr_dtor h st = Ret tt st' ∧ Inv p c nd nf st' ∧
         handles st' = delete h (handles st).
Proof.
  intros HI Hroom Hh.
  destruct (release_ok st h q (delete h (handles st)) HI Hroom Hh)
    as (st1 & Hr & Hh1 & HI1).
  { by apply refs_moved_delete. }
  exists (set_handles (delete h) st1). split; [by apply Ptr_dtor_eq|].
  unfold set_handles in *. simpl in *. rewrite Hh1. done.
Qed.

Lemma reset_ok st (h : nat) q :
  Inv p c nd nf st →
  (Z.of_nat (size (handles st)) < 2 ^ size_bits)%Z →
  handles st !! h = Some q →
  ∃ st', reset h st = Ret tt st' ∧ Inv p c nd nf st' ∧
         handles st' = <[h := mkPtr None false]> (handles st).
Proof.
  intros HI Hroom Hh.
  destruct (release_ok st h q (<[h := mkPtr None false]> (handles st)) HI Hroom Hh)
    as (st1 & Hr & Hh1 & HI1).
  { by apply refs_moved_clear. }
  exists (set_handles <[h := mkPtr None false]> st1). split.
  - apply (reset_eq h q); [done|]. by rewrite Hh1.
  - unfold set_handles in *. simpl in *. rewrite Hh1. done.
Qed.

Lemma assign_move_ok st (dst src : nat) qd qs :
  Inv p c nd nf st →
  (Z.of_nat (size (handles st)) < 2 ^ size_bits)%Z →
  handles st !! dst = Some qd → handles st !! src = Some qs →
  ∃ st', assign_move dst src st = Ret tt st' ∧ Inv p c nd nf st' ∧
         dom (handles st') = dom (handles st).
Proof.
  intros HI Hroom Hd Hs.
  destruct (decide (dst = src)) as [->|Hne].
  { exists st. unfold assign_move. rewrite decide_True by done. done. }
  destruct (release_ok st dst qd
              (<[dst := qs]> (<[src := mkPtr None false]> (handles st))) HI Hroom Hd)
    as (st1 & Hr & Hh1 & HI1).
  { by apply refs_moved_assign. }
  eexists. split.
  - apply (assign_move_eq dst src qd qs); try done; by rewrite Hh1.
  - unfold set_handles in *. simpl in *. rewrite Hh1. split; [done|].
    rewrite !dom_insert_lookup_L; [done|eauto|mred; eauto].
Qed.

Lemma assign_copy_ok st (tmp dst src : nat) qd qs :
  Inv p c nd nf st → roomy st →
  handles st !! tmp = None →
  handles st !! dst = Some qd → handles st !! src = Some qs →
  ∃ st', assign_copy tmp dst src st = Ret tt st' ∧ Inv p c nd nf st' ∧
         dom (handles st') = dom (handles st).
Proof.
  intros HI Hroom Ht Hd Hs.
  destruct (decide (dst = src)) as [->|Hne].
  { exists st. unfold assign_copy. rewrite decide_True by done. done. }
  assert (tmp ≠ dst) by congruence. assert (tmp ≠ src) by congruence.
  destruct (copy_ok st tmp src qs HI Hroom Ht Hs) as (st1 & Hc1 & HI1 & Hh1).
  destruct (swap_ok st1 dst tmp qd qs HI1) as (st2 & Hc2 & HI2 & Hh2).
  { rewrite Hh1. by rewrite lookup_insert_ne. }
  { rewrite Hh1. by rewrite lookup_insert_eq. }
  destruct (dtor_ok st2 tmp qd HI2) as (st3 & Hc3 & HI3 & Hh3).
  { rewrite Hh2, Hh1. unfold roomy in Hroom.
    rewrite !size_insert_live by (mred; eauto).
    pose proof (size_insert_le (handles st) tmp qs). lia. }
  { rewrite Hh2. by rewrite lookup_insert_eq. }
  exists st3. split; [|split; [done|]].
  - unfold assign_copy. rewrite decide_False by done.
    unfold bind. rewrite Hc1, Hc2. done.
  - rewrite Hh3, Hh2, Hh1. rewrite delete_insert_eq.
    rewrite delete_insert_ne by done. rewrite delete_insert_eq.
    rewrite delete_id by done. apply dom_insert_lookup_L. eauto.
Qed.

Lemma safe_ok st (dst src : nat) q :
  Inv p c nd nf st → roomy st →
  handles st !! dst = None → handles st !! src = Some q →
  ∃ st', safe dst src src st = Ret tt st' ∧ Inv p c nd nf st' ∧
         dom (handles st') = {[dst]} ∪ dom (handles st).
Proof.
  intros HI Hroom Hd Hs. pose proof HI as (Hwf & Hv & Ho).
  destruct (decide (ctrl_ q = None ∨ is_weak_ q = true)) as [Hq|Hq].
  - eexists. split; [by apply (safe_other_eq dst src src q)|]. split.
    + apply inv_neutral; try done. by apply refs_moved_fresh_null.
    + simpl. by rewrite dom_insert_L.
  - destruct q as [[c'|] [|]]; try (exfalso; apply Hq; auto; fail).
    destruct (wf_live _ _ _ _ Hwf Hs) as (cb & Hc & Hlive).
    eexists. split; [by apply (safe_strong_eq dst src src c' cb)|]. split.
    + apply inv_acquire; try done. by apply refs_moved_fresh.
    + simpl. by rewrite dom_insert_L.
Qed.

Lemma lock_ok st (n dst src : nat) q :
  Inv p c nd nf st → roomy st →
  handles st !! dst = None → handles st !! src = Some q →
  ∃ st', lock n dst src st = Ret tt st' ∧ Inv p c nd nf st' ∧
         dom (handles st') = {[dst]} ∪ dom (handles st).
Proof.
  intros HI Hroom Hd Hs. pose proof HI as (Hwf & Hv & Ho).
  destruct (decide (ctrl_ q = None ∨ is_weak_ q = false)) as [Hq|Hq].
  - destruct (copy_ok st dst src q HI Hroom Hd Hs) as (st' & Hc & HI' & Hh').
    exists st'. rewrite (lock_copy_eq n dst src q) by done.
    split; [done|]. split; [done|]. by rewrite Hh', dom_insert_L.
  - destruct q as [[c'|] [|]]; try (exfalso; apply Hq; auto; fail).
    destruct (wf_live _ _ _ _ Hwf Hs) as (cb & Hc & _).
    rewrite (lock_weak_eq n dst src c' cb) by done.
    destruct (0 <? gc_strong_count_ cb)%Z eqn:E.
    + eexists. split; [done|]. split.
      * apply inv_acquire; try done.
        -- intros _. pose proof (Hwf c') as Hb. unfold block_ok in Hb.
           rewrite Hc in Hb. destruct Hb as (Hsc & _). lia.
        -- by apply refs_moved_fresh.
      * simpl. by rewrite dom_insert_L.
    + eexists. split; [done|]. split.
      * apply inv_neutral; try done. by apply refs_moved_fresh_null.
      * simpl. by rewrite dom_insert_L.
Qed.

End Operations.

(** ** Whole programs *)

Lemma Ptr_from_raw_eq st (a c p : nat) :
  handles st !! a = None → blocks st !! c = None →
  Ptr_from_raw (Some c) a (Some p) st
  = Ret tt (mkState (<[c := mkCB 1 0 (Some p) false]> (blocks st))
                    (<[a := mkPtr (Some c) false]> (handles st)) (trace st)).
Proof. intros Ha Hc. munfold. mred. done. Qed.

Lemma wf_st_empty : wf st_empty.
Proof.
  intros c. unfold block_ok, strong_refs, weak_refs, st_empty. simpl.
  by rewrite lookup_empty, !refs_empty.
Qed.

Lemma run_app ops1 ops2 st st1 :
  run ops1 st = Ret tt st1 → run (ops1 ++ ops2) st = run ops2 st1.
Proof.
  revert st. induction ops1 as [|o ops1 IH]; intros st Hr; simpl in *.
  - unfold ret in Hr. by simplify_eq.
  - unfold bind in *. destruct (exec o st) as [[] s'| |]; try done. by apply IH.
Qed.

Section Programs.
Variables p c nd nf : nat.

Lemma exec_ok o st D' :
  Inv p c nd nf st → roomy st →
  scoped_op (dom (handles st)) o = Some D' →
  ∃ st', exec o st = Ret tt st' ∧ Inv p c nd nf st' ∧ dom (handles st') = D'.
Proof.
  intros HI Hroom Hsc. pose proof (roomy_bound _ Hroom) as Hb.
  destruct o; simpl in *; case_decide as Hd; simplify_eq.
  - destruct Hd as [[qs Hs]%elem_of_dom Hd%not_elem_of_dom].
    destruct (copy_ok p c nd nf st dst src qs) as (st' & ? & ? & Hh); try done.
    exists st'. by rewrite Hh, dom_insert_L.
  - destruct Hd as [[qs Hs]%elem_of_dom Hd%not_elem_of_dom].
    destruct (move_ok p c nd nf st dst src qs) as (st' & ? & ? & Hh); try done.
    exists st'. rewrite Hh, dom_insert_L. rewrite dom_insert_lookup_L by eauto. done.
  - destruct Hd as ([qs Hs]%elem_of_dom & [qd Hd]%elem_of_dom & Ht%not_elem_of_dom).
    by apply (assign_copy_ok p c nd nf st tmp dst src qd qs).
  - destruct Hd as ([qd Hd]%elem_of_dom & [qs Hs]%elem_of_dom).
    by apply (assign_move_ok p c nd nf st dst src qd qs).
  - destruct Hd as ([qa Ha]%elem_of_dom & [qb Hq]%elem_of_dom).
    destruct (swap_ok p c nd nf st a b qa qb) as (st' & ? & ? & Hh); try done.
    exists st'. rewrite Hh. rewrite !dom_insert_lookup_L; [done|eauto|].
    destruct (decide (a = b)) as [->|?]; mred; eauto.
  - apply elem_of_dom in Hd as [q Hq].
    destruct (reset_ok p c nd nf st h q) as (st' & ? & ? & Hh); try done.
    exists st'. rewrite Hh. by rewrite dom_insert_lookup_L by eauto.
  - apply elem_of_dom in Hd as [q Hq].
    destruct (dtor_ok p c nd nf st h q) as (st' & ? & ? & Hh); try done.
    exists st'. by rewrite Hh, dom_delete_L.
  - destruct Hd as [[qs Hs]%elem_of_dom Hd%not_elem_of_dom].
    by apply (safe_ok p c nd nf st dst src qs).
  - destruct Hd as [[qs Hs]%elem_of_dom Hd%not_elem_of_dom].
    by apply (lock_ok p c nd nf st spurious dst src qs).
Qed.

Lemma scoped_op_size D o D' : scoped_op D o = Some D' → size D' ≤ S (size D).
Proof.
  intros Hsc.
  assert (Hu : ∀ x : nat, size ({[x]} ∪ D) ≤ S (size D)).
  { intros x. rewrite size_union_alt, size_singleton.
    pose proof (subseteq_size (D ∖ {[x]}) D (subseteq_difference_l _ _ _ (reflexivity D))).
    lia. }
  destruct o; simpl in *; case_decide; simplify_eq; try lia; try apply Hu.
  pose proof (subseteq_size (D ∖ {[h]}) D (subseteq_difference_l _ _ _ (reflexivity D))).
  lia.
Qed.

Lemma run_ok ops : ∀ st D',
  Inv p c nd nf st →
  (Z.of_nat (size (handles st)) + Z.of_nat (length ops) + 2 ≤ 2 ^ size_bits)%Z →
  scoped (dom (handles st)) ops = Some D' →
  ∃ st', run ops st = Ret tt st' ∧ Inv p c nd nf st' ∧ dom (handles st') = D'.
Proof.
  induction ops as [|o ops IH]; intros st D' HI Hb Hsc; simpl in *.
  - simplify_eq. by exists st.
  - destruct (scoped_op (dom (handles st)) o) as [D1|] eqn:E; [|done].
    destruct (exec_ok o st D1 HI) as (st1 & He & HI1 & Hd1); [|done|].
    { unfold roomy. lia. }
    destruct (IH st1 D' HI1) as (st' & Hr & HI' & Hd').
    + pose proof (scoped_op_size _ _ _ E) as Hs.
      rewrite <- Hd1 in Hs. rewrite !size_dom in Hs. lia.
    + by rewrite Hd1.
    + exists st'. unfold bind. rewrite He. done.
Qed.

(** The handles after [Ptr h1(a); ...; Ptr hN(a);] and after the
    destruction of the handles [l]. *)
Lemma run_copies (a : nat) q (hs : list nat) : ∀ st,
  Inv p c nd nf st →
  (Z.of_nat (size (handles st)) + Z.of_nat (length hs) + 2 ≤ 2 ^ size_bits)%Z →
  handles st !! a = Some q →
  NoDup hs → (∀ h, h ∈ hs → handles st !! h = None) →
  ∃ st', run (copies a hs) st = Ret tt st' ∧ Inv p c nd nf st' ∧
         size (handles st') = size (handles st) + length hs ∧
         ∀ k, handles st' !! k = if decide (k ∈ hs) then Some q else handles st !! k.
Proof.
  induction hs as [|h hs IH]; intros st HI Hb Ha Hnd Hfresh; simpl in *.
  - exists st. split; [done|]. split; [done|]. split; [lia|]. done.
  - apply NoDup_cons in Hnd as [Hh Hnd].
    assert (Hfh : handles st !! h = None) by (apply Hfresh; left).
    assert (h ≠ a) by congruence.
    destruct (copy_ok p c nd nf st h a q HI) as (st1 & Hc & HI1 & Hh1); try done.
    { unfold roomy. lia. }
    destruct (IH st1 HI1) as (st' & Hr & HI' & Hsz & Hl); try done.
    + rewrite Hh1, map_size_insert_None by done. lia.
    + rewrite Hh1. by rewrite lookup_insert_ne.
    + intros h' Hh'. rewrite Hh1. rewrite lookup_insert_ne by (intros ->; done).
      apply Hfresh. by right.
    + exists st'. unfold bind. rewrite Hc. split; [done|]. split; [done|]. split.
      * rewrite Hsz, Hh1, map_size_insert_None by done. lia.
      * intros k. rewrite Hl, Hh1.
        destruct (decide (k = h)) as [->|Hk].
        -- rewrite lookup_insert_eq. rewrite (decide_True (P := h ∈ h :: hs)) by left.
           by destruct (decide (h ∈ hs)).
        -- rewrite lookup_insert_ne by done.
           destruct (decide (k ∈ hs)) as [Hin|Hin].
           ++ rewrite decide_True; [done|by right].
           ++ rewrite decide_False; [done|].
              intros [?|?]%elem_of_cons; done.
Qed.

Lemma run_destroys (l : list nat) : ∀ st,
  Inv p c nd nf st →
  (Z.of_nat (size (handles st)) < 2 ^ size_bits)%Z →
  NoDup l → (∀ h, h ∈ l → is_Some (handles st !! h)) →
  ∃ st', run (destroys l) st = Ret tt st' ∧ Inv p c nd nf st' ∧
         ∀ k, handles st' !! k = if decide (k ∈ l) then None else handles st !! k.
Proof.
  induction l as [|h l IH]; intros st HI Hb Hnd Hlive; simpl in *.
  - exists st. split; [done|]. split; [done|]. done.
  - apply NoDup_cons in Hnd as [Hh Hnd].
    destruct (Hlive h) as [q Hq]; [left|].
    destruct (dtor_ok p c nd nf st h q HI Hb Hq) as (st1 & Hc & HI1 & Hh1).
    destruct (IH st1 HI1) as (st' & Hr & HI' & Hl); try done.
    + rewrite Hh1. rewrite map_size_delete, Hq. lia.
    + intros h' Hh'. rewrite Hh1. rewrite lookup_delete_ne by (intros ->; done).
      apply Hlive. by right.
    + exists st'. unfold bind. rewrite Hc. split; [done|]. split; [done|].
      intros k. rewrite Hl, Hh1.
      destruct (decide (k = h)) as [->|Hk].
      * rewrite lookup_delete_eq. rewrite (decide_True (P := h ∈ h :: l)) by left.
        by destruct (decide (h ∈ l)).
      * rewrite lookup_delete_ne by done.
        destruct (decide (k ∈ l)) as [Hin|Hin].
        -- rewrite decide_True; [done|by right].
        -- rewrite decide_False; [done|].
           intros [?|?]%elem_of_cons; done.
Qed.

(** What the invariant says about the trace. *)
Lemma Inv_strong_alive st (h : nat) :
  Inv p c nd nf st → handles st !! h = Some (mkPtr (Some c) false) →
  destroyed_times p st = nd.
Proof.
  intros (Hwf & Hv & _) Hh.
  destruct (wf_live _ _ _ _ Hwf Hh) as (cb & Hc & Hl).
  destruct (Hl eq_refl) as [Hd _].
  unfold value_ok in Hv. rewrite Hc, Hd in Hv. tauto.
Qed.

Lemma Inv_no_strong st :
  Inv p c nd nf st → (∀ h : nat, handles st !! h ≠ Some (mkPtr (Some c) false)) →
  destroyed_times p st = S nd.
Proof.
  intros (Hwf & Hv & _) Hn. apply refs_zero_iff in Hn.
  specialize (Hwf c). unfold block_ok, value_ok, strong_refs in *.
  destruct (blocks st !! c) as [cb|]; [|tauto].
  destruct Hwf as (_ & _ & _ & Hd & _).
  rewrite bool_decide_eq_true_2 in Hd by done. rewrite Hd in Hv. tauto.
Qed.

Lemma Inv_referenced st (h : nat) w :
  Inv p c nd nf st → handles st !! h = Some (mkPtr (Some c) w) →
  freed_times c st = nf ∧ is_Some (blocks st !! c).
Proof.
  intros (Hwf & Hv & _) Hh.
  destruct (wf_live _ _ _ _ Hwf Hh) as (cb & Hc & _).
  unfold value_ok in Hv. rewrite Hc in Hv. split; [tauto|eauto].
Qed.

Lemma Inv_unreferenced st :
  Inv p c nd nf st → (∀ (h : nat) w, handles st !! h ≠ Some (mkPtr (Some c) w)) →
  freed_times c st = S nf ∧ destroyed_times p st = S nd ∧ blocks st !! c = None.
Proof.
  intros (Hwf & Hv & _) Hn.
  assert (Hs : strong_refs c (handles st) = 0).
  { apply refs_zero_iff. intros h. apply Hn. }
  assert (Hw : weak_refs c (handles st) = 0).
  { apply refs_zero_iff. intros h. apply Hn. }
  specialize (Hwf c). unfold block_ok, value_ok in *.
  destruct (blocks st !! c) as [cb|]; [lia|tauto].
Qed.

Lemma Inv_counts st :
  Inv p c nd nf st →
  nd ≤ destroyed_times p st ≤ S nd ∧ nf ≤ freed_times c st ≤ S nf.
Proof.
  intros (_ & Hv & _). unfold value_ok in Hv.
  destruct (blocks st !! c) as [cb|]; [|lia].
  destruct (object_destroyed_ cb); lia.
Qed.

End Programs.

(** The invariant holds once the value is wrapped. *)
Lemma Inv_constructed st0 (p c a : nat) :
  wf st0 → handles st0 !! a = None → blocks st0 !! c = None →
  (∀ c' cb', blocks st0 !! c' = Some cb' → ptr_ cb' ≠ Some p) →
  Inv p c (destroyed_times p st0) (freed_times c st0)
    (mkState (<[c := mkCB 1 0 (Some p) false]> (blocks st0))
             (<[a := mkPtr (Some c) false]> (handles st0)) (trace st0)).
Proof.
  intros Hwf Ha Hc Hsole. split; [|split].
  - intros c'. pose proof (Hwf c') as Hb.
    unfold block_ok, strong_refs, weak_refs in *. simpl.
    rewrite !refs_insert_fresh by done.
    destruct (decide (c' = c)) as [->|Hne].
    + rewrite lookup_insert_eq. rewrite Hc in Hb. destruct Hb as [-> ->]. simpl.
      rewrite hit_same, hit_other by done. split_and!; try done; lia.
    + rewrite lookup_insert_ne by done.
      rewrite !hit_other by congruence. by rewrite !Nat.add_0_r.
  - unfold value_ok, destroyed_times, freed_times. simpl.
    rewrite lookup_insert_eq. done.
  - intros c' cb' Hne Hl. simpl in Hl. rewrite lookup_insert_ne in Hl by done. eauto.
Qed.

(** ** A value is destroyed exactly once *)

Lemma wf_unallocated st (c : nat) :
  wf st → blocks st !! c = None →
  ∀ (h : nat) w, handles st !! h ≠ Some (mkPtr (Some c) w).
Proof.
  intros Hwf Hc h w. specialize (Hwf c). unfold block_ok in Hwf. rewrite Hc in Hwf.
  destruct Hwf as [Hs Hw]. destruct w; by apply refs_zero.
Qed.


(** ** The example states are states of real programs *)

Example st_owner_reached :
  Ptr_from_raw (Some 100) 1 (Some 7) st_empty = Ret tt st_owner.
Proof. vm_compute. reflexivity. Qed.

Example st_shared_reached :
  (Ptr_from_raw (Some 100) 1 (Some 7) ;;; safe 2 1 1) st_empty = Ret tt st_shared.
Proof. vm_compute. reflexivity. Qed.

(** ** Empty handles, [get] and allocation failure *)

(** C9.  A handle built from a null raw pointer, in free storage, is
    empty: no block is allocated whatever the allocator would have done,
    the handle is not weak, both counts read 0, [get()] is null and the
    handle tests false; it is the handle that [Ptr()] builds. *)
Theorem null_raw_pointer_gives_empty_handle
    (alloc : option nat) (this : nat) (st : State) :
  handles st !! this = None →
  ∃ st', Ptr_from_raw alloc this None st = Ret tt st' ∧
    Ptr_default this st = Ret tt st' ∧
    blocks st' = blocks st ∧ trace st' = trace st ∧
    handles st' = <[this := mkPtr None false]> (handles st) ∧
    is_weak this st' = Ret false st' ∧
    ref_count this st' = Ret 0%Z st' ∧
    weak_count this st' = Ret 0%Z st' ∧
    get this st' = Ret None st' ∧
    operator_bool this st' = Ret false st'.
Proof.
  intros Hfresh. eexists. split.
  - munfold. mred. reflexivity.
  - munfold. mred. done.
Qed.

Lemma null_raw_pointer_gives_empty_handle_witness :
  handles st_owner !! 5 = None ∧
  ∃ st', Ptr_from_raw (Some 200) 5 None st_owner = Ret tt st' ∧
    Ptr_default 5 st_owner = Ret tt st' ∧
    blocks st' = blocks st_owner ∧ trace st' = trace st_owner ∧
    handles st' = <[5 := mkPtr None false]> (handles st_owner) ∧
    is_weak 5 st' = Ret false st' ∧
    ref_count 5 st' = Ret 0%Z st' ∧
    weak_count 5 st' = Ret 0%Z st' ∧
    get 5 st' = Ret None st' ∧
    operator_bool 5 st' = Ret false st'.
Proof.
  split; [reflexivity|].
  apply (null_raw_pointer_gives_empty_handle (Some 200) 5 st_owner). reflexivity.
Defined.

(** C10.  [get()] on a weak handle is null in every state, also while the
    value is alive; and whenever [get()] or [operator->] hands out the
    address of a value, the handle is a strong one on the block that holds
    that value. *)
Theorem raw_pointer_only_through_strong_handle (st : State) (h : nat) (q : Ptr) :
  handles st !! h = Some q →
  (is_weak_ q = true → get h st = Ret None st) ∧
  (∀ v st', get h st = Ret (Some v) st' ∨ operator_arrow h st = Ret (Some v) st' →
     is_weak_ q = false ∧
     ∃ c cb, ctrl_ q = Some c ∧ blocks st !! c = Some cb ∧ ptr_ cb = Some v).
Proof.
  intros Hh. split.
  - intros Hw. destruct q as [[c|] w]; simpl in *; subst; munfold; mred; done.
  - intros v st' Hget. munfold. revert Hget.
    destruct q as [[c|] [|]]; mred; try (intros [?|?]; done).
    destruct (blocks st !! c) as [cb|] eqn:Hc; mred; try (intros [?|?]; done).
    intros Hv. split; [done|]. exists c, cb.
    split; [done|]. split; [done|]. destruct Hv; by simplify_eq.
Qed.

Lemma raw_pointer_only_through_strong_handle_witness :
  handles st_shared !! 2 = Some (mkPtr (Some 100) true) ∧
  (is_weak_ (mkPtr (Some 100) true) = true → get 2 st_shared = Ret None st_shared) ∧
  (∀ v st', get 2 st_shared = Ret (Some v) st' ∨
            operator_arrow 2 st_shared = Ret (Some v) st' →
     is_weak_ (mkPtr (Some 100) true) = false ∧
     ∃ c cb, ctrl_ (mkPtr (Some 100) true) = Some c ∧
             blocks st_shared !! c = Some cb ∧ ptr_ cb = Some v).
Proof.
  split; [reflexivity|].
  apply (raw_pointer_only_through_strong_handle st_shared 2 (mkPtr (Some 100) true)).
  reflexivity.
Defined.

(** C6.  When the allocation of the control block fails, the constructor
    from a non-null raw pointer deletes the value and leaves by the
    exception: the outcome is [Throw], in a state that differs from the
    initial one by the deletion only (no block, no handle); [New] and
    [reset(T* ptr)] on any handle [h], its temporary built at [this], let
    the exception through. *)
Theorem allocation_failure_deletes_value (st : State) (this p : nat) :
  handles st !! this = None →
  Ptr_from_raw None this (Some p) st = Throw (log_event (EvDeleteValue p) st) ∧
  New (Some p) None this st = Throw (log_event (EvDeleteValue p) st) ∧
  ∀ h, reset_raw None this h (Some p) st = Throw (log_event (EvDeleteValue p) st).
Proof.
  intros Hfresh.
  assert (H : Ptr_from_raw None this (Some p) st = Throw (log_event (EvDeleteValue p) st)).
  { munfold. mred. by rewrite delete_insert_id. }
  split; [done|]. split; [done|].
  intros h. unfold reset_raw, bind. by rewrite H.
Qed.

Lemma allocation_failure_deletes_value_witness :
  handles st_owner !! 5 = None ∧
  Ptr_from_raw None 5 (Some 8) st_owner = Throw (log_event (EvDeleteValue 8) st_owner) ∧
  New (Some 8) None 5 st_owner = Throw (log_event (EvDeleteValue 8) st_owner) ∧
  ∀ h, reset_raw None 5 h (Some 8) st_owner = Throw (log_event (EvDeleteValue 8) st_owner).
Proof.
  split; [reflexivity|].
  apply (allocation_failure_deletes_value st_owner 5 8). reflexivity.
Defined.

(** ** The weak handle that outlives the value *)

Lemma released_freed (c : nat) (w : bool) cb st :
  blocks (released c w cb st) !! c = None ↔
  if w then gc_weak_count_ cb = 1%Z ∧ gc_strong_count_ cb = 0%Z
  else gc_strong_count_ cb = 1%Z ∧ gc_weak_count_ cb = 0%Z.
Proof.
  unfold released. destruct w.
  - destruct (gc_weak_count_ cb =? 1)%Z eqn:E1;
      destruct (gc_strong_count_ cb =? 0)%Z eqn:E2; mred; split; try done; lia.
  - destruct (gc_strong_count_ cb =? 1)%Z eqn:E1;
      destruct (gc_weak_count_ cb =? 0)%Z eqn:E2; mred; split; try done; lia.
Qed.

Lemma released_freed_trace (c : nat) (w : bool) cb st :
  blocks (released c w cb st) !! c = None →
  ∃ tr, trace (released c w cb st) = tr ++ [EvDeleteBlock c].
Proof.
  unfold released. destruct w.
  - destruct ((gc_weak_count_ cb =? 1)%Z && (gc_strong_count_ cb =? 0)%Z); mred; [eauto|done].
  - destruct (gc_strong_count_ cb =? 1)%Z; [|mred; done].
    destruct (gc_weak_count_ cb =? 0)%Z; mred; [eauto|done].
Qed.

(** C5.  In an empty program: [Ptr<T> a(p)] (counts 1 and 0), then
    [b = a.safe(a)] (counts 1 and 1), then [a] dies: the value is deleted
    and the block stays, with counts 0 and 1; [b.lock()] gives an empty
    handle [r] and changes nothing else; then [b] dies and the block is
    freed.  In general, on an allocated block whose value is not yet
    destroyed, [release_strong] frees the block exactly when it takes the
    strong count from 1 to 0 and reads a weak count of 0, and
    [release_weak] exactly when it takes the weak count from 1 to 0 and
    reads a strong count of 0; the free is then the last event. *)
Theorem weak_handle_outlives_value
    (p c a b r n : nat) (st : State) (c' : nat) (cb : ControlBlock) :
  a ≠ b → r ≠ b →
  blocks st !! c' = Some cb → object_destroyed_ cb = false →
  (∃ st1 st2 st3 st4 st5,
     Ptr_from_raw (Some c) a (Some p) st_empty = Ret tt st1 ∧
     ref_count a st1 = Ret 1%Z st1 ∧ weak_count a st1 = Ret 0%Z st1 ∧
     safe b a a st1 = Ret tt st2 ∧
     ref_count a st2 = Ret 1%Z st2 ∧ weak_count a st2 = Ret 1%Z st2 ∧
     is_weak b st2 = Ret true st2 ∧
     Ptr_dtor a st2 = Ret tt st3 ∧
     trace st3 = [EvDeleteValue p] ∧
     blocks st3 !! c = Some (mkCB 0 1 None true) ∧
     expired b st3 = Ret true st3 ∧
     lock n r b st3 = Ret tt st4 ∧
     handles st4 !! r = Some (mkPtr None false) ∧
     blocks st4 = blocks st3 ∧ trace st4 = trace st3 ∧
     handles st4 !! b = Some (mkPtr (Some c) true) ∧
     operator_bool r st4 = Ret false st4 ∧
     Ptr_dtor b st4 = Ret tt st5 ∧
     blocks st5 !! c = None ∧
     trace st5 = [EvDeleteValue p; EvDeleteBlock c])
  ∧
  (∃ st', release_strong c' st = Ret tt st' ∧
     (blocks st' !! c' = None ↔ gc_strong_count_ cb = 1%Z ∧ gc_weak_count_ cb = 0%Z) ∧
     (blocks st' !! c' = None → ∃ tr, trace st' = tr ++ [EvDeleteBlock c']))
  ∧
  (∃ st', release_weak c' st = Ret tt st' ∧
     (blocks st' !! c' = None ↔ gc_weak_count_ cb = 1%Z ∧ gc_strong_count_ cb = 0%Z) ∧
     (blocks st' !! c' = None → ∃ tr, trace st' = tr ++ [EvDeleteBlock c'])).
Proof.
  intros Hab Hrb Hc Hd. split; [|split].
  - exists (fresh_handle p c a).
    exists (mkState {[c := mkCB 1 1 (Some p) false]}
              (<[b := mkPtr (Some c) true]> {[a := mkPtr (Some c) false]}) []).
    exists (mkState {[c := mkCB 0 1 None true]} {[b := mkPtr (Some c) true]}
              [EvDeleteValue p]).
    exists (mkState {[c := mkCB 0 1 None true]}
              (<[r := mkPtr None false]> {[b := mkPtr (Some c) true]})
              [EvDeleteValue p]).
    exists (mkState ∅ {[r := mkPtr None false]} [EvDeleteValue p; EvDeleteBlock c]).
    unfold st_empty, fresh_handle. rewrite <- !insert_empty.
    split; [munfold; mred; reflexivity|].
    split; [munfold; mred; reflexivity|].
    split; [munfold; mred; reflexivity|].
    split.
    { erewrite safe_strong_eq; mred; try reflexivity; done. }
    split; [munfold; mred; reflexivity|].
    split; [munfold; mred; reflexivity|].
    split; [munfold; mred; reflexivity|].
    split.
    { erewrite Ptr_dtor_eq; [|erewrite release_eq; mred; try reflexivity; done].
      unfold released. mred. rewrite delete_insert_ne by done.
      by rewrite delete_insert_eq, delete_empty. }
    split; [reflexivity|].
    split; [mred; reflexivity|].
    split; [munfold; mred; reflexivity|].
    split.
    { erewrite lock_weak_eq; mred; try reflexivity; done. }
    split; [mred; reflexivity|].
    split; [reflexivity|].
    split; [reflexivity|].
    split; [mred; reflexivity|].
    split; [munfold; mred; reflexivity|].
    split.
    { erewrite Ptr_dtor_eq; [|erewrite release_eq; mred; try reflexivity; done].
      unfold released. mred. rewrite delete_insert_eq, delete_empty.
      rewrite delete_insert_ne by done.
      by rewrite delete_insert_eq, delete_empty. }
    split; [mred; reflexivity|].
    reflexivity.
  - exists (released c' false cb st). split; [by apply release_strong_eq|].
    split; [apply (released_freed c' false)|apply released_freed_trace].
  - exists (released c' true cb st). split; [by apply release_weak_eq|].
    split; [apply (released_freed c' true)|apply released_freed_trace].
Qed.

Lemma weak_handle_outlives_value_witness :
  (1 ≠ 2 ∧ 3 ≠ 2 ∧
   blocks st_shared !! 100 = Some (mkCB 1 1 (Some 7) false) ∧
   object_destroyed_ (mkCB 1 1 (Some 7) false) = false) ∧
  (∃ st', release_strong 100 st_shared = Ret tt st' ∧
     (blocks st' !! 100 = None ↔
      gc_strong_count_ (mkCB 1 1 (Some 7) false) = 1%Z ∧
      gc_weak_count_ (mkCB 1 1 (Some 7) false) = 0%Z) ∧
     (blocks st' !! 100 = None → ∃ tr, trace st' = tr ++ [EvDeleteBlock 100])).
Proof.
  assert (H1 : 1 ≠ 2) by lia. assert (H2 : 3 ≠ 2) by lia.
  assert (H3 : blocks st_shared !! 100 = Some (mkCB 1 1 (Some 7) false)) by reflexivity.
  assert (H4 : object_destroyed_ (mkCB 1 1 (Some 7) false) = false) by reflexivity.
  split; [done|].
  apply (weak_handle_outlives_value 7 100 1 2 3 1 st_shared 100
           (mkCB 1 1 (Some 7) false) H1 H2 H3 H4).
Defined.

(** ** Equality of handles *)

Lemma get_eq st (h : nat) q :
  wf st → handles st !! h = Some q → get h st = Ret (resolved st q) st.
Proof.
  intros Hwf Hh. unfold resolved, referent.
  destruct q as [[c|] [|]]; try (munfold; mred; done).
  destruct (wf_live _ _ _ _ Hwf Hh) as (cb & Hc & _).
  munfold. mred. done.
Qed.

Lemma operator_eq_eq st (a b : nat) qa qb :
  wf st → handles st !! a = Some qa → handles st !! b = Some qb →
  operator_eq a b st = Ret (bool_decide (resolved st qa = resolved st qb)) st.
Proof.
  intros Hwf Ha Hb. unfold operator_eq, bind, ret.
  by rewrite (get_eq st a qa), (get_eq st b qb).
Qed.

Lemma wf_strong_value st (h c : nat) :
  wf st → handles st !! h = Some (mkPtr (Some c) false) →
  ∃ v, referent st (mkPtr (Some c) false) = Some v.
Proof.
  intros Hwf Hh. destruct (wf_live _ _ _ _ Hwf Hh) as (cb & Hc & Hl).
  destruct (Hl eq_refl) as [Hd _].
  pose proof (Hwf c) as Hb. unfold block_ok in Hb. rewrite Hc in Hb.
  destruct Hb as (_ & _ & _ & _ & Hp).
  unfold referent. simpl. rewrite Hc.
  destruct (ptr_ cb) as [v|]; [eauto|].
  destruct Hp as [_ Hp]. rewrite Hp in Hd; done.
Qed.

(** C4 as the code has it.  In a well-formed state [a == b] compares what
    [get()] yields for each handle: the address of the value for a strong
    handle, null for an empty handle and for every weak handle, alive or
    expired.  So an empty handle equals every empty and every weak
    handle, two weak handles are always equal, and a strong handle is
    never equal to a weak one, not even to one on its own value. *)
Theorem operator_eq_compares_get (st : State) (a b : nat) (qa qb : Ptr) :
  wf st → handles st !! a = Some qa → handles st !! b = Some qb →
  get a st = Ret (resolved st qa) st ∧
  get b st = Ret (resolved st qb) st ∧
  operator_eq a b st = Ret (bool_decide (resolved st qa = resolved st qb)) st ∧
  ((ctrl_ qa = None ∨ is_weak_ qa = true) →
   (ctrl_ qb = None ∨ is_weak_ qb = true) →
   operator_eq a b st = Ret true st) ∧
  (∀ c, qa = mkPtr (Some c) false → is_weak_ qb = true →
   operator_eq a b st = Ret false st).
Proof.
  intros Hwf Ha Hb.
  pose proof (operator_eq_eq st a b qa qb Hwf Ha Hb) as Heq.
  split; [by apply get_eq|]. split; [by apply get_eq|]. split; [done|]. split.
  - intros Hqa Hqb. rewrite Heq. f_equal. apply bool_decide_eq_true_2.
    unfold resolved, referent.
    destruct qa as [[ca|] [|]], qb as [[cb|] [|]]; simpl in *;
      try done; destruct Hqa, Hqb; done.
  - intros c -> Hw. rewrite Heq. f_equal. apply bool_decide_eq_false_2.
    destruct (wf_strong_value st a c Hwf Ha) as [v Hv].
    unfold resolved at 1. simpl. rewrite Hv.
    unfold resolved. rewrite Hw. done.
Qed.

Lemma roomy_st_owner : roomy st_owner.
Proof. unfold roomy. vm_compute. reflexivity. Qed.

Lemma Inv_st_owner : Inv 7 100 0 0 st_owner.
Proof.
  apply (Inv_constructed st_empty 7 100 1 wf_st_empty); try reflexivity.
  intros c' cb' H. unfold st_empty in H. simpl in H. by rewrite lookup_empty in H.
Qed.

Lemma wf_st_shared : wf st_shared.
Proof.
  destruct (safe_ok 7 100 0 0 st_owner 2 1 (mkPtr (Some 100) false))
    as (st' & Hs & (Hwf & _) & _).
  - apply Inv_st_owner.
  - apply roomy_st_owner.
  - reflexivity.
  - reflexivity.
  - vm_compute in Hs. injection Hs as <-. exact Hwf.
Qed.

Lemma roomy_st_shared : roomy st_shared.
Proof. unfold roomy. vm_compute. reflexivity. Qed.

Lemma operator_eq_compares_get_witness :
  (wf st_shared ∧
   handles st_shared !! 1 = Some (mkPtr (Some 100) false) ∧
   handles st_shared !! 2 = Some (mkPtr (Some 100) true)) ∧
  operator_eq 1 2 st_shared = Ret false st_shared.
Proof.
  split; [split; [apply wf_st_shared|split; reflexivity]|].
  destruct (operator_eq_compares_get st_shared 1 2
              (mkPtr (Some 100) false) (mkPtr (Some 100) true)
              wf_st_shared eq_refl eq_refl) as (_ & _ & _ & _ & H).
  apply (H 100 eq_refl eq_refl).
Defined.

(** C4 as the specification has it fails: the strong handle 1 and the weak
    handle 2 of [st_shared] refer to the same live value, at 7, and
    [1 == 2] is false. *)
Lemma strong_and_weak_handle_compare_unequal : ¬ eq_as_specified st_shared 1 2.
Proof.
  intros H.
  destruct (H (mkPtr (Some 100) false) (mkPtr (Some 100) true) eq_refl eq_refl)
    as (r & Hr & Hiff).
  vm_compute in Hr. injection Hr as <-.
  destruct Hiff as [_ Hiff]. specialize (Hiff eq_refl). discriminate.
Qed.

(** ** Promotion of a weak handle *)

Lemma operator_eq_strong_weak st (a b c : nat) qb :
  wf st → handles st !! a = Some (mkPtr (Some c) false) →
  handles st !! b = Some qb → is_weak_ qb = true →
  operator_eq a b st = Ret false st.
Proof.
  intros Hwf Ha Hb Hw. rewrite (operator_eq_eq st a b _ _ Hwf Ha Hb).
  f_equal. apply bool_decide_eq_false_2.
  destruct (wf_strong_value st a c Hwf Ha) as [v Hv].
  unfold resolved at 1. simpl. rewrite Hv. unfold resolved. by rewrite Hw.
Qed.

Lemma operator_eq_same st (a b : nat) q :
  wf st → handles st !! a = Some q → handles st !! b = Some q →
  operator_eq a b st = Ret true st.
Proof.
  intros Hwf Ha Hb. rewrite (operator_eq_eq st a b _ _ Hwf Ha Hb).
  f_equal. by apply bool_decide_eq_true_2.
Qed.

Lemma wf_count_bounds st (c : nat) cb :
  wf st → blocks st !! c = Some cb →
  (0 ≤ gc_strong_count_ cb ≤ Z.of_nat (size (handles st)))%Z ∧
  (0 ≤ gc_weak_count_ cb ≤ Z.of_nat (size (handles st)))%Z ∧
  gc_strong_count_ cb = Z.of_nat (strong_refs c (handles st)).
Proof.
  intros Hwf Hc. specialize (Hwf c). unfold block_ok in Hwf. rewrite Hc in Hwf.
  destruct Hwf as (Hs & Hw & _).
  pose proof (refs_le_size (mkPtr (Some c) false) (handles st)).
  pose proof (refs_le_size (mkPtr (Some c) true) (handles st)).
  unfold strong_refs, weak_refs in *. lia.
Qed.

Lemma incr_count_strong st (c : nat) cb :
  wf st → roomy st → blocks st !! c = Some cb →
  incr_count false cb = with_strong (gc_strong_count_ cb + 1) cb.
Proof.
  intros Hwf Hroom Hc. destruct (wf_count_bounds st c cb Hwf Hc) as (? & ? & _).
  unfold incr_count, roomy in *. by rewrite wrap_small by lia.
Qed.

Lemma incr_count_weak st (c : nat) cb :
  wf st → roomy st → blocks st !! c = Some cb →
  incr_count true cb = with_weak (gc_weak_count_ cb + 1) cb.
Proof.
  intros Hwf Hroom Hc. destruct (wf_count_bounds st c cb Hwf Hc) as (? & ? & _).
  unfold incr_count, roomy in *. by rewrite wrap_small by lia.
Qed.

(** C3 as the code has it.  In a well-formed state, [h.lock()] builds its
    result [r] as follows.  An empty [h] gives an empty [r].  A strong [h]
    gives a copy, the strong count of its block one higher.  A weak [h]
    whose block has strong count zero gives an empty [r] and changes
    nothing else.  A weak [h] whose block has a positive strong count
    gives a strong [r] on that block, the strong count one higher; [r]
    resolves to the value, [h] still resolves to null, so [r == h] is
    false, while [r] equals every strong handle on the block. *)
Theorem lock_promotes_or_copies (st : State) (n r h : nat) (q : Ptr) :
  wf st → roomy st →
  handles st !! h = Some q → handles st !! r = None →
  ∃ st', lock n r h st = Ret tt st' ∧ wf st' ∧
    match is_weak_ q, ctrl_ q with
    | _, None => st' = set_handles <[r := q]> st
    | false, Some c =>
        ∃ cb, blocks st !! c = Some cb ∧ (0 < gc_strong_count_ cb)%Z ∧
          st' = mkState (<[c := with_strong (gc_strong_count_ cb + 1) cb]> (blocks st))
                        (<[r := q]> (handles st)) (trace st)
    | true, Some c =>
        ∃ cb, blocks st !! c = Some cb ∧
          if (0 <? gc_strong_count_ cb)%Z then
            st' = mkState (<[c := with_strong (gc_strong_count_ cb + 1) cb]> (blocks st))
                          (<[r := mkPtr (Some c) false]> (handles st)) (trace st) ∧
            (∃ v, ptr_ cb = Some v ∧ get r st' = Ret (Some v) st') ∧
            get h st' = Ret None st' ∧
            operator_eq r h st' = Ret false st' ∧
            (∀ s : nat, handles st !! s = Some (mkPtr (Some c) false) →
               operator_eq r s st' = Ret true st')
          else st' = set_handles <[r := mkPtr None false]> st
    end.
Proof.
  intros Hwf Hroom Hh Hr. assert (r ≠ h) by congruence.
  destruct q as [[c|] [|]]; simpl.
  - (* weak *)
    destruct (wf_live _ _ _ _ Hwf Hh) as (cb & Hc & _).
    rewrite (lock_weak_eq n r h c cb) by done.
    destruct (wf_count_bounds st c cb Hwf Hc) as (_ & _ & Hsc).
    destruct (0 <? gc_strong_count_ cb)%Z eqn:E.
    + pose proof E as Eb. apply Z.ltb_lt in E.
      assert (Hwf' : wf (mkState (<[c := incr_count false cb]> (blocks st))
                 (<[r := mkPtr (Some c) false]> (handles st)) (trace st))).
      { apply wf_acquire; try done; [intros _; lia|by apply refs_moved_fresh]. }
      eexists. split; [done|]. split; [done|]. exists cb. split; [done|].
      rewrite Eb. rewrite <- (incr_count_strong st c cb) by done.
      split; [done|].
      assert (Hr' : handles (mkState (<[c := incr_count false cb]> (blocks st))
                 (<[r := mkPtr (Some c) false]> (handles st)) (trace st)) !! r
                 = Some (mkPtr (Some c) false)) by (mred; done).
      assert (Hh' : handles (mkState (<[c := incr_count false cb]> (blocks st))
                 (<[r := mkPtr (Some c) false]> (handles st)) (trace st)) !! h
                 = Some (mkPtr (Some c) true)) by (mred; done).
      split; [|split; [|split]].
      * destruct (wf_strong_value _ r c Hwf' Hr') as [v Hv].
        exists v. rewrite (get_eq _ r _ Hwf' Hr').
        change (resolved ?s (mkPtr (Some c) false))
          with (referent s (mkPtr (Some c) false)).
        rewrite Hv. split; [|done].
        unfold referent in Hv. revert Hv. mred. by destruct cb.
      * by rewrite (get_eq _ h _ Hwf' Hh').
      * by apply (operator_eq_strong_weak _ r h c (mkPtr (Some c) true)).
      * intros s Hs. assert (r ≠ s) by congruence.
        apply (operator_eq_same _ r s (mkPtr (Some c) false)); try done.
        mred. done.
    + eexists. split; [done|]. split; [|exists cb; by rewrite E].
      apply (wf_neutral st); [done|]. by apply refs_moved_fresh_null.
  - (* strong *)
    destruct (wf_live _ _ _ _ Hwf Hh) as (cb & Hc & Hl).
    destruct (Hl eq_refl) as [_ Hpos].
    rewrite (lock_copy_eq n r h (mkPtr (Some c) false)) by auto.
    rewrite (Ptr_copy_ref r h c false cb) by done.
    eexists. split; [done|]. split.
    + apply wf_acquire; try done. by apply refs_moved_fresh.
    + exists cb. split; [done|].
      destruct (wf_count_bounds st c cb Hwf Hc) as (_ & _ & Hsc).
      split; [lia|]. by rewrite (incr_count_strong st c cb).
  - rewrite (lock_copy_eq n r h (mkPtr None true)) by auto.
    rewrite (Ptr_copy_null r h true) by done.
    eexists. split; [done|]. split; [|done].
    apply (wf_neutral st); [done|]. by apply refs_moved_fresh_null.
  - rewrite (lock_copy_eq n r h (mkPtr None false)) by auto.
    rewrite (Ptr_copy_null r h false) by done.
    eexists. split; [done|]. split; [|done].
    apply (wf_neutral st); [done|]. by apply refs_moved_fresh_null.
Qed.

Lemma lock_promotes_or_copies_witness :
  (wf st_shared ∧ roomy st_shared ∧
   handles st_shared !! 2 = Some (mkPtr (Some 100) true) ∧
   handles st_shared !! 3 = None) ∧
  ∃ st', lock 1 3 2 st_shared = Ret tt st' ∧
         handles st' !! 3 = Some (mkPtr (Some 100) false) ∧
         blocks st' !! 100 = Some (mkCB 2 1 (Some 7) false) ∧
         operator_eq 3 2 st' = Ret false st'.
Proof.
  split; [split; [apply wf_st_shared|split; [apply roomy_st_shared|split; reflexivity]]|].
  destruct (lock_promotes_or_copies st_shared 1 3 2 (mkPtr (Some 100) true)
              wf_st_shared roomy_st_shared eq_refl eq_refl)
    as (st' & Hl & _ & cb & Hc & Hst).
  exists st'. split; [exact Hl|].
  injection Hc as <-. simpl in Hst. destruct Hst as (-> & _ & _ & Heq & _).
  split; [reflexivity|]. split; [reflexivity|]. exact Heq.
Defined.

(** C3 as the specification has it fails: in [st_shared] the weak handle 2
    is promoted to the strong handle 3 while handle 1 keeps the value
    alive, and [3 == 2] is false. *)
Lemma promoted_handle_differs_from_weak_original : ¬ lock_as_specified st_shared 0 3 2.
Proof.
  intros H.
  destruct (H (mkPtr (Some 100) true) eq_refl eq_refl) as (st' & Hl & Hm).
  simpl in Hm. specialize (Hm (mkCB 1 1 (Some 7) false) eq_refl). simpl in Hm.
  destruct Hm as (_ & _ & Heq).
  vm_compute in Hl. injection Hl as <-.
  vm_compute in Heq. discriminate.
Qed.

(** ** The cycle-breaking assignment [Ref] *)

Lemma Ref_self_eq (h : nat) st : Ref h h st = Ret tt st.
Proof. unfold Ref. by rewrite decide_True. Qed.

Lemma Ref_strong_eq (self other c : nat) qs cb1 st st1 :
  self ≠ other →
  release self st = Ret tt st1 → handles st1 = handles st →
  handles st !! self = Some qs →
  handles st !! other = Some (mkPtr (Some c) false) →
  blocks st1 !! c = Some cb1 →
  Ref self other st
  = Ret tt (mkState (<[c := incr_count true cb1]> (blocks st1))
                    (<[self := mkPtr (Some c) true]> (handles st)) (trace st1)).
Proof.
  intros Hne Hr Hh1 Hs Ho Hc. unfold Ref. rewrite decide_False by done.
  unfold bind at 1. rewrite Hr. destruct st1 as [bs1 hs1 tr1]. simpl in *. subst hs1.
  munfold. mred. done.
Qed.

Lemma Ref_empty_eq (self other : nat) w qo st :
  self ≠ other →
  handles st !! self = Some (mkPtr None w) →
  handles st !! other = Some qo →
  ctrl_ qo = None ∨ is_weak_ qo = true →
  Ref self other st = Ret tt st.
Proof.
  intros Hne Hs Ho Hq. unfold Ref. rewrite decide_False by done.
  unfold bind at 1. rewrite (release_null self w) by done.
  munfold. mred. destruct qo as [[c|] [|]]; mred; try done. by destruct Hq.
Qed.

Lemma refs_moved_set hs (h : nat) w q :
  hs !! h = Some (mkPtr None w) → refs_moved hs (<[h := q]> hs) (Some q) None.
Proof.
  intros Hh q' Hq'. pose proof (refs_insert q' hs h q) as H.
  rewrite Hh in H. rewrite hit_null in H by done. rewrite hit_none. lia.
Qed.

(** Releasing [self] while another, strong handle holds the block [c] *)
Lemma release_beside_strong st (self other c : nat) qs cb :
  wf st → roomy st → self ≠ other →
  handles st !! self = Some qs →
  handles st !! other = Some (mkPtr (Some c) false) →
  blocks st !! c = Some cb →
  ∃ st1 cb1, release self st = Ret tt st1 ∧ handles st1 = handles st ∧
    wf (set_handles <[self := mkPtr None false]> st1) ∧
    blocks st1 !! c = Some cb1 ∧
    gc_weak_count_ cb1
      = (gc_weak_count_ cb - if decide (qs = mkPtr (Some c) true) then 1 else 0)%Z ∧
    gc_strong_count_ cb1
      = (gc_strong_count_ cb - if decide (qs = mkPtr (Some c) false) then 1 else 0)%Z.
Proof.
  intros Hwf Hroom Hne Hs Ho Hc.
  pose proof (roomy_bound _ Hroom) as Hb.
  pose proof (Hwf c) as Hbc. unfold block_ok in Hbc. rewrite Hc in Hbc.
  destruct Hbc as (Hsc & Hwc & _).
  pose proof (refs_le_size (mkPtr (Some c) false) (handles st)).
  pose proof (refs_le_size (mkPtr (Some c) true) (handles st)).
  unfold strong_refs, weak_refs in *.
  destruct qs as [[cs|] ws].
  - destruct (wf_live _ _ _ _ Hwf Hs) as (cbs & Hcs & Hl).
    exists (released cs ws cbs st).
    assert (Hrel : release self st = Ret tt (released cs ws cbs st)).
    { apply release_eq; try done. intros ->. by apply Hl. }
    assert (Hwf1 : wf (set_handles <[self := mkPtr None false]> (released cs ws cbs st))).
    { pose proof (wf_release st cs ws cbs (<[self := mkPtr None false]> (handles st))
                    Hwf Hb Hcs (refs_moved_clear _ _ _ _ Hs)) as Hw.
      unfold set_handles in *. by rewrite handles_released. }
    destruct (decide (cs = c)) as [->|Hcc].
    + assert (cbs = cb) by congruence. subst cbs.
      destruct ws.
      * pose proof (refs_pos _ _ _ Hs). pose proof (refs_pos _ _ _ Ho).
        eexists. split; [done|]. split; [apply handles_released|]. split; [done|].
        unfold released.
        replace ((gc_weak_count_ cb =? 1)%Z && (gc_strong_count_ cb =? 0)%Z) with false
          by (symmetry; apply andb_false_iff; right; apply Z.eqb_neq; lia).
        mred. rewrite wrap_small by lia. split; [done|].
        rewrite decide_True by done. rewrite decide_False by done. simpl. lia.
      * pose proof (refs_two _ _ _ _ Hne Hs Ho).
        eexists. split; [done|]. split; [apply handles_released|]. split; [done|].
        unfold released.
        replace (gc_strong_count_ cb =? 1)%Z with false
          by (symmetry; apply Z.eqb_neq; lia).
        mred. rewrite wrap_small by lia. split; [done|].
        rewrite decide_False by done. rewrite decide_True by done. simpl. lia.
    + exists cb. split; [done|]. split; [apply handles_released|]. split; [done|].
      rewrite blocks_released_ne by done. split; [done|].
      rewrite !decide_False by congruence. lia.
  - exists st, cb. split; [by apply (release_null self ws)|]. split; [done|].
    split.
    { apply (wf_neutral st); [done|]. by apply (refs_moved_clear_null _ _ _ ws). }
    split; [done|]. rewrite !decide_False by done. lia.
Qed.




(** What [Ref] leaves out when [other] is null or weak and [self] is not
    empty: [release()] runs, the members of [self] are not cleared.  Here
    the sole owner 1 is given the empty handle 3: the value and the block
    are deleted, handle 1 still names the block, and its destructor then
    works on freed memory. *)
Example Ref_keeps_released_block :
  ∃ st', (Ptr_default 3 ;;; Ref 1 3) st_owner = Ret tt st' ∧
    handles st' !! 1 = Some (mkPtr (Some 100) false) ∧
    blocks st' !! 100 = None ∧
    trace st' = [EvDeleteValue 7; EvDeleteBlock 100] ∧
    Ptr_dtor 1 st' = Undef.
Proof. eexists. split; [vm_compute; reflexivity|]. vm_compute. done. Qed.


(** ** The allocation facade *)

(** C7 on the code.  [gc_local_malloc] and [gc_local_calloc] hand out the
    address [a] of the array they allocated, and when they return the
    array is no longer allocated: the local [cpp] holds the only owner of
    the lifetime object, it dies at the end of the call, the line naming
    [a] is printed and [delete[]] follows, both inside the call.  While
    [cpp] is alive the array is allocated with one owner. *)
Theorem facade_returns_released_block (a : nat) (size count : Z) (s : Facade.FState) :
  (let '(cpp, s1) := Facade.gc_local_malloc_body a size s in
   Facade.l_raw cpp = Some a ∧ Facade.holder cpp = Some a ∧
   Facade.arrays s1 !! a = Some (replicate (Z.to_nat size) Facade.Indeterminate) ∧
   Facade.use_count s1 !! a = Some 1 ∧ Facade.out s1 = Facade.out s) ∧
  (let '(b, s') := Facade.gc_local_malloc a size s in
   Facade.raw b = Some a ∧
   Facade.arrays s' !! a = None ∧ Facade.use_count s' !! a = None ∧
   Facade.out s' = Facade.out s ++ [Facade.Printed a; Facade.DeleteArray a]) ∧
  (let '(b, s') := Facade.gc_local_calloc a count size s in
   Facade.raw b = Some a ∧
   Facade.arrays s' !! a = None ∧ Facade.use_count s' !! a = None ∧
   Facade.out s' = Facade.out s ++ [Facade.Printed a; Facade.DeleteArray a]).
Proof.
  split; [|split].
  - simpl. by rewrite !lookup_insert_eq.
  - unfold Facade.gc_local_malloc, Facade.gc_local_malloc_body, Facade.LocalPtrCpp_dtor.
    simpl. rewrite lookup_insert_eq. simpl. by rewrite !lookup_delete_eq.
  - unfold Facade.gc_local_calloc, Facade.gc_local_calloc_body, Facade.LocalPtrCpp_dtor,
      Facade.memset0.
    simpl. rewrite !lookup_insert_eq. simpl. rewrite lookup_insert_eq. simpl.
    by rewrite !lookup_delete_eq.
Qed.

(** C8 on the code.  [gc_local_calloc(count, size)] allocates
    [count * size mod 2^64] bytes and zeroes every one of them, and
    [gc_new_array(T, count)] is that call with [size = sizeof(T)]; but the
    zeroed array is released before the call returns, so the address
    handed out names no block any more. *)
Theorem calloc_zeroes_then_releases (a : nat) (count size : Z) (s : Facade.FState) :
  (let '(cpp, s1) := Facade.gc_local_calloc_body a count size s in
   Facade.l_raw cpp = Some a ∧
   Facade.arrays s1 !! a
     = Some (replicate (Z.to_nat (wrap (count * size))) (Facade.Byte 0))) ∧
  (let '(b, s') := Facade.gc_local_calloc a count size s in
   Facade.raw b = Some a ∧ Facade.arrays s' !! a = None) ∧
  Facade.gc_new_array size count a s
  = (Facade.raw (Facade.gc_local_calloc a count size s).1,
     (Facade.gc_local_calloc a count size s).2).
Proof.
  split; [|split].
  - unfold Facade.gc_local_calloc_body, Facade.memset0. simpl.
    rewrite lookup_insert_eq. simpl. rewrite lookup_insert_eq.
    rewrite drop_replicate, Nat.sub_diag. simpl. by rewrite app_nil_r.
  - unfold Facade.gc_local_calloc, Facade.gc_local_calloc_body, Facade.LocalPtrCpp_dtor,
      Facade.memset0.
    simpl. rewrite !lookup_insert_eq. simpl. rewrite lookup_insert_eq. simpl.
    by rewrite !lookup_delete_eq.
  - unfold Facade.gc_new_array. by destruct (Facade.gc_local_calloc a count size s).
Qed.

(** * More of the handle: what every operation keeps *)

(** ** The counting invariant, operation by operation *)

Lemma refs_moved_refl hs : refs_moved hs hs None None.
Proof. by intros q _. Qed.

Lemma wf_trace st tr : wf st → wf (mkState (blocks st) (handles st) tr).
Proof. intros Hwf. apply (wf_neutral st); [done|apply refs_moved_refl]. Qed.


Lemma wf_constructed st (p c a : nat) :
  wf st → handles st !! a = None → blocks st !! c = None →
  wf (mkState (<[c := mkCB 1 0 (Some p) false]> (blocks st))
              (<[a := mkPtr (Some c) false]> (handles st)) (trace st)).
Proof.
  intros Hwf Ha Hc c'. pose proof (Hwf c') as Hb.
  unfold block_ok, strong_refs, weak_refs in *. simpl.
  rewrite !refs_insert_fresh by done.
  destruct (decide (c' = c)) as [->|Hne].
  - rewrite lookup_insert_eq. rewrite Hc in Hb. destruct Hb as [-> ->]. simpl.
    rewrite hit_same, hit_other by done. split_and!; try done; lia.
  - rewrite lookup_insert_ne by done.
    rewrite !hit_other by congruence. by rewrite !Nat.add_0_r.
Qed.

Lemma wf_default st (this : nat) :
  wf st → handles st !! this = None →
  Ptr_default this st = Ret tt (set_handles <[this := mkPtr None false]> st) ∧
  wf (set_handles <[this := mkPtr None false]> st).
Proof.
  intros Hwf Hh. split; [munfold; mred; done|].
  apply (wf_neutral st); [done|]. by apply refs_moved_fresh_null.
Qed.

Lemma wf_copy st (dst src : nat) q :
  wf st → roomy st →
  handles st !! dst = None → handles st !! src = Some q →
  ∃ st', Ptr_copy dst src st = Ret tt st' ∧ wf st' ∧
         handles st' = <[dst := q]> (handles st) ∧ trace st' = trace st ∧
         match ctrl_ q with
         | Some c => ∃ cb, blocks st !! c = Some cb ∧
                           blocks st' = <[c := incr_count (is_weak_ q) cb]> (blocks st)
         | None => blocks st' = blocks st
         end.
Proof.
  intros Hwf Hroom Hd Hs. destruct q as [[c|] w]; simpl.
  - destruct (wf_live _ _ _ _ Hwf Hs) as (cb & Hc & Hlive).
    eexists. split; [by apply Ptr_copy_ref|]. split; [|split; [done|split; [done|]]].
    + apply wf_acquire; try done.
      * intros ->. by apply Hlive.
      * by apply refs_moved_fresh.
    + by exists cb.
  - eexists. split; [by apply Ptr_copy_null|]. split; [|done].
    apply (wf_neutral st); [done|]. by apply refs_moved_fresh_null.
Qed.

Lemma wf_move st (dst src : nat) q :
  wf st → handles st !! dst = None → handles st !! src = Some q →
  wf (set_handles (λ hs, <[dst := q]> (<[src := mkPtr None false]> hs)) st).
Proof.
  intros Hwf Hd Hs. apply (wf_neutral st); [done|]. by apply refs_moved_move.
Qed.

Lemma wf_swap st (a b : nat) qa qb :
  wf st → handles st !! a = Some qa → handles st !! b = Some qb →
  wf (set_handles (λ hs, <[b := qa]> (<[a := qb]> hs)) st).
Proof.
  intros Hwf Ha Hb. apply (wf_neutral st); [done|]. by apply refs_moved_swap.
Qed.

(** [release()] returns in a well-formed state; [hs'] is any handle store
    in which the released reference is gone. *)
Lemma wf_release_any st (h : nat) q hs' :
  wf st →
  (Z.of_nat (size (handles st)) < 2 ^ size_bits)%Z →
  handles st !! h = Some q →
  refs_moved (handles st) hs' None (Some q) →
  ∃ st1, release h st = Ret tt st1 ∧ handles st1 = handles st ∧
         wf (set_handles (λ _, hs') st1).
Proof.
  intros Hwf Hroom Hh Hm. destruct q as [[c|] w].
  - destruct (wf_live _ _ _ _ Hwf Hh) as (cb & Hc & Hlive).
    exists (released c w cb st). split; [|split].
    + apply release_eq; try done. intros ->. by apply Hlive.
    + apply handles_released.
    + by apply wf_release.
  - exists st. split; [by apply (release_null h w)|]. split; [done|].
    apply (wf_neutral st); [done|]. by apply (refs_moved_rel_null _ _ _ w).
Qed.

Lemma wf_dtor st (h : nat) q :
  wf st → (Z.of_nat (size (handles st)) < 2 ^ size_bits)%Z →
  handles st !! h = Some q →
  ∃ st', Ptr_dtor h st = Ret tt st' ∧ wf st' ∧
         handles st' = delete h (handles st).
Proof.
  intros Hwf Hroom Hh.
  destruct (wf_release_any st h q (delete h (handles st)) Hwf Hroom Hh)
    as (st1 & Hr & Hh1 & Hwf1); [by apply refs_moved_delete|].
  exists (set_handles (delete h) st1). split; [by apply Ptr_dtor_eq|].
  unfold set_handles in *. simpl in *. rewrite Hh1. done.
Qed.

Lemma wf_reset st (h : nat) q :
  wf st → (Z.of_nat (size (handles st)) < 2 ^ size_bits)%Z →
  handles st !! h = Some q →
  ∃ st', reset h st = Ret tt st' ∧ wf st' ∧
         handles st' = <[h := mkPtr None false]> (handles st).
Proof.
  intros Hwf Hroom Hh.
  destruct (wf_release_any st h q (<[h := mkPtr None false]> (handles st)) Hwf Hroom Hh)
    as (st1 & Hr & Hh1 & Hwf1); [by apply refs_moved_clear|].
  exists (set_handles <[h := mkPtr None false]> st1). split.
  - apply (reset_eq h q); [done|]. by rewrite Hh1.
  - unfold set_handles in *. simpl in *. rewrite Hh1. done.
Qed.

Lemma wf_assign_move st (dst src : nat) qd qs :
  wf st → (Z.of_nat (size (handles st)) < 2 ^ size_bits)%Z →
  dst ≠ src →
  handles st !! dst = Some qd → handles st !! src = Some qs →
  ∃ st', assign_move dst src st = Ret tt st' ∧ wf st' ∧
         handles st' = <[dst := qs]> (<[src := mkPtr None false]> (handles st)).
Proof.
  intros Hwf Hroom Hne Hd Hs.
  destruct (wf_release_any st dst qd
              (<[dst := qs]> (<[src := mkPtr None false]> (handles st))) Hwf Hroom Hd)
    as (st1 & Hr & Hh1 & Hwf1); [by apply refs_moved_assign|].
  eexists. split.
  - apply (assign_move_eq dst src qd qs); try done; by rewrite Hh1.
  - unfold set_handles in *. simpl in *. rewrite Hh1. done.
Qed.

Lemma wf_assign_copy st (tmp dst src : nat) qd qs :
  wf st → roomy st →
  handles st !! tmp = None →
  handles st !! dst = Some qd → handles st !! src = Some qs →
  ∃ st', assign_copy tmp dst src st = Ret tt st' ∧ wf st' ∧
         handles st' = <[dst := qs]> (handles st).
Proof.
  intros Hwf Hroom Ht Hd Hs.
  destruct (decide (dst = src)) as [->|Hne].
  { exists st. unfold assign_copy. rewrite decide_True by done.
    split; [done|]. split; [done|]. symmetry. apply insert_id. congruence. }
  assert (tmp ≠ dst) by congruence. assert (tmp ≠ src) by congruence.
  destruct (wf_copy st tmp src qs Hwf Hroom Ht Hs) as (st1 & Hc1 & Hwf1 & Hh1 & _).
  assert (Hd1 : handles st1 !! dst = Some qd) by (rewrite Hh1; by rewrite lookup_insert_ne).
  assert (Ht1 : handles st1 !! tmp = Some qs) by (rewrite Hh1; by rewrite lookup_insert_eq).
  pose proof (swap_eq dst tmp qd qs st1 Hd1 Ht1) as Hc2.
  pose proof (wf_swap st1 dst tmp qd qs Hwf1 Hd1 Ht1) as Hwf2.
  destruct (wf_dtor _ tmp qd Hwf2) as (st3 & Hc3 & Hwf3 & Hh3).
  { simpl. rewrite Hh1. unfold roomy in Hroom.
    rewrite !size_insert_live by (mred; eauto).
    pose proof (size_insert_le (handles st) tmp qs). lia. }
  { simpl. by rewrite lookup_insert_eq. }
  exists st3. split; [|split; [done|]].
  - unfold assign_copy. rewrite decide_False by done.
    unfold bind. rewrite Hc1, Hc2. done.
  - rewrite Hh3. simpl. rewrite Hh1. rewrite delete_insert_eq.
    rewrite delete_insert_ne by done. rewrite delete_insert_eq.
    by rewrite delete_id.
Qed.

Lemma wf_safe st (dst this src : nat) q :
  wf st → roomy st →
  handles st !! dst = None → handles st !! src = Some q →
  ∃ st', safe dst this src st = Ret tt st' ∧ wf st' ∧ trace st' = trace st ∧
    match ctrl_ q, is_weak_ q with
    | Some c, false =>
        ∃ cb, blocks st !! c = Some cb ∧
          st' = mkState (<[c := with_weak (gc_weak_count_ cb + 1) cb]> (blocks st))
                        (<[dst := mkPtr (Some c) true]> (handles st)) (trace st)
    | _, _ => st' = set_handles <[dst := mkPtr None false]> st
    end.
Proof.
  intros Hwf Hroom Hd Hs.
  destruct q as [[c|] [|]]; simpl.
  - eexists. split; [apply (safe_other_eq dst this src _ st Hd Hs); auto|].
    split; [|done]. apply (wf_neutral st); [done|]. by apply refs_moved_fresh_null.
  - destruct (wf_live _ _ _ _ Hwf Hs) as (cb & Hc & Hlive).
    eexists. split; [by apply (safe_strong_eq dst this src c cb)|]. split; [|split; [done|]].
    + apply wf_acquire; try done. by apply refs_moved_fresh.
    + exists cb. split; [done|]. by rewrite (incr_count_weak st c cb).
  - eexists. split; [apply (safe_other_eq dst this src _ st Hd Hs); auto|].
    split; [|done]. apply (wf_neutral st); [done|]. by apply refs_moved_fresh_null.
  - eexists. split; [apply (safe_other_eq dst this src _ st Hd Hs); auto|].
    split; [|done]. apply (wf_neutral st); [done|]. by apply refs_moved_fresh_null.
Qed.

Lemma wf_lock st (n dst src : nat) q :
  wf st → roomy st →
  handles st !! dst = None → handles st !! src = Some q →
  ∃ st', lock n dst src st = Ret tt st' ∧ wf st' ∧ trace st' = trace st ∧
         ∃ q', handles st' = <[dst := q']> (handles st).
Proof.
  intros Hwf Hroom Hd Hs.
  destruct (decide (ctrl_ q = None ∨ is_weak_ q = false)) as [Hq|Hq].
  - destruct (wf_copy st dst src q Hwf Hroom Hd Hs) as (st' & Hc & Hwf' & Hh' & Ht & _).
    exists st'. rewrite (lock_copy_eq n dst src q) by done. eauto 10.
  - destruct q as [[c|] [|]]; try (exfalso; apply Hq; auto; fail).
    destruct (wf_live _ _ _ _ Hwf Hs) as (cb & Hc & _).
    rewrite (lock_weak_eq n dst src c cb) by done.
    destruct (0 <? gc_strong_count_ cb)%Z eqn:E.
    + eexists. split; [done|]. split; [|split; [done|by eexists]].
      apply wf_acquire; try done.
      * intros _. destruct (wf_count_bounds st c cb Hwf Hc) as (_ & _ & Hsc). lia.
      * by apply refs_moved_fresh.
    + eexists. split; [done|]. split; [|split; [done|by eexists]].
      apply (wf_neutral st); [done|]. by apply refs_moved_fresh_null.
Qed.

Lemma release_blocks_frame st st1 (h c' : nat) q :
  wf st → handles st !! h = Some q → ctrl_ q ≠ Some c' →
  release h st = Ret tt st1 →
  blocks st1 !! c' = blocks st !! c'.
Proof.
  intros Hwf Hh Hne Hr. destruct q as [[c|] w].
  - destruct (wf_live _ _ _ _ Hwf Hh) as (cb & Hc & Hlive).
    rewrite (release_eq h c w cb st Hh Hc) in Hr by (intros ->; by apply Hlive).
    injection Hr as <-. apply blocks_released_ne. simpl in Hne. congruence.
  - rewrite (release_null h w st Hh) in Hr. by injection Hr as <-.
Qed.

Lemma wf_from_raw st (alloc : option nat) (this : nat) (ptr : option nat) :
  wf st → handles st !! this = None → alloc_free alloc st →
  (∃ st', Ptr_from_raw alloc this ptr st = Ret tt st' ∧ wf st' ∧
     match ptr, alloc with
     | Some p, Some c =>
         st' = mkState (<[c := mkCB 1 0 (Some p) false]> (blocks st))
                       (<[this := mkPtr (Some c) false]> (handles st)) (trace st)
     | Some _, None => False
     | None, _ => st' = set_handles <[this := mkPtr None false]> st
     end) ∨
  (∃ p, ptr = Some p ∧ alloc = None ∧
     Ptr_from_raw alloc this ptr st = Throw (log_event (EvDeleteValue p) st)).
Proof.
  intros Hwf Hh Ha. destruct ptr as [p|].
  - destruct alloc as [c|]; simpl in Ha.
    + left. eexists. split; [by apply Ptr_from_raw_eq|]. split; [|done].
      by apply wf_constructed.
    + right. exists p. split; [done|]. split; [done|].
      munfold. mred. by rewrite delete_insert_id.
  - left. eexists. split; [munfold; mred; done|]. split.
    + apply (wf_neutral st); [done|]. by apply refs_moved_fresh_null.
    + by destruct alloc.
Qed.

Lemma from_raw_handles st st' (alloc : option nat) (this : nat) (ptr : option nat) :
  handles st !! this = None → alloc_free alloc st →
  Ptr_from_raw alloc this ptr st = Ret tt st' →
  handles st' = <[this := match ptr, alloc with
                          | Some _, Some c => mkPtr (Some c) false
                          | _, _ => mkPtr None false
                          end]> (handles st).
Proof.
  intros Hh Ha Hr. destruct ptr as [p|]; [destruct alloc as [c|]|]; simpl in Ha.
  - rewrite Ptr_from_raw_eq in Hr by done. by injection Hr as <-.
  - revert Hr. munfold. mred. done.
  - revert Hr. munfold. mred. intros Hr. injection Hr as <-. by destruct alloc.
Qed.

Lemma wf_reset_raw st (alloc : option nat) (tmp h : nat) (ptr : option nat) q :
  wf st → roomy st →
  handles st !! tmp = None → handles st !! h = Some q → alloc_free alloc st →
  (∃ st', reset_raw alloc tmp h ptr st = Ret tt st' ∧ wf st' ∧
     handles st' = <[h := match ptr, alloc with
                          | Some _, Some c => mkPtr (Some c) false
                          | _, _ => mkPtr None false
                          end]> (handles st)) ∨
  (∃ p, ptr = Some p ∧ alloc = None ∧
     reset_raw alloc tmp h ptr st = Throw (log_event (EvDeleteValue p) st)).
Proof.
  intros Hwf Hroom Ht Hh Ha. assert (tmp ≠ h) by congruence.
  destruct (wf_from_raw st alloc tmp ptr Hwf Ht Ha)
    as [(st1 & Hc1 & Hwf1 & _)|(p & -> & -> & Hthrow)].
  - left. pose proof (from_raw_handles st st1 alloc tmp ptr Ht Ha Hc1) as Hh1.
    set (qn := match ptr, alloc with
               | Some _, Some c => mkPtr (Some c) false
               | _, _ => mkPtr None false
               end) in *.
    assert (Hd1 : handles st1 !! h = Some q) by (rewrite Hh1; by rewrite lookup_insert_ne).
    assert (Ht1 : handles st1 !! tmp = Some qn) by (rewrite Hh1; by rewrite lookup_insert_eq).
    pose proof (swap_eq h tmp q qn st1 Hd1 Ht1) as Hc2.
    pose proof (wf_swap st1 h tmp q qn Hwf1 Hd1 Ht1) as Hwf2.
    destruct (wf_dtor _ tmp q Hwf2) as (st3 & Hc3 & Hwf3 & Hh3).
    { simpl. rewrite Hh1. unfold roomy in Hroom.
      rewrite !size_insert_live by (mred; eauto).
      pose proof (size_insert_le (handles st) tmp qn). lia. }
    { simpl. by rewrite lookup_insert_eq. }
    exists st3. split; [|split; [done|]].
    + unfold reset_raw, bind. rewrite Hc1, Hc2. done.
    + rewrite Hh3. simpl. rewrite Hh1. rewrite delete_insert_eq.
      rewrite delete_insert_ne by done. rewrite delete_insert_eq.
      by rewrite delete_id.
  - right. exists p. split; [done|]. split; [done|].
    unfold reset_raw, bind. by rewrite Hthrow.
Qed.

(** [Ref] where it is sound *)
Lemma wf_Ref st (self other : nat) qs qo :
  wf st → roomy st →
  handles st !! self = Some qs → handles st !! other = Some qo →
  self = other ∨ ctrl_ qs = None ∨ (is_Some (ctrl_ qo) ∧ is_weak_ qo = false) →
  ∃ st', Ref self other st = Ret tt st' ∧ wf st' ∧
    handles st' = if decide (self = other) then handles st
                  else match ctrl_ qo, is_weak_ qo with
                       | Some c, false => <[self := mkPtr (Some c) true]> (handles st)
                       | _, _ => handles st
                       end.
Proof.
  intros Hwf Hroom Hs Ho Hok.
  destruct (decide (self = other)) as [->|Hne].
  { exists st. by rewrite Ref_self_eq. }
  destruct qo as [[c|] [|]]; simpl.
  - destruct Hok as [?|[Hn|[_ ?]]]; try done.
    destruct qs as [[cs|] ws]; [done|].
    exists st. split; [|done]. eapply (Ref_empty_eq self other ws); eauto.
  - destruct (wf_live _ _ _ _ Hwf Ho) as (cb & Hc & _).
    destruct (release_beside_strong st self other c qs cb Hwf Hroom Hne Hs Ho Hc)
      as (st1 & cb1 & Hrel & Hh1 & Hwf1 & Hc1 & _).
    assert (Hroom1 : roomy (set_handles <[self := mkPtr None false]> st1)).
    { unfold roomy in *. simpl. rewrite Hh1.
      rewrite size_insert_live by eauto. done. }
    eexists. split; [by apply (Ref_strong_eq self other c qs cb1 st st1)|].
    split; [|done].
    pose proof (wf_acquire (set_handles <[self := mkPtr None false]> st1) c true cb1
                  (<[self := mkPtr (Some c) true]> (handles st)) (trace st1)
                  Hwf1 Hc1 ltac:(done) Hroom1) as Hw.
    apply Hw. simpl. rewrite Hh1.
    rewrite <- (insert_insert_eq (handles st) self (mkPtr (Some c) true)
                  (mkPtr None false)).
    apply (refs_moved_set _ _ false). by rewrite lookup_insert_eq.
  - destruct Hok as [?|[Hn|[[? ?] ?]]]; try done.
    destruct qs as [[cs|] ws]; [done|].
    exists st. split; [|done]. eapply (Ref_empty_eq self other ws); eauto.
  - destruct Hok as [?|[Hn|[[? ?] ?]]]; try done.
    destruct qs as [[cs|] ws]; [done|].
    exists st. split; [|done]. eapply (Ref_empty_eq self other ws); eauto.
Qed.

Lemma wf_exec st o :
  wf st → roomy st → is_Some (scoped_op (dom (handles st)) o) →
  ∃ st', exec o st = Ret tt st' ∧ wf st'.
Proof.
  intros Hwf Hroom [D' Hsc]. pose proof (roomy_bound _ Hroom) as Hb.
  destruct o; simpl in *; case_decide as Hd; simplify_eq.
  - destruct Hd as [[qs Hs]%elem_of_dom Hd%not_elem_of_dom].
    destruct (wf_copy st dst src qs) as (st' & ? & ? & _); eauto.
  - destruct Hd as [[qs Hs]%elem_of_dom Hd%not_elem_of_dom].
    eexists. split; [by apply Ptr_move_eq|]. by apply wf_move.
  - destruct Hd as ([qs Hs]%elem_of_dom & [qd Hd]%elem_of_dom & Ht%not_elem_of_dom).
    destruct (wf_assign_copy st tmp dst src qd qs) as (st' & ? & ? & _); eauto.
  - destruct Hd as ([qd Hd]%elem_of_dom & [qs Hs]%elem_of_dom).
    destruct (decide (dst = src)) as [->|Hne].
    + exists st. unfold assign_move. by rewrite decide_True.
    + destruct (wf_assign_move st dst src qd qs) as (st' & ? & ? & _); eauto.
  - destruct Hd as ([qa Ha]%elem_of_dom & [qb Hq]%elem_of_dom).
    eexists. split; [by apply swap_eq|]. by apply wf_swap.
  - apply elem_of_dom in Hd as [q Hq].
    destruct (wf_reset st h q) as (st' & ? & ? & _); eauto.
  - apply elem_of_dom in Hd as [q Hq].
    destruct (wf_dtor st h q) as (st' & ? & ? & _); eauto.
  - destruct Hd as [[qs Hs]%elem_of_dom Hd%not_elem_of_dom].
    destruct (wf_safe st dst src src qs) as (st' & ? & ? & _); eauto.
  - destruct Hd as [[qs Hs]%elem_of_dom Hd%not_elem_of_dom].
    destruct (wf_lock st spurious dst src qs) as (st' & ? & ? & _); eauto.
Qed.

(** ** Programs never leave the well-formed states *)

Lemma wf_perform st a :
  wf st → roomy st → enabled a st →
  (∃ st', perform a st = Ret tt st' ∧ wf st') ∨
  (∃ p, perform a st = Throw (log_event (EvDeleteValue p) st) ∧
        wf (log_event (EvDeleteValue p) st)).
Proof.
  intros Hwf Hroom Hen. destruct a as [o|this|alloc this ptr|alloc tmp h ptr|self other];
    simpl in *.
  - left. by apply wf_exec.
  - left. destruct (wf_default st this Hwf Hen) as [? ?]. eauto.
  - destruct Hen as [Hh Ha].
    destruct (wf_from_raw st alloc this ptr Hwf Hh Ha)
      as [(st' & ? & ? & _)|(p & -> & -> & Hthrow)]; [left; eauto|].
    right. exists p. split; [done|]. by apply wf_trace.
  - destruct Hen as (Ht & [q Hq] & Ha).
    destruct (wf_reset_raw st alloc tmp h ptr q Hwf Hroom Ht Hq Ha)
      as [(st' & ? & ? & _)|(p & -> & -> & Hthrow)]; [left; eauto|].
    right. exists p. split; [done|]. by apply wf_trace.
  - left. destruct Hen as (qs & qo & Hs & Ho & Hok).
    destruct (wf_Ref st self other qs qo Hwf Hroom Hs Ho Hok) as (st' & ? & ? & _).
    eauto.
Qed.

Lemma reachable_wf st : reachable st → wf st.
Proof.
  induction 1 as [|st st' a _ IH Hroom Hen Hp|st st' a _ IH Hroom Hen Hp].
  - apply wf_st_empty.
  - destruct (wf_perform st a IH Hroom Hen) as [(s & Hs & Hw)|(s & Hs & _)];
      rewrite Hp in Hs; by simplify_eq.
  - destruct (wf_perform st a IH Hroom Hen) as [(s & Hs & _)|(s & Hs & Hw)];
      rewrite Hp in Hs; by simplify_eq.
Qed.

Lemma reachable_st_owner : reachable st_owner.
Proof.
  apply (reach_ret st_empty st_owner (AFromRaw (Some 100) 1 (Some 7)) reach_init).
  - unfold roomy. vm_compute. reflexivity.
  - split; reflexivity.
  - apply st_owner_reached.
Qed.

Lemma reachable_st_shared : reachable st_shared.
Proof.
  apply (reach_ret st_owner st_shared (Client (OpSafe 2 1)) reachable_st_owner).
  - apply roomy_st_owner.
  - simpl. vm_compute. eauto.
  - vm_compute. reflexivity.
Qed.

(** ** What the observers read in a reachable state *)


(** X2.  In every reachable state, [ref_count()] and [weak_count()], read
    through any handle on a block, strong or weak, are the numbers of live
    strong and weak handles on that block, and [unique()] says whether
    exactly one strong handle is on it; through an empty handle they read
    0, 0 and false.  None of them changes the state. *)
Theorem counts_read_the_live_handles (st : State) (h : nat) (q : Ptr) :
  reachable st → handles st !! h = Some q →
  match ctrl_ q with
  | Some c =>
      ref_count h st = Ret (Z.of_nat (strong_refs c (handles st))) st ∧
      weak_count h st = Ret (Z.of_nat (weak_refs c (handles st))) st ∧
      unique h st = Ret (bool_decide (strong_refs c (handles st) = 1)) st
  | None =>
      ref_count h st = Ret 0%Z st ∧ weak_count h st = Ret 0%Z st ∧
      unique h st = Ret false st
  end.
Proof.
  intros Hre Hh. pose proof (reachable_wf st Hre) as Hwf.
  destruct q as [[c|] w]; simpl.
  - destruct (wf_live _ _ _ _ Hwf Hh) as (cb & Hc & _).
    pose proof (Hwf c) as Hb. unfold block_ok in Hb. rewrite Hc in Hb.
    destruct Hb as (Hs & Hw & _).
    split; [|split].
    + munfold. mred. by rewrite Hs.
    + munfold. mred. by rewrite Hw.
    + munfold. mred. rewrite Hs. do 2 f_equal.
      destruct (decide (strong_refs c (handles st) = 1)) as [E|E].
      * rewrite bool_decide_eq_true_2 by done. apply Z.eqb_eq. lia.
      * rewrite bool_decide_eq_false_2 by done. apply Z.eqb_neq. lia.
  - split; [|split]; munfold; mred; done.
Qed.

Lemma counts_read_the_live_handles_witness :
  (reachable st_shared ∧ handles st_shared !! 2 = Some (mkPtr (Some 100) true)) ∧
  ref_count 2 st_shared = Ret 1%Z st_shared ∧
  weak_count 2 st_shared = Ret 1%Z st_shared ∧
  unique 2 st_shared = Ret true st_shared.
Proof.
  split; [split; [apply reachable_st_shared|reflexivity]|].
  exact (counts_read_the_live_handles st_shared 2 (mkPtr (Some 100) true)
           reachable_st_shared eq_refl).
Defined.





(** ** Comparison *)

Lemma reach_client st st' o :
  reachable st → roomy st → is_Some (scoped_op (dom (handles st)) o) →
  exec o st = Ret tt st' → reachable st'.
Proof. intros Hre Hro Hsc He. by apply (reach_ret st st' (Client o)). Qed.

Lemma wf_counts st (h c : nat) w :
  wf st → handles st !! h = Some (mkPtr (Some c) w) →
  ref_count h st = Ret (Z.of_nat (strong_refs c (handles st))) st ∧
  weak_count h st = Ret (Z.of_nat (weak_refs c (handles st))) st.
Proof.
  intros Hwf Hh. destruct (wf_live _ _ _ _ Hwf Hh) as (cb & Hc & _).
  pose proof (Hwf c) as Hb. unfold block_ok in Hb. rewrite Hc in Hb.
  destruct Hb as (Hs & Hw & _).
  split; munfold; mred; congruence.
Qed.




(** ** Construction from another handle *)



(** X7.  Move construction from a live handle never touches a control
    block or the log: the new handle takes over the source's fields, the
    source is left empty and strong, and what the new handle resolves to
    is what the source resolved to before. *)
Theorem move_transfers_the_reference (st : State) (dst src : nat) (q : Ptr) :
  reachable st → roomy st →
  handles st !! dst = None → handles st !! src = Some q →
  ∃ st', Ptr_move dst src st = Ret tt st' ∧ reachable st' ∧
    blocks st' = blocks st ∧ trace st' = trace st ∧
    handles st' = <[dst := q]> (<[src := mkPtr None false]> (handles st)) ∧
    (∃ r, get src st = Ret r st ∧ get dst st' = Ret r st') ∧
    get src st' = Ret None st' ∧ operator_bool src st' = Ret false st' ∧
    is_weak src st' = Ret false st' ∧ ref_count src st' = Ret 0%Z st'.
Proof.
  intros Hre Hro Hd Hs. pose proof (reachable_wf st Hre) as Hwf.
  assert (Hne : dst ≠ src) by congruence.
  pose proof (Ptr_move_eq dst src q st Hd Hs) as He.
  pose proof (wf_move st dst src q Hwf Hd Hs) as Hwf'.
  eexists. split; [exact He|]. split.
  { apply (reach_client st _ (OpMove dst src)); try done. simpl.
    rewrite decide_True; [eauto|]. split; [apply elem_of_dom; eauto|by apply not_elem_of_dom]. }
  split; [done|]. split; [done|]. split; [done|]. split.
  { exists (resolved st q). split; [by apply get_eq|].
    erewrite get_eq; [|done|simpl; apply lookup_insert_eq].
    unfold resolved, referent. done. }
  split; [|split; [|split]]; munfold; mred; done.
Qed.

Lemma move_transfers_the_reference_witness :
  (reachable st_owner ∧ roomy st_owner ∧ handles st_owner !! 2 = None ∧
   handles st_owner !! 1 = Some (mkPtr (Some 100) false)) ∧
  ∃ st', Ptr_move 2 1 st_owner = Ret tt st' ∧ blocks st' = blocks st_owner ∧
         get 1 st' = Ret None st'.
Proof.
  assert (Hro : roomy st_owner) by (unfold roomy; vm_compute; reflexivity).
  split; [split; [apply reachable_st_owner|split; [exact Hro|split; reflexivity]]|].
  destruct (move_transfers_the_reference st_owner 2 1 (mkPtr (Some 100) false)
              reachable_st_owner Hro eq_refl eq_refl)
    as (st' & H1 & _ & H2 & _ & _ & _ & H3 & _).
  exists st'. split; [exact H1|split; [exact H2|exact H3]].
Defined.

(** ** Assignment and swap *)





(** X10.  [a.swap(b)] on two live handles exchanges their fields and
    touches nothing else: no control block, no other handle, no log entry.
    It is symmetric in its two objects and is its own inverse, and swapping
    a handle with itself changes nothing.  This holds in any state, also
    one in which the counters are off. *)
Theorem swap_exchanges_and_undoes (st : State) (a b : nat) (qa qb : Ptr) :
  handles st !! a = Some qa → handles st !! b = Some qb →
  ∃ st1, swap a b st = Ret tt st1 ∧
    blocks st1 = blocks st ∧ trace st1 = trace st ∧
    handles st1 !! a = Some qb ∧ handles st1 !! b = Some qa ∧
    (∀ h : nat, h ≠ a → h ≠ b → handles st1 !! h = handles st !! h) ∧
    swap b a st = Ret tt st1 ∧
    swap a b st1 = Ret tt st ∧
    (a = b → st1 = st).
Proof.
  intros Ha Hb.
  assert (Hab : a = b → qa = qb) by (intros ->; congruence).
  set (st1 := set_handles (λ hs, <[b := qa]> (<[a := qb]> hs)) st).
  assert (H1a : handles st1 !! a = Some qb).
  { simpl. destruct (decide (a = b)) as [E|Hne].
    - rewrite (Hab E). subst b. apply lookup_insert_eq.
    - rewrite lookup_insert_ne by done. apply lookup_insert_eq. }
  assert (H1b : handles st1 !! b = Some qa) by apply lookup_insert_eq.
  exists st1. split; [by apply swap_eq|]. split; [done|]. split; [done|].
  split; [done|]. split; [done|]. split.
  { intros h Hha Hhb. simpl. by rewrite !lookup_insert_ne. }
  assert (Hback : set_handles (λ hs, <[b := qb]> (<[a := qa]> hs)) st1 = st).
  { destruct st as [bs hs tr]. unfold st1, set_handles. simpl in *. f_equal.
    apply map_eq. intros h.
    destruct (decide (h = b)) as [->|Hhb]; [by rewrite lookup_insert_eq|].
    rewrite lookup_insert_ne by done.
    destruct (decide (h = a)) as [->|Hha]; [by rewrite lookup_insert_eq|].
    by rewrite !lookup_insert_ne. }
  split; [|split].
  - rewrite (swap_eq b a qb qa st Hb Ha). f_equal.
    destruct st as [bs hs tr]. unfold st1, set_handles. simpl in *. f_equal.
    destruct (decide (a = b)) as [E|Hne].
    + rewrite (Hab E). by subst b.
    + by apply insert_insert_ne.
  - rewrite (swap_eq a b qb qa st1 H1a H1b). by rewrite Hback.
  - intros E. subst b. destruct st as [bs hs tr].
    unfold st1, set_handles. simpl in *. f_equal.
    rewrite insert_insert_eq. by apply insert_id.
Qed.

Lemma swap_exchanges_and_undoes_witness :
  (handles st_shared !! 1 = Some (mkPtr (Some 100) false) ∧
   handles st_shared !! 2 = Some (mkPtr (Some 100) true)) ∧
  ∃ st1, swap 1 2 st_shared = Ret tt st1 ∧ swap 1 2 st1 = Ret tt st_shared.
Proof.
  split; [split; reflexivity|].
  destruct (swap_exchanges_and_undoes st_shared 1 2 (mkPtr (Some 100) false)
              (mkPtr (Some 100) true) eq_refl eq_refl)
    as (st1 & H1 & _ & _ & _ & _ & _ & _ & H2 & _).
  exists st1. split; [exact H1|exact H2].
Defined.

(** ** Reset and construction from a raw pointer *)




Lemma from_raw_null_eq (alloc : option nat) (this : nat) st :
  handles st !! this = None →
  Ptr_from_raw alloc this None st = Ret tt (set_handles <[this := mkPtr None false]> st).
Proof. intros Hh. munfold. mred. done. Qed.

Lemma from_raw_fail_eq (this p : nat) st :
  handles st !! this = None →
  Ptr_from_raw None this (Some p) st = Throw (log_event (EvDeleteValue p) st).
Proof.
  intros Hh. munfold. mred. destruct st as [bs hs tr]. unfold log_event. simpl in *.
  f_equal. f_equal. by apply delete_insert_id.
Qed.

Lemma wf_fresh_block_refs st (c : nat) :
  wf st → blocks st !! c = None →
  strong_refs c (handles st) = 0 ∧ weak_refs c (handles st) = 0.
Proof. intros Hwf Hc. pose proof (Hwf c) as Hb. unfold block_ok in Hb. by rewrite Hc in Hb. Qed.



(** X13.  [GC::New<T>(args...)], which is [Ptr<T>(new T(args...))]: when
    both allocations succeed the new handle is the sole strong owner of the
    value (it reads the value's address, 1 strong, 0 weak, unique, not
    weak, true, not expired) and nothing is logged; when [new T] fails
    nothing happens before the exception; when only the control block's
    allocation fails the value is deleted and no handle is made. *)
Theorem New_makes_the_sole_owner (st : State) (this c p : nat) :
  reachable st → roomy st → handles st !! this = None → blocks st !! c = None →
  (∃ st', New (Some p) (Some c) this st = Ret tt st' ∧ reachable st' ∧
     trace st' = trace st ∧
     handles st' = <[this := mkPtr (Some c) false]> (handles st) ∧
     get this st' = Ret (Some p) st' ∧ operator_arrow this st' = Ret (Some p) st' ∧
     ref_count this st' = Ret 1%Z st' ∧ weak_count this st' = Ret 0%Z st' ∧
     unique this st' = Ret true st' ∧ is_weak this st' = Ret false st' ∧
     operator_bool this st' = Ret true st' ∧ expired this st' = Ret false st') ∧
  New None (Some c) this st = Throw st ∧
  New (Some p) None this st = Throw (log_event (EvDeleteValue p) st).
Proof.
  intros Hre Hro Ht Hc. split; [|split].
  - pose proof (Ptr_from_raw_eq st this c p Ht Hc) as Hfr.
    eexists. split; [exact Hfr|]. split.
    { apply (reach_ret st _ (AFromRaw (Some c) this (Some p))); try done. }
    split; [done|]. split; [done|].
    split_and!; munfold; mred; done.
  - done.
  - by apply from_raw_fail_eq.
Qed.

Lemma New_makes_the_sole_owner_witness :
  (reachable st_shared ∧ roomy st_shared ∧ handles st_shared !! 3 = None ∧
   blocks st_shared !! 101 = None) ∧
  ∃ st', New (Some 8) (Some 101) 3 st_shared = Ret tt st' ∧
         get 3 st' = Ret (Some 8) st' ∧ unique 3 st' = Ret true st'.
Proof.
  assert (Hro : roomy st_shared) by (unfold roomy; vm_compute; reflexivity).
  split; [split; [apply reachable_st_shared|split; [exact Hro|split; reflexivity]]|].
  destruct (New_makes_the_sole_owner st_shared 3 101 8
              reachable_st_shared Hro eq_refl eq_refl)
    as [(st' & H1 & _ & _ & _ & H2 & _ & _ & _ & H3 & _) _].
  exists st'. split; [exact H1|split; [exact H2|exact H3]].
Defined.

(** ** The control block on its own *)

(** X14.  [try_add_strong()] on an allocated block gives the same result
    and the same state however many times the weak compare-exchange fails
    spuriously: with a strong count above zero it adds exactly one and
    returns true, with a strong count of zero it returns false and leaves
    the block as it is, so that a value once dead is never revived. *)
Theorem try_add_strong_ignores_spurious_failures (n c : nat) (cb : ControlBlock)
    (st : State) :
  blocks st !! c = Some cb →
  try_add_strong n c st = try_add_strong 0 c st ∧
  ((0 < gc_strong_count_ cb)%Z →
     try_add_strong n c st
     = Ret true (set_blocks <[c := with_strong (wrap (gc_strong_count_ cb + 1)) cb]> st)) ∧
  ((gc_strong_count_ cb ≤ 0)%Z → try_add_strong n c st = Ret false st).
Proof.
  intros Hc. rewrite !(try_add_strong_eq _ c cb st Hc). split; [done|]. split.
  - intros Hpos. by replace (0 <? gc_strong_count_ cb)%Z with true
      by (symmetry; apply Z.ltb_lt; lia).
  - intros Hz. by replace (0 <? gc_strong_count_ cb)%Z with false
      by (symmetry; apply Z.ltb_ge; lia).
Qed.

Lemma try_add_strong_ignores_spurious_failures_witness :
  blocks st_shared !! 100 = Some (mkCB 1 1 (Some 7) false) ∧
  try_add_strong 5 100 st_shared = try_add_strong 0 100 st_shared.
Proof.
  split; [reflexivity|].
  destruct (try_add_strong_ignores_spurious_failures 5 100 (mkCB 1 1 (Some 7) false)
              st_shared eq_refl) as [H _].
  exact H.
Defined.



(** ** Weak observers *)





(** ** [Ref] away from a live strong handle *)



(** ** Round trips *)



(** ** Dereference *)



(** ** Values that hold handles: the cycle of [test1.cpp] *)

Lemma destroy_object_T_plain (c : nat) :
  destroy_object_T (λ p, emit (EvDeleteValue p)) c = destroy_object c.
Proof. reflexivity. Qed.

Lemma release_strong_T_plain (c : nat) :
  release_strong_T (λ p, emit (EvDeleteValue p)) c = release_strong c.
Proof. reflexivity. Qed.

Lemma release_T_plain (h : nat) :
  release_T (λ p, emit (EvDeleteValue p)) h = release h.
Proof. reflexivity. Qed.

Lemma Ptr_dtor_T_plain (h : nat) :
  Ptr_dtor_T (λ p, emit (EvDeleteValue p)) h = Ptr_dtor h.
Proof. reflexivity. Qed.

Lemma Ref_T_plain (a b : nat) :
  Ref_T (λ p, emit (EvDeleteValue p)) a b = Ref a b.
Proof. reflexivity. Qed.

Ltac munfoldT :=
  unfold test1_main, self_link, link, new_Node, Ref_T, Ptr_dtor_T, release_T,
    release_strong_T, destroy_object_T in *;
  munfold.

Ltac mredT :=
  repeat first
    [ progress mred
    | rewrite decide_False by done
    | rewrite decide_True by done ].

Ltac map_same :=
  apply map_eq; intros ?k;
  repeat match goal with
    | |- context [delete ?a _ !! ?k] =>
        destruct (decide (k = a));
          [subst; rewrite lookup_delete_eq; by eauto | rewrite lookup_delete_ne by done]
    | |- context [<[?a := _]> _ !! ?k] =>
        destruct (decide (k = a)); [subst; done | rewrite lookup_insert_ne by done]
    end;
  done.

(** X21.  The block of [main] in [test1.cpp], at any place of a program
    where the storage it uses is free: the two nodes are linked into a
    cycle by [Ref], both counts are printed as 1, and at the end of the
    block both nodes are destroyed and both control blocks are freed, each
    exactly once; the blocks and handles of the rest of the program are as
    before.  The second node goes first, and the control block of the
    second node is freed inside the destructor of the first. *)
Theorem test1_cycle_is_collected (next : nat → nat) (fuel : nat)
    (p1 p2 c1 c2 h1 h2 : nat) (st : State) :
  c1 ≠ c2 → h1 ≠ h2 → next p1 ≠ next p2 →
  next p1 ≠ h1 → next p1 ≠ h2 → next p2 ≠ h1 → next p2 ≠ h2 →
  blocks st !! c1 = None → blocks st !! c2 = None →
  handles st !! h1 = None → handles st !! h2 = None →
  handles st !! next p1 = None → handles st !! next p2 = None →
  test1_main next (S fuel) p1 p2 c1 c2 h1 h2 st
  = Ret (1%Z, 1%Z)
        (mkState (blocks st) (handles st)
           (trace st ++ [EvDeleteValue p2; EvDeleteValue p1;
                         EvDeleteBlock c2; EvDeleteBlock c1])).
Proof.
  intros Hc Hh Hn Hn11 Hn12 Hn21 Hn22 Hb1 Hb2 Hh1 Hh2 Hm1 Hm2.
  munfoldT. mredT. unfold with_weak, with_strong, with_ptr, with_destroyed.
  mredT. change (wrap (0 + 1)) with 1%Z. change (wrap (1 - 1)) with 0%Z. mredT.
  munfoldT. mredT.
  rewrite <- !app_assoc. simpl. f_equal. f_equal; map_same.
Qed.

Lemma test1_cycle_is_collected_witness :
  (100 ≠ 200 ∧ 1 ≠ 2 ∧ 10 + 1 ≠ 20 + 1 ∧ 10 + 1 ≠ 1 ∧ 10 + 1 ≠ 2 ∧
   20 + 1 ≠ 1 ∧ 20 + 1 ≠ 2) ∧
  test1_main (λ p, p + 1) 1 10 20 100 200 1 2 st_empty
  = Ret (1%Z, 1%Z)
        (mkState ∅ ∅ [EvDeleteValue 20; EvDeleteValue 10;
                      EvDeleteBlock 200; EvDeleteBlock 100]).
Proof.
  assert (H : 100 ≠ 200 ∧ 1 ≠ 2 ∧ 10 + 1 ≠ 20 + 1 ∧ 10 + 1 ≠ 1 ∧ 10 + 1 ≠ 2 ∧
              20 + 1 ≠ 1 ∧ 20 + 1 ≠ 2) by (split_and!; simpl; lia).
  split; [exact H|].
  destruct H as (H1 & H2 & H3 & H4 & H5 & H6 & H7).
  exact (test1_cycle_is_collected (λ p, p + 1) 0 10 20 100 200 1 2 st_empty
           H1 H2 H3 H4 H5 H6 H7 eq_refl eq_refl eq_refl eq_refl eq_refl eq_refl).
Defined.

(** X22.  A node whose [next] is made to [Ref] the node itself, at any
    place where the storage is free: the link leaves the block with 1
    strong and 1 weak reference.  When the handle is then destroyed,
    [release_strong] takes the strong count to 0 and calls
    [destroy_object]; that deletes the node, the node's member gives up the
    last weak reference and frees the control block, and [destroy_object]
    returns; [release_strong] goes on to read the weak count of the block
    that is freed by then, so the destructor of the handle has no defined
    result. *)
Theorem self_link_frees_its_own_block (next : nat → nat) (fuel : nat)
    (p c h : nat) (st : State) :
  next p ≠ h →
  blocks st !! c = None → handles st !! h = None → handles st !! next p = None →
  ∃ st1 sd,
    self_link next (S fuel) p c h st = Ret tt st1 ∧
    blocks st1 !! c = Some (mkCB 1 1 (Some p) false) ∧
    handles st1 !! next p = Some (mkPtr (Some c) true) ∧
    destroy_object_T (delete_Node next (S fuel)) c
      (set_blocks <[c := mkCB 0 1 (Some p) false]> st1) = Ret tt sd ∧
    blocks sd !! c = None ∧
    trace sd = trace st ++ [EvDeleteValue p; EvDeleteBlock c] ∧
    Ptr_dtor_T (delete_Node next (S fuel)) h st1 = Undef.
Proof.
  intros Hn Hb Hh Hm.
  eexists. eexists. split.
  { munfoldT. mredT. unfold with_weak. mredT. change (wrap (0 + 1)) with 1%Z.
    reflexivity. }
  split; [simpl; by rewrite lookup_insert_eq|].
  split; [simpl; by rewrite lookup_insert_eq|].
  split.
  { munfoldT. mredT. unfold with_weak, with_ptr, with_destroyed. mredT.
    change (wrap (1 - 1)) with 0%Z. mredT. munfoldT. mredT. reflexivity. }
  split; [simpl; by rewrite lookup_delete_eq|].
  split; [simpl; by rewrite <- !app_assoc|].
  munfoldT. mredT. unfold with_weak, with_strong, with_ptr, with_destroyed. mredT.
  change (wrap (1 - 1)) with 0%Z. mredT. munfoldT. mredT. done.
Qed.

Lemma self_link_frees_its_own_block_witness :
  (10 + 1 ≠ 1) ∧
  ∃ st1, self_link (λ p, p + 1) 1 10 100 1 st_empty = Ret tt st1 ∧
         Ptr_dtor_T (delete_Node (λ p, p + 1) 1) 1 st1 = Undef.
Proof.
  assert (H : 10 + 1 ≠ 1) by (simpl; lia).
  split; [exact H|].
  destruct (self_link_frees_its_own_block (λ p, p + 1) 0 10 100 1 st_empty
              H eq_refl eq_refl eq_refl) as (st1 & sd & H1 & _ & _ & _ & _ & _ & H2).
  exists st1. split; [exact H1|exact H2].
Defined.

(** ** One raw pointer, two handles *)

(** X23.  [Ptr(T* ptr)] keeps no record of the raw pointers it was given:
    a second handle built from the same raw pointer gets a control block of
    its own with a count of 1, the two handles are both unique owners, and
    when both are destroyed the value is deleted twice. *)
Theorem raw_pointer_wrapped_twice_is_deleted_twice (p c1 c2 h1 h2 : nat) (st : State) :
  c1 ≠ c2 → h1 ≠ h2 →
  blocks st !! c1 = None → blocks st !! c2 = None →
  handles st !! h1 = None → handles st !! h2 = None →
  ∃ st2,
    (Ptr_from_raw (Some c1) h1 (Some p) ;;; Ptr_from_raw (Some c2) h2 (Some p)) st
      = Ret tt st2 ∧
    unique h1 st2 = Ret true st2 ∧ unique h2 st2 = Ret true st2 ∧
    operator_eq h1 h2 st2 = Ret true st2 ∧
    (Ptr_dtor h1 ;;; Ptr_dtor h2) st2
      = Ret tt (mkState (blocks st) (handles st)
                  (trace st ++ [EvDeleteValue p; EvDeleteBlock c1;
                                EvDeleteValue p; EvDeleteBlock c2])).
Proof.
  intros Hc Hh Hb1 Hb2 Hh1 Hh2.
  eexists. split; [munfold; mredT; reflexivity|].
  split; [munfold; mredT; done|]. split; [munfold; mredT; done|].
  split; [munfold; mredT; f_equal; by apply bool_decide_eq_true_2|].
  munfold. mredT. unfold with_strong, with_ptr, with_destroyed. mredT.
  change (wrap (1 - 1)) with 0%Z. mredT.
  rewrite <- !app_assoc. simpl. f_equal. f_equal; map_same.
Qed.

Lemma raw_pointer_wrapped_twice_is_deleted_twice_witness :
  (100 ≠ 200 ∧ 1 ≠ 2) ∧
  ∃ st2,
    (Ptr_from_raw (Some 100) 1 (Some 7) ;;; Ptr_from_raw (Some 200) 2 (Some 7)) st_empty
      = Ret tt st2 ∧
    (Ptr_dtor 1 ;;; Ptr_dtor 2) st2
      = Ret tt (mkState ∅ ∅ [EvDeleteValue 7; EvDeleteBlock 100;
                             EvDeleteValue 7; EvDeleteBlock 200]).
Proof.
  assert (H : 100 ≠ 200 ∧ 1 ≠ 2) by (split; lia).
  split; [exact H|]. destruct H as [H1 H2].
  destruct (raw_pointer_wrapped_twice_is_deleted_twice 7 100 200 1 2 st_empty
              H1 H2 eq_refl eq_refl eq_refl eq_refl) as (st2 & E1 & _ & _ & _ & E2).
  exists st2. split; [exact E1|exact E2].
Defined.

(** ** The macros of the allocation facade *)

(** X24.  Each of [gc_new], [gc_malloc], [gc_calloc] and [gc_new_array],
    called when the allocator hands out a free address [a], yields [a] and
    leaves the live arrays and their owners exactly as they were before the
    call: the array it allocated is gone again, and the output has grown by
    the line naming [a] and the [delete[]]. *)
Theorem facade_macros_leave_memory_as_it_was (a : nat) (size count : Z)
    (s : Facade.FState) :
  Facade.arrays s !! a = None → Facade.use_count s !! a = None →
  let after := (Some a, Facade.mkFState (Facade.arrays s) (Facade.use_count s)
                          (Facade.out s ++ [Facade.Printed a; Facade.DeleteArray a])) in
  Facade.gc_new size a s = after ∧
  Facade.gc_malloc size a s = after ∧
  Facade.gc_calloc count size a s = after ∧
  Facade.gc_new_array size count a s = after.
Proof.
  intros Ha Hu.
  assert (Hm : ∀ n, Facade.gc_local_malloc a n s
                    = (Facade.mkPtrBase (Some a),
                       Facade.mkFState (Facade.arrays s) (Facade.use_count s)
                         (Facade.out s ++ [Facade.Printed a; Facade.DeleteArray a]))).
  { intros n. unfold Facade.gc_local_malloc, Facade.gc_local_malloc_body,
      Facade.LocalPtrCpp_dtor. simpl. rewrite lookup_insert_eq. simpl.
    unfold Facade.DebugDeleter. simpl.
    by rewrite !delete_insert_eq, !delete_id. }
  assert (Hcl : ∀ k n, Facade.gc_local_calloc a k n s
                    = (Facade.mkPtrBase (Some a),
                       Facade.mkFState (Facade.arrays s) (Facade.use_count s)
                         (Facade.out s ++ [Facade.Printed a; Facade.DeleteArray a]))).
  { intros k n. unfold Facade.gc_local_calloc, Facade.gc_local_calloc_body,
      Facade.LocalPtrCpp_dtor, Facade.memset0. simpl. rewrite !lookup_insert_eq. simpl.
    rewrite lookup_insert_eq. unfold Facade.DebugDeleter. simpl.
    by rewrite insert_insert_eq, !delete_insert_eq, !delete_id. }
  unfold Facade.gc_new, Facade.gc_malloc, Facade.gc_calloc, Facade.gc_new_array.
  rewrite !Hm, !Hcl. done.
Qed.

Lemma facade_macros_leave_memory_as_it_was_witness :
  (Facade.arrays (Facade.mkFState ∅ ∅ []) !! 64 = None ∧
   Facade.use_count (Facade.mkFState ∅ ∅ []) !! 64 = None) ∧
  Facade.gc_calloc 4 8 64 (Facade.mkFState ∅ ∅ [])
  = (Some 64, Facade.mkFState ∅ ∅ [Facade.Printed 64; Facade.DeleteArray 64]).
Proof.
  assert (Ha : Facade.arrays (Facade.mkFState ∅ ∅ []) !! 64 = None) by reflexivity.
  assert (Hu : Facade.use_count (Facade.mkFState ∅ ∅ []) !! 64 = None) by reflexivity.
  split; [split; [exact Ha|exact Hu]|].
  destruct (facade_macros_leave_memory_as_it_was 64 8 4 (Facade.mkFState ∅ ∅ [])
              Ha Hu) as (_ & _ & H & _).
  exact H.
Defined.

(** * Values that hold handles, and values that hold none *)

(** ** A value that holds a handle to itself *)

Ltac munfoldA :=
  unfold own_copy, own_weak, reset_T, assign_copy_T, assign_move_T, swap, safe in *;
  munfoldT.

Ltac map_lookups :=
  apply map_eq; intros ?k;
  repeat first
    [ rewrite lookup_insert_eq
    | rewrite lookup_delete_eq
    | rewrite lookup_insert_ne by done
    | rewrite lookup_delete_ne by done
    | match goal with
      | |- context [<[?a := _]> _ !! ?k] => destruct (decide (k = a)); [subst|]
      | |- context [delete ?a _ !! ?k] => destruct (decide (k = a)); [subst|]
      end ];
  first [done | congruence].

Ltac lk :=
  simpl;
  repeat first
    [ rewrite lookup_insert_eq
    | rewrite lookup_delete_eq
    | rewrite lookup_insert_ne by done
    | rewrite lookup_delete_ne by done ];
  done.

(** C2 on the code.  A [Node] is wrapped in the handle [h] and its member
    [next] is made a copy of [h] ([h->next = h]), so that the value has two
    strong handles.  Released member first, then [h], the value is deleted
    once and the block freed once.  Released [h] first, then the member
    ([reset()] on it): [release()] deletes the node, whose destructor
    destroys the member, and frees the block, both once; [reset()] then
    stores into the member, which is gone with the node, and has no defined
    result.  When the member is the weak handle of [h->next = h.safe(h)],
    destroying [h] frees the block inside [destroy_object] and
    [release_strong] reads the freed block. *)
Theorem handle_inside_its_value_breaks_release (next : nat → nat) (fuel : nat)
    (p c h tmp : nat) (st : State) :
  next p ≠ h → tmp ≠ h → tmp ≠ next p →
  blocks st !! c = None →
  handles st !! h = None → handles st !! next p = None → handles st !! tmp = None →
  let del := delete_Node next (S fuel) in
  (own_copy next (S fuel) p c h tmp ;;; reset_T del (next p) ;;; reset_T del h) st
    = Ret tt (mkState (blocks st) (<[h := mkPtr None false]> (handles st))
                (trace st ++ [EvDeleteValue p; EvDeleteBlock c])) ∧
  (∃ s1 s2 s3,
     own_copy next (S fuel) p c h tmp st = Ret tt s1 ∧
     ref_count h s1 = Ret 2%Z s1 ∧
     handles s1 !! next p = Some (mkPtr (Some c) false) ∧
     reset_T del h s1 = Ret tt s2 ∧
     trace s2 = trace st ∧
     release_T del (next p) s2 = Ret tt s3 ∧
     handles s3 !! next p = None ∧ blocks s3 !! c = None ∧
     trace s3 = trace st ++ [EvDeleteValue p; EvDeleteBlock c] ∧
     reset_T del (next p) s2 = Undef) ∧
  (∃ s1 sd,
     own_weak next (S fuel) p c h tmp st = Ret tt s1 ∧
     blocks s1 !! c = Some (mkCB 1 1 (Some p) false) ∧
     handles s1 !! next p = Some (mkPtr (Some c) true) ∧
     handles s1 !! tmp = None ∧
     destroy_object_T del c (set_blocks <[c := mkCB 0 1 (Some p) false]> s1) = Ret tt sd ∧
     blocks sd !! c = None ∧
     trace sd = trace st ++ [EvDeleteValue p; EvDeleteBlock c] ∧
     Ptr_dtor_T del h s1 = Undef).
Proof.
  intros Hn Ht Htn Hb Hh Hm Htm del. unfold del. clear del.
  split; [|split].
  - munfoldA. mredT. unfold with_weak, with_strong, with_ptr, with_destroyed. mredT.
    change (wrap (1 + 1)) with 2%Z. mredT. change (wrap (2 - 1)) with 1%Z. mredT.
    munfoldA. mredT. change (wrap (1 - 1)) with 0%Z.
    rewrite <- !app_assoc. simpl. f_equal. f_equal; map_lookups.
  - eexists. eexists. eexists.
    split.
    { munfoldA. mredT. unfold with_strong. mredT. change (wrap (1 + 1)) with 2%Z.
      reflexivity. }
    split; [munfoldA; mredT; done|].
    split; [lk|].
    split.
    { munfoldA. mredT. unfold with_strong. mredT. change (wrap (2 - 1)) with 1%Z.
      reflexivity. }
    split; [done|].
    split.
    { munfoldA. mredT. unfold with_strong, with_ptr, with_destroyed. mredT.
      change (wrap (1 - 1)) with 0%Z. mredT. munfoldA. mredT.
      unfold with_strong. mredT. reflexivity. }
    split; [lk|].
    split; [lk|].
    split; [simpl; by rewrite <- !app_assoc|].
    munfoldA. mredT. unfold with_strong, with_ptr, with_destroyed. mredT.
    change (wrap (1 - 1)) with 0%Z. mredT. munfoldA. mredT.
    unfold with_strong. mredT. done.
  - eexists. eexists.
    split.
    { munfoldA. mredT. unfold with_weak. mredT. change (wrap (0 + 1)) with 1%Z.
      reflexivity. }
    split; [lk|].
    split; [lk|].
    split; [lk|].
    split.
    { munfoldA. mredT. unfold with_weak, with_ptr, with_destroyed. mredT.
      change (wrap (1 - 1)) with 0%Z. mredT. munfoldA. mredT. reflexivity. }
    split; [lk|].
    split; [simpl; by rewrite <- !app_assoc|].
    munfoldA. mredT. unfold with_weak, with_strong, with_ptr, with_destroyed. mredT.
    change (wrap (1 - 1)) with 0%Z. mredT. munfoldA. mredT. done.
Qed.

Lemma handle_inside_its_value_breaks_release_witness :
  (10 + 1 ≠ 1 ∧ 2 ≠ 1 ∧ 2 ≠ 10 + 1) ∧
  ∃ s1 s2,
    own_copy (λ p, p + 1) 1 10 100 1 2 st_empty = Ret tt s1 ∧
    reset_T (delete_Node (λ p, p + 1) 1) 1 s1 = Ret tt s2 ∧
    reset_T (delete_Node (λ p, p + 1) 1) (10 + 1) s2 = Undef.
Proof.
  assert (H : 10 + 1 ≠ 1 ∧ 2 ≠ 1 ∧ 2 ≠ 10 + 1) by (split_and!; simpl; lia).
  split; [exact H|]. destruct H as (H1 & H2 & H3).
  pose proof (handle_inside_its_value_breaks_release (λ p, p + 1) 0 10 100 1 2 st_empty
                H1 H2 H3 eq_refl eq_refl eq_refl eq_refl) as HT.
  cbv zeta in HT.
  destruct HT as (_ & (s1 & s2 & s3 & E1 & _ & _ & E2 & _ & _ & _ & _ & _ & E3) & _).
  exists s1, s2. split; [exact E1|split; [exact E2|exact E3]].
Defined.

(** ** Every value is deleted by the one block that manages it *)

Lemma manages_kept st st' q : ptr_kept st st' → manages st' q → manages st q.
Proof.
  intros Hk (c & cb' & Hc & Hp). destruct (Hk c cb' Hc) as [Hn|(cb & Hcb & Heq)].
  - congruence.
  - exists c, cb. split; [done|congruence].
Qed.

Lemma once_kept st st' : managed_once st → ptr_kept st st' → managed_once st'.
Proof.
  intros Hon Hk c1 c2 cb1 cb2 p H1 H2 P1 P2.
  destruct (Hk c1 cb1 H1) as [?|(b1 & Hb1 & E1)]; [congruence|].
  destruct (Hk c2 cb2 H2) as [?|(b2 & Hb2 & E2)]; [congruence|].
  apply (Hon c1 c2 b1 b2 p); congruence.
Qed.

Lemma step_same st st' :
  blocks st' = blocks st → trace st' = trace st → step_ok st st'.
Proof.
  intros Hb Ht. split.
  - intros c cb' Hc. right. exists cb'. split; [by rewrite <- Hb|done].
  - exists []. split; [by rewrite app_nil_r|]. intros q Hq. by apply not_elem_of_nil in Hq.
Qed.

Lemma step_trans st st' st'' : step_ok st st' → step_ok st' st'' → step_ok st st''.
Proof.
  intros [Hk1 (e1 & Ht1 & Hd1)] [Hk2 (e2 & Ht2 & Hd2)].
  assert (Hk : ptr_kept st st'').
  { intros c cb'' Hc. destruct (Hk2 c cb'' Hc) as [?|(cb' & Hc' & E')]; [by left|].
    destruct (Hk1 c cb' Hc') as [?|(cb & Hcb & E)]; [left; congruence|].
    right. exists cb. split; [done|congruence]. }
  split; [done|]. exists (e1 ++ e2). split; [by rewrite Ht2, Ht1, app_assoc|].
  intros q Hq. apply elem_of_app in Hq as [Hq|Hq].
  - destruct (Hd1 q Hq) as [Hm Hn]. split; [done|].
    intros Hm''. apply Hn. by apply (manages_kept st' st'').
  - destruct (Hd2 q Hq) as [Hm Hn]. split; [|done]. by apply (manages_kept st st').
Qed.

Lemma step_counters st (c : nat) cb cb' :
  blocks st !! c = Some cb → ptr_ cb' = ptr_ cb →
  step_ok st (set_blocks <[c := cb']> st).
Proof.
  intros Hc Hp. split.
  - intros c' b' Hb. simpl in Hb. destruct (decide (c' = c)) as [->|Hne].
    + rewrite lookup_insert_eq in Hb. injection Hb as <-. right. eauto.
    + rewrite lookup_insert_ne in Hb by done. right. eauto.
  - exists []. split; [simpl; by rewrite app_nil_r|].
    intros q Hq. by apply not_elem_of_nil in Hq.
Qed.

Lemma good_ret {A} (a : A) : good (ret a).
Proof. intros st _. by apply step_same. Qed.

Lemma good_undef {A} : good (undef : M A).
Proof. intros st _. done. Qed.

Lemma good_bind {A B} (m : M A) (k : A → M B) :
  good m → (∀ a, good (k a)) → good (bind m k).
Proof.
  intros Hm Hk st Hon. unfold bind. specialize (Hm st Hon).
  destruct (m st) as [a s1| |]; [|done|done].
  pose proof (once_kept st s1 Hon (proj1 Hm)) as Hon1.
  specialize (Hk a s1 Hon1).
  destruct (k a s1) as [b s2|s2|]; [| |done]; by apply (step_trans st s1).
Qed.

Lemma good_pure {A} (m : M A) :
  (∀ st, match m st with
         | Ret _ st' | Throw st' => blocks st' = blocks st ∧ trace st' = trace st
         | Undef => True
         end) →
  good m.
Proof.
  intros H st _. specialize (H st).
  destruct (m st) as [a s1|s1|]; [| |done]; destruct H; by apply step_same.
Qed.

Lemma good_load_block (c : nat) : good (load_block c).
Proof. apply good_pure. intros st. unfold load_block. by destruct (blocks st !! c). Qed.

Lemma good_load_handle (h : nat) : good (load_handle h).
Proof. apply good_pure. intros st. unfold load_handle. by destruct (handles st !! h). Qed.

Lemma good_load_ctrl (h : nat) : good (load_ctrl h).
Proof.
  unfold load_ctrl. apply good_bind; [apply good_load_handle|]. intros a. apply good_ret.
Qed.

Lemma good_load_weak (h : nat) : good (load_weak h).
Proof.
  unfold load_weak. apply good_bind; [apply good_load_handle|]. intros a. apply good_ret.
Qed.

Lemma good_store_ctrl (h : nat) c : good (store_ctrl h c).
Proof.
  unfold store_ctrl. apply good_bind; [apply good_load_handle|]. intros a.
  apply good_pure. done.
Qed.

Lemma good_store_weak (h : nat) w : good (store_weak h w).
Proof.
  unfold store_weak. apply good_bind; [apply good_load_handle|]. intros a.
  apply good_pure. done.
Qed.

Lemma good_exchange_ctrl (h : nat) c : good (exchange_ctrl h c).
Proof.
  unfold exchange_ctrl. apply good_bind; [apply good_load_ctrl|]. intros a.
  apply good_bind; [apply good_store_ctrl|]. intros _. apply good_ret.
Qed.

Lemma good_exchange_weak (h : nat) w : good (exchange_weak h w).
Proof.
  unfold exchange_weak. apply good_bind; [apply good_load_weak|]. intros a.
  apply good_bind; [apply good_store_weak|]. intros _. apply good_ret.
Qed.

Lemma good_construct (h : nat) c w : good (construct h c w).
Proof. apply good_pure. intros st. unfold construct. by destruct (handles st !! h). Qed.

Lemma good_discard (h : nat) : good (discard h).
Proof. apply good_pure. done. Qed.

Lemma good_update (c : nat) (f : ControlBlock → ControlBlock) :
  (∀ cb, ptr_ (f cb) = ptr_ cb) →
  good (cb <- load_block c ;; store_block c (f cb)).
Proof.
  intros Hf st _. unfold bind, load_block, store_block.
  destruct (blocks st !! c) as [cb|] eqn:Hc; [|done].
  by apply (step_counters st c cb).
Qed.

Lemma good_add_strong (c : nat) : good (add_strong c).
Proof. apply (good_update c (λ cb, with_strong (wrap (gc_strong_count_ cb + 1)) cb)). done. Qed.

Lemma good_add_weak (c : nat) : good (add_weak c).
Proof. apply (good_update c (λ cb, with_weak (wrap (gc_weak_count_ cb + 1)) cb)). done. Qed.

Lemma good_try_add_strong (n c : nat) : good (try_add_strong n c).
Proof.
  intros st _. destruct (blocks st !! c) as [cb|] eqn:Hc.
  - rewrite (try_add_strong_eq n c cb st Hc).
    destruct (0 <? gc_strong_count_ cb)%Z.
    + apply (step_counters st c cb); [done|]. unfold incr_count. done.
    + by apply step_same.
  - unfold try_add_strong, bind, load_block. by rewrite Hc.
Qed.

Lemma good_delete_this (c : nat) : good (delete_this c).
Proof.
  intros st _. unfold delete_this. destruct (blocks st !! c) as [cb|] eqn:Hc; [|done].
  split.
  - intros c' cb' Hb. simpl in Hb. apply lookup_delete_Some in Hb as [_ Hb]. right. eauto.
  - exists [EvDeleteBlock c]. split; [done|]. intros q Hq.
    apply list_elem_of_singleton in Hq. discriminate.
Qed.

Lemma good_destroy_object (c : nat) : good (destroy_object c).
Proof.
  intros st Hon. destruct (blocks st !! c) as [cb|] eqn:Hc;
    [|unfold destroy_object, bind, load_block; by rewrite Hc].
  destruct cb as [s w p d]. destruct d.
  { assert (E : destroy_object c st = Ret tt st) by (munfold; mred; done).
    rewrite E. by apply step_same. }
  assert (Hk : ∀ tr, ptr_kept st (mkState (<[c := mkCB s w None true]> (blocks st))
                                        (handles st) tr)).
  { intros tr c' cb' Hb. simpl in Hb. destruct (decide (c' = c)) as [->|Hne].
    - rewrite lookup_insert_eq in Hb. injection Hb as <-. by left.
    - rewrite lookup_insert_ne in Hb by done. right. eauto. }
  destruct p as [p|].
  - assert (E : destroy_object c st
                = Ret tt (mkState (<[c := mkCB s w None true]> (blocks st)) (handles st)
                            (trace st ++ [EvDeleteValue p]))) by (munfold; mred; done).
    rewrite E. split; [apply Hk|].
    exists [EvDeleteValue p]. split; [done|]. intros q Hq.
    apply list_elem_of_singleton in Hq. injection Hq as ->.
    split; [by exists c, (mkCB s w (Some p) false)|].
    intros (c' & cb' & Hb & Hp). simpl in Hb. destruct (decide (c' = c)) as [->|Hne].
    + rewrite lookup_insert_eq in Hb. injection Hb as <-. done.
    + rewrite lookup_insert_ne in Hb by done.
      apply Hne. by apply (Hon c' c cb' (mkCB s w (Some p) false) p).
  - assert (E : destroy_object c st
                = Ret tt (mkState (<[c := mkCB s w None true]> (blocks st)) (handles st)
                            (trace st))) by (munfold; mred; done).
    rewrite E. split; [apply Hk|].
    exists []. split; [simpl; by rewrite app_nil_r|].
    intros q Hq. by apply not_elem_of_nil in Hq.
Qed.

Lemma good_load_store {A} (c : nat) (f : ControlBlock → ControlBlock)
    (k : ControlBlock → M A) :
  (∀ cb, ptr_ (f cb) = ptr_ cb) → (∀ cb, good (k cb)) →
  good (cb <- load_block c ;; store_block c (f cb) ;;; k cb).
Proof.
  intros Hf Hk st Hon. unfold bind at 1. unfold load_block.
  destruct (blocks st !! c) as [cb|] eqn:Hc; [|done].
  unfold bind, store_block.
  pose proof (step_counters st c cb (f cb) Hc (Hf cb)) as Hs.
  pose proof (once_kept _ _ Hon (proj1 Hs)) as Hon1.
  specialize (Hk cb _ Hon1).
  destruct (k cb (set_blocks <[c:=f cb]> st)) as [b s2|s2|]; [| |done];
    by apply (step_trans st (set_blocks <[c:=f cb]> st)).
Qed.

Ltac good_step :=
  first
    [ apply good_ret | apply good_undef
    | apply good_load_block | apply good_load_handle | apply good_load_ctrl
    | apply good_load_weak | apply good_store_ctrl | apply good_store_weak
    | apply good_exchange_ctrl | apply good_exchange_weak
    | apply good_construct | apply good_discard
    | apply good_add_strong | apply good_add_weak | apply good_try_add_strong
    | apply good_delete_this | apply good_destroy_object
    | match goal with
      | |- good (if ?b then _ else _) => destruct b
      | |- good (match ?x with _ => _ end) => destruct x
      | |- good (bind _ _) => apply good_bind; [|intros ?]
      end ].

Lemma good_release_strong (c : nat) : good (release_strong c).
Proof.
  unfold release_strong.
  apply (good_load_store c (λ cb, with_strong (wrap (gc_strong_count_ cb - 1)) cb));
    [done|]. intros cb. repeat good_step.
Qed.

Lemma good_release_weak (c : nat) : good (release_weak c).
Proof.
  unfold release_weak.
  apply (good_load_store c (λ cb, with_weak (wrap (gc_weak_count_ cb - 1)) cb));
    [done|]. intros cb. repeat good_step.
Qed.

Ltac good_tac :=
  repeat first [ apply good_release_strong | apply good_release_weak | good_step ].

Lemma good_release (h : nat) : good (release h).
Proof. unfold release. good_tac. Qed.

Lemma good_Ptr_dtor (h : nat) : good (Ptr_dtor h).
Proof. unfold Ptr_dtor. apply good_bind; [apply good_release|]. intros _. good_tac. Qed.

Lemma good_swap (a b : nat) : good (swap a b).
Proof. unfold swap. good_tac. Qed.

Lemma good_Ptr_copy (a b : nat) : good (Ptr_copy a b).
Proof. unfold Ptr_copy. good_tac. Qed.

Lemma good_exec o : good (exec o).
Proof.
  destruct o; simpl.
  - apply good_Ptr_copy.
  - unfold Ptr_move. good_tac.
  - unfold assign_copy. destruct (decide (dst = src)); [apply good_ret|].
    apply good_bind; [apply good_Ptr_copy|]. intros _.
    apply good_bind; [apply good_swap|]. intros _. apply good_Ptr_dtor.
  - unfold assign_move. destruct (decide (dst = src)); [apply good_ret|].
    apply good_bind; [apply good_release|]. intros _. good_tac.
  - apply good_swap.
  - unfold reset. apply good_bind; [apply good_release|]. intros _. good_tac.
  - apply good_Ptr_dtor.
  - unfold safe, Ptr_default. good_tac.
  - unfold lock, Ptr_default, Ptr_private.
    apply good_bind; [good_tac|]. intros w. apply good_bind; [good_tac|]. intros [c|].
    + destruct (negb w); [apply good_Ptr_copy|]. good_tac.
    + apply good_Ptr_copy.
Qed.

Lemma good_Ref (a b : nat) : good (Ref a b).
Proof.
  unfold Ref. destruct (decide (a = b)); [apply good_ret|].
  apply good_bind; [apply good_release|]. intros _. good_tac.
Qed.

Lemma reset_raw_fresh st (tmp h c p : nat) q :
  wf st → roomy st →
  handles st !! tmp = None → handles st !! h = Some q → blocks st !! c = None →
  ∃ st', reset_raw (Some c) tmp h (Some p) st = Ret tt st' ∧
    (swap h tmp ;;; Ptr_dtor tmp)
       (mkState (<[c := mkCB 1 0 (Some p) false]> (blocks st))
                (<[tmp := mkPtr (Some c) false]> (handles st)) (trace st)) = Ret tt st' ∧
    blocks st' !! c = Some (mkCB 1 0 (Some p) false).
Proof.
  intros Hwf Hro Ht Hh Hc. assert (Hne : h ≠ tmp) by congruence.
  pose proof (Ptr_from_raw_eq st tmp c p Ht Hc) as Hfr.
  set (sa := mkState (<[c := mkCB 1 0 (Some p) false]> (blocks st))
                     (<[tmp := mkPtr (Some c) false]> (handles st)) (trace st)) in *.
  pose proof (wf_constructed st p c tmp Hwf Ht Hc) as Hwfa. fold sa in Hwfa.
  assert (Hah : handles sa !! h = Some q) by (simpl; by rewrite lookup_insert_ne).
  assert (Hat : handles sa !! tmp = Some (mkPtr (Some c) false))
    by apply lookup_insert_eq.
  pose proof (swap_eq h tmp q _ sa Hah Hat) as Hsw.
  pose proof (wf_swap sa h tmp q _ Hwfa Hah Hat) as Hwfb.
  set (sb := set_handles (λ hs, <[tmp := q]> (<[h := mkPtr (Some c) false]> hs)) sa) in *.
  assert (Hbt : handles sb !! tmp = Some q) by apply lookup_insert_eq.
  assert (Hsz : (Z.of_nat (size (handles sb)) < 2 ^ size_bits)%Z).
  { simpl. rewrite size_insert_live.
    - rewrite size_insert_live.
      + pose proof (size_insert_le (handles st) tmp (mkPtr (Some c) false)).
        unfold roomy in Hro. lia.
      + rewrite lookup_insert_ne by done. eauto.
    - rewrite lookup_insert_ne by done. rewrite lookup_insert_eq. eauto. }
  destruct (wf_release_any sb tmp q (delete tmp (handles sb)) Hwfb Hsz Hbt)
    as (s1 & Hr & Hh1 & Hwf1); [by apply refs_moved_delete|].
  assert (Hqc : ctrl_ q ≠ Some c).
  { destruct q as [qc w]. simpl. intros ->. by apply (wf_unallocated st c Hwf Hc h w). }
  pose proof (release_blocks_frame sb s1 tmp c q Hwfb Hbt Hqc Hr) as Hfrm.
  exists (set_handles (delete tmp) s1). split; [|split].
  - unfold reset_raw, bind. rewrite Hfr, Hsw. by apply Ptr_dtor_eq.
  - unfold bind. rewrite Hsw. by apply Ptr_dtor_eq.
  - simpl. rewrite Hfrm. simpl. apply lookup_insert_eq.
Qed.

Lemma managed_once_new st (c : nat) cb hs tr :
  managed_once st → blocks st !! c = None →
  (∀ p, ptr_ cb = Some p → ¬ manages st p) →
  managed_once (mkState (<[c := cb]> (blocks st)) hs tr).
Proof.
  intros Hon Hc Hp c1 c2 cb1 cb2 p H1 H2 P1 P2. simpl in *.
  destruct (decide (c1 = c)) as [->|N1], (decide (c2 = c)) as [->|N2]; try done.
  - rewrite lookup_insert_eq in H1. injection H1 as <-.
    rewrite lookup_insert_ne in H2 by done.
    exfalso. apply (Hp p P1). by exists c2, cb2.
  - rewrite lookup_insert_eq in H2. injection H2 as <-.
    rewrite lookup_insert_ne in H1 by done.
    exfalso. apply (Hp p P2). by exists c1, cb1.
  - rewrite lookup_insert_ne in H1, H2 by done. by apply (Hon c1 c2 cb1 cb2 p).
Qed.

Lemma managed_once_same st st' :
  managed_once st → blocks st' = blocks st → managed_once st'.
Proof. intros Hon Hb c1 c2 cb1 cb2 p. rewrite Hb. apply Hon. Qed.

Lemma good_run {A} (m : M A) st a st' :
  good m → managed_once st → m st = Ret a st' →
  managed_once st' ∧ deletes_managed st st'.
Proof.
  intros Hg Hon He. specialize (Hg st Hon). rewrite He in Hg.
  destruct Hg as [Hk Hd]. split; [by apply (once_kept st)|done].
Qed.

Lemma log_event_inj e e' st : log_event e st = log_event e' st → e = e'.
Proof.
  intros H. apply (f_equal trace) in H. simpl in H.
  apply app_inv_head in H. by injection H.
Qed.

(** One step of a program that wraps its raw pointers once. *)
Lemma perform_once st a :
  wf st → roomy st → enabled a st → wraps_fresh a st → managed_once st →
  (∃ st', perform a st = Ret tt st' ∧ managed_once st' ∧ deletes_managed st st') ∨
  (∃ p, perform a st = Throw (log_event (EvDeleteValue p) st) ∧ ¬ manages st p ∧
        managed_once (log_event (EvDeleteValue p) st)).
Proof.
  intros Hwf Hro Hen Hfr Hon.
  assert (Hsame : ∀ st', blocks st' = blocks st → trace st' = trace st →
                         managed_once st' ∧ deletes_managed st st').
  { intros st' Hb Ht. split; [by apply (managed_once_same st)|].
    by apply step_same. }
  destruct a as [o|this|alloc this ptr|alloc tmp h ptr|self other]; simpl in *.
  - left. destruct (wf_exec st o Hwf Hro Hen) as (st' & He & _).
    exists st'. split; [done|]. by apply (good_run (exec o) st tt st' (good_exec o)).
  - left. destruct (wf_default st this Hwf Hen) as [He _].
    eexists. split; [exact He|]. by apply Hsame.
  - destruct Hen as [Hh Hal]. destruct ptr as [p|].
    + destruct alloc as [c|].
      * left. rewrite (Ptr_from_raw_eq st this c p Hh Hal). eexists. split; [done|].
        split.
        -- apply managed_once_new; try done. intros p' E. by injection E as <-.
        -- exists []. split; [simpl; by rewrite app_nil_r|].
           intros q Hq. by apply not_elem_of_nil in Hq.
      * right. exists p. split; [by apply from_raw_fail_eq|]. split; [done|].
        by apply (managed_once_same st).
    + left. rewrite (from_raw_null_eq alloc this st Hh). eexists. split; [done|].
      by apply Hsame.
  - destruct Hen as (Ht & [q Hq] & Hal). destruct ptr as [p|].
    + destruct alloc as [c|].
      * left. destruct (reset_raw_fresh st tmp h c p q Hwf Hro Ht Hq Hal)
          as (st' & He & Hrest & Hbc).
        exists st'. split; [done|].
        assert (Hona : managed_once
                  (mkState (<[c := mkCB 1 0 (Some p) false]> (blocks st))
                     (<[tmp := mkPtr (Some c) false]> (handles st)) (trace st))).
        { apply managed_once_new; try done. intros p' E. by injection E as <-. }
        assert (Hg : good (swap h tmp ;;; Ptr_dtor tmp)).
        { apply good_bind; [apply good_swap|]. intros _. apply good_Ptr_dtor. }
        destruct (good_run _ _ tt st' Hg Hona Hrest) as [Hon' (evs & Htr & Hd)].
        split; [done|]. exists evs. split; [done|].
        intros v Hv. destruct (Hd v Hv) as [(c1 & cb1 & H1 & P1) Hnot].
        split; [|done]. simpl in H1. destruct (decide (c1 = c)) as [->|Hne].
        -- rewrite lookup_insert_eq in H1. injection H1 as <-. simpl in P1.
           injection P1 as <-. exfalso. apply Hnot.
           by exists c, (mkCB 1 0 (Some p) false).
        -- rewrite lookup_insert_ne in H1 by done. by exists c1, cb1.
      * right. exists p. split.
        { unfold reset_raw, bind. by rewrite (from_raw_fail_eq tmp p st Ht). }
        split; [done|]. by apply (managed_once_same st).
    + left.
      destruct (wf_reset_raw st alloc tmp h None q Hwf Hro Ht Hq Hal)
        as [(st' & He & _)|(p & Hp & _)]; [|done].
      exists st'. split; [done|].
      assert (Hg : good (reset_raw alloc tmp h None)).
      { unfold reset_raw. apply good_bind.
        - apply good_pure. intros s. unfold Ptr_from_raw, bind, construct, ret.
          destruct (handles s !! tmp); done.
        - intros _. apply good_bind; [apply good_swap|]. intros _. apply good_Ptr_dtor. }
      by apply (good_run _ st tt st' Hg).
  - left. destruct Hen as (qs & qo & Hs & Ho & Hcond).
    destruct (wf_Ref st self other qs qo Hwf Hro Hs Ho Hcond) as (st' & He & _).
    exists st'. split; [done|]. by apply (good_run _ st tt st' (good_Ref self other)).
Qed.

Lemma reachable_once_inv st : reachable_once st → reachable st ∧ managed_once st.
Proof.
  induction 1 as [|st st' a Hre [IHr IHo] Hro Hen Hfr Hp
                  |st st' a Hre [IHr IHo] Hro Hen Hfr Hp].
  - split; [apply reach_init|]. intros c1 c2 cb1 cb2 p H1. unfold st_empty in H1. simpl in H1.
    by rewrite lookup_empty in H1.
  - split; [by apply (reach_ret st st' a)|].
    destruct (perform_once st a (reachable_wf st IHr) Hro Hen Hfr IHo)
      as [(s & Hs & Hon & _)|(p & Hs & _)]; rewrite Hs in Hp; [|done].
    by injection Hp as <-.
  - split; [by apply (reach_throw st st' a)|].
    destruct (perform_once st a (reachable_wf st IHr) Hro Hen Hfr IHo)
      as [(s & Hs & _)|(p & Hs & _ & Hon)]; rewrite Hs in Hp; [done|].
    by injection Hp as <-.
Qed.

(** X1.  For a value type that holds no handles (so that deleting a value
    releases nothing), and a program that names only live handles, builds
    new ones in free storage, gets its control blocks at free addresses,
    calls [Ref] only from an empty handle, on itself, or towards a
    non-empty strong handle, and gives [Ptr(T* ptr)] and [reset(T* ptr)] only
    pointers to live values that no block manages: no two blocks ever
    manage the same value, and no operation touches a freed block or a dead
    handle.  Every
    operation returns, and each value it deletes was managed by a block
    before and is managed by none after; or ([Ptr(T* ptr)] and [reset(T* ptr)]
    when the control block cannot be allocated) it throws after deleting
    the value it was given, which no block manages, and nothing else.  The
    state it leaves is again a state of such a program. *)
Theorem enabled_operations_never_fault (st : State) (a : action) :
  reachable_once st → roomy st → enabled a st → wraps_fresh a st →
  managed_once st ∧
  ((∃ st', perform a st = Ret tt st' ∧ reachable_once st' ∧ deletes_managed st st') ∨
   (∃ p, perform a st = Throw (log_event (EvDeleteValue p) st) ∧ ¬ manages st p ∧
         reachable_once (log_event (EvDeleteValue p) st))).
Proof.
  intros Hre Hro Hen Hfr. destruct (reachable_once_inv st Hre) as [Hr Hon].
  split; [done|].
  destruct (perform_once st a (reachable_wf st Hr) Hro Hen Hfr Hon)
    as [(st' & Hp & _ & Hd)|(p & Hp & Hn & _)].
  - left. exists st'. split; [done|]. split; [|done]. by apply (once_ret st st' a).
  - right. exists p. split; [done|]. split; [done|]. by apply (once_throw st _ a).
Qed.

Lemma reachable_once_st_owner : reachable_once st_owner.
Proof.
  apply (once_ret st_empty st_owner (AFromRaw (Some 100) 1 (Some 7)) once_init).
  - unfold roomy. vm_compute. reflexivity.
  - split; reflexivity.
  - intros (c & cb & Hc & _). unfold st_empty in Hc. simpl in Hc.
    by rewrite lookup_empty in Hc.
  - apply st_owner_reached.
Qed.

Lemma reachable_once_st_shared : reachable_once st_shared.
Proof.
  apply (once_ret st_owner st_shared (Client (OpSafe 2 1)) reachable_once_st_owner).
  - apply roomy_st_owner.
  - simpl. vm_compute. eauto.
  - done.
  - vm_compute. reflexivity.
Qed.

Lemma unmanaged_st_shared : ¬ manages st_shared 8.
Proof.
  intros (c & cb & Hc & Hp). unfold st_shared in Hc. simpl in Hc.
  apply lookup_singleton_Some in Hc as [_ <-]. discriminate.
Qed.

Lemma enabled_operations_never_fault_witness :
  (reachable_once st_shared ∧ roomy st_shared ∧
   enabled (AFromRaw (Some 101) 3 (Some 8)) st_shared ∧
   wraps_fresh (AFromRaw (Some 101) 3 (Some 8)) st_shared) ∧
  managed_once st_shared ∧
  ((∃ st', perform (AFromRaw (Some 101) 3 (Some 8)) st_shared = Ret tt st' ∧
           reachable_once st' ∧ deletes_managed st_shared st') ∨
   (∃ p, perform (AFromRaw (Some 101) 3 (Some 8)) st_shared
         = Throw (log_event (EvDeleteValue p) st_shared) ∧ ¬ manages st_shared p ∧
         reachable_once (log_event (EvDeleteValue p) st_shared))).
Proof.
  assert (Hen : enabled (AFromRaw (Some 101) 3 (Some 8)) st_shared)
    by (split; reflexivity).
  split; [split; [apply reachable_once_st_shared|split; [apply roomy_st_shared|
            split; [exact Hen|exact unmanaged_st_shared]]]|].
  apply (enabled_operations_never_fault st_shared (AFromRaw (Some 101) 3 (Some 8))
           reachable_once_st_shared roomy_st_shared Hen unmanaged_st_shared).
Defined.

(** ** A value without handles of its own is destroyed exactly once *)

Lemma exec_handles st o st' :
  wf st → roomy st → is_Some (scoped_op (dom (handles st)) o) →
  exec o st = Ret tt st' → handles st' = handles_after o (handles st).
Proof.
  intros Hwf Hro [D Hsc] He. pose proof (roomy_bound st Hro) as Hsz.
  destruct o as [dst src|dst src|tmp dst src|dst src|a b|h|h|dst src|n dst src];
    simpl in *.
  - destruct (decide (src ∈ dom (handles st) ∧ dst ∉ dom (handles st))) as [[Hs Hd]|]; [|done].
    apply elem_of_dom in Hs as [q Hq]. apply not_elem_of_dom in Hd. rewrite Hq.
    destruct (wf_copy st dst src q Hwf Hro Hd Hq) as (s & Hs' & _ & Hh & _).
    rewrite Hs' in He. by injection He as <-.
  - destruct (decide (src ∈ dom (handles st) ∧ dst ∉ dom (handles st))) as [[Hs Hd]|]; [|done].
    apply elem_of_dom in Hs as [q Hq]. apply not_elem_of_dom in Hd. rewrite Hq.
    rewrite (Ptr_move_eq dst src q st Hd Hq) in He. by injection He as <-.
  - destruct (decide (src ∈ dom (handles st) ∧ dst ∈ dom (handles st)
                      ∧ tmp ∉ dom (handles st))) as [(Hs & Hd & Ht)|]; [|done].
    apply elem_of_dom in Hs as [q Hq]. apply elem_of_dom in Hd as [qd Hqd].
    apply not_elem_of_dom in Ht. rewrite Hq.
    destruct (wf_assign_copy st tmp dst src qd q Hwf Hro Ht Hqd Hq) as (s & Hs' & _ & Hh).
    rewrite Hs' in He. by injection He as <-.
  - destruct (decide (dst ∈ dom (handles st) ∧ src ∈ dom (handles st))) as [[Hd Hs]|]; [|done].
    apply elem_of_dom in Hs as [q Hq]. apply elem_of_dom in Hd as [qd Hqd].
    destruct (decide (dst = src)) as [E|Hne].
    + unfold assign_move in He. rewrite decide_True in He by done. by injection He as <-.
    + rewrite Hq.
      destruct (wf_assign_move st dst src qd q Hwf Hsz Hne Hqd Hq) as (s & Hs' & _ & Hh).
      rewrite Hs' in He. by injection He as <-.
  - destruct (decide (a ∈ dom (handles st) ∧ b ∈ dom (handles st))) as [[Ha Hb]|]; [|done].
    apply elem_of_dom in Ha as [qa Hqa]. apply elem_of_dom in Hb as [qb Hqb].
    rewrite Hqa, Hqb. rewrite (swap_eq a b qa qb st Hqa Hqb) in He. by injection He as <-.
  - destruct (decide (h ∈ dom (handles st))) as [Hh|]; [|done].
    apply elem_of_dom in Hh as [q Hq].
    destruct (wf_reset st h q Hwf Hsz Hq) as (s & Hs' & _ & Hh).
    rewrite Hs' in He. by injection He as <-.
  - destruct (decide (h ∈ dom (handles st))) as [Hh|]; [|done].
    apply elem_of_dom in Hh as [q Hq].
    destruct (wf_dtor st h q Hwf Hsz Hq) as (s & Hs' & _ & Hh).
    rewrite Hs' in He. by injection He as <-.
  - destruct (decide (src ∈ dom (handles st) ∧ dst ∉ dom (handles st))) as [[Hs Hd]|]; [|done].
    apply elem_of_dom in Hs as [q Hq]. apply not_elem_of_dom in Hd. rewrite Hq.
    destruct (wf_safe st dst src src q Hwf Hro Hd Hq) as (s & Hs' & _ & _ & Hh).
    rewrite Hs' in He. injection He as <-.
    destruct q as [[c|] [|]]; simpl in Hh; try (by subst s).
    destruct Hh as (cb & _ & ->). done.
  - destruct (decide (src ∈ dom (handles st) ∧ dst ∉ dom (handles st))) as [[Hs Hd]|]; [|done].
    apply elem_of_dom in Hs as [q Hq]. apply not_elem_of_dom in Hd. rewrite Hq.
    assert (Hcopy : ctrl_ q = None ∨ is_weak_ q = false →
                    handles st' = <[dst := q]> (handles st)).
    { intros Hc. rewrite (lock_copy_eq n dst src q st Hq Hc) in He.
      destruct (wf_copy st dst src q Hwf Hro Hd Hq) as (s & Hs' & _ & Hh & _).
      rewrite Hs' in He. by injection He as <-. }
    destruct q as [[c|] [|]]; try (apply Hcopy; simpl; by eauto).
    destruct (wf_live _ _ _ _ Hwf Hq) as (cb & Hc & _).
    destruct (wf_count_bounds st c cb Hwf Hc) as (_ & _ & Hsc').
    rewrite (lock_weak_eq n dst src c cb st Hd Hq Hc) in He.
    destruct (decide (0 < strong_refs c (handles st))) as [Hpos|Hpos].
    + replace (0 <? gc_strong_count_ cb)%Z with true in He
        by (symmetry; apply Z.ltb_lt; lia).
      by injection He as <-.
    + replace (0 <? gc_strong_count_ cb)%Z with false in He
        by (symmetry; apply Z.ltb_ge; lia).
      by injection He as <-.
Qed.

Section PlainValue.
Variables p c nd nf : nat.

Lemma run_spec ops : ∀ st D',
  Inv p c nd nf st →
  (Z.of_nat (size (handles st)) + Z.of_nat (length ops) + 2 ≤ 2 ^ size_bits)%Z →
  scoped (dom (handles st)) ops = Some D' →
  ∃ st', run ops st = Ret tt st' ∧ Inv p c nd nf st' ∧
         handles st' = handles_after_run ops (handles st) ∧ dom (handles st') = D'.
Proof.
  induction ops as [|o ops IH]; intros st D' HI Hb Hsc; simpl in *.
  - simplify_eq. by exists st.
  - destruct (scoped_op (dom (handles st)) o) as [D1|] eqn:E; [|done].
    assert (Hro : roomy st) by (unfold roomy; lia).
    destruct (exec_ok p c nd nf o st D1 HI Hro E) as (st1 & He & HI1 & Hd1).
    pose proof (exec_handles st o st1 (proj1 HI) Hro (ex_intro _ D1 E) He) as Hh1.
    destruct (IH st1 D' HI1) as (st' & Hr & HI' & Hh' & Hd').
    + pose proof (scoped_op_size _ _ _ E) as Hs.
      rewrite <- Hd1 in Hs. rewrite !size_dom in Hs. lia.
    + by rewrite Hd1.
    + exists st'. unfold bind. rewrite He. split; [done|]. split; [done|].
      split; [by rewrite Hh', Hh1|done].
Qed.

Lemma Inv_get st (h : nat) :
  Inv p c nd nf st → handles st !! h = Some (mkPtr (Some c) false) →
  get h st = Ret (Some p) st.
Proof.
  intros (Hwf & Hv & _) Hh.
  destruct (wf_live _ _ _ _ Hwf Hh) as (cb & Hc & Hlive).
  destruct (Hlive eq_refl) as [Hnd _].
  unfold value_ok in Hv. rewrite Hc, Hnd in Hv. destruct Hv as (_ & Hp & _).
  rewrite (get_eq st h _ Hwf Hh). unfold resolved, referent. simpl. by rewrite Hc, Hp.
Qed.

End PlainValue.

Lemma refs_listed q (l : list nat) : ∀ hs : gmap nat Ptr,
  NoDup l → (∀ k, k ∈ l → hs !! k = Some q) → (∀ k, k ∉ l → hs !! k ≠ Some q) →
  refs q hs = length l.
Proof.
  induction l as [|h l IH]; intros hs Hnd Hin Hout; simpl.
  - apply refs_zero_iff. intros k. apply Hout. apply not_elem_of_nil.
  - apply NoDup_cons in Hnd as [Hh Hnd].
    pose proof (refs_delete q hs h) as Hd. rewrite (Hin h) in Hd by left.
    unfold hit in Hd. rewrite decide_True in Hd by done.
    rewrite (IH (delete h hs)) in Hd; [lia|done| |].
    + intros k Hk. rewrite lookup_delete_ne by (intros ->; done). apply Hin. by right.
    + intros k Hk. destruct (decide (k = h)) as [->|Hne].
      * by rewrite lookup_delete_eq.
      * rewrite lookup_delete_ne by done. apply Hout.
        intros [?|?]%elem_of_cons; done.
Qed.

(** X25.  For a value type that holds no handles: in any well-formed
    state a value [p] that no block manages is wrapped in a new handle [a],
    its block allocated at [c].  Whatever well-scoped sequence [ops] of
    copies, moves, assignments, swaps, resets, destructions, [safe] and
    [lock] follows, the run returns and the handles it leaves are the ones
    the operations are documented to leave; every strong handle on the
    block reads [p], which has not been deleted since the wrapping; once no
    strong handle is left [p] has been deleted exactly once, and the block
    is freed exactly once, when no handle on it is left.  In particular,
    after copying [a] into the [N] new handles [hs], all [N+1] handles read
    [p] and a strong count of [N+1]; after destroying some of them, [l1],
    in any order, each of those left, [l2], still reads [p], which is not
    deleted, and a count of what is left, whether or not the original [a]
    is among the destroyed; and when all are destroyed the handles are
    those of the initial state, with one deletion of [p] and one of the
    block. *)
Theorem plain_value_destroyed_exactly_once
    (st0 : State) (p c a : nat) (ops : list op) (D : gset nat) (hs l1 l2 : list nat) :
  wf st0 →
  handles st0 !! a = None → blocks st0 !! c = None →
  (∀ c' cb', blocks st0 !! c' = Some cb' → ptr_ cb' ≠ Some p) →
  scoped ({[a]} ∪ dom (handles st0)) ops = Some D →
  (Z.of_nat (size (handles st0)) + Z.of_nat (length ops) + 3 ≤ 2 ^ size_bits)%Z →
  NoDup (a :: hs) → (∀ h, h ∈ hs → handles st0 !! h = None) → l1 ++ l2 ≡ₚ a :: hs →
  (Z.of_nat (size (handles st0)) + Z.of_nat (length hs) + 3 ≤ 2 ^ size_bits)%Z →
  (∃ st, (Ptr_from_raw (Some c) a (Some p) ;;; run ops) st0 = Ret tt st ∧
     handles st
       = handles_after_run ops (<[a := mkPtr (Some c) false]> (handles st0)) ∧
     dom (handles st) = D ∧
     (∀ h : nat, handles st !! h = Some (mkPtr (Some c) false) →
        get h st = Ret (Some p) st ∧
        destroyed_times p st = destroyed_times p st0) ∧
     ((∀ h : nat, handles st !! h ≠ Some (mkPtr (Some c) false)) →
        destroyed_times p st = S (destroyed_times p st0)) ∧
     (∀ (h : nat) w, handles st !! h = Some (mkPtr (Some c) w) →
        freed_times c st = freed_times c st0 ∧ is_Some (blocks st !! c)) ∧
     ((∀ (h : nat) w, handles st !! h ≠ Some (mkPtr (Some c) w)) →
        freed_times c st = S (freed_times c st0) ∧ blocks st !! c = None))
  ∧
  (∃ st2 st3,
     (Ptr_from_raw (Some c) a (Some p) ;;; run (copies a hs)) st0 = Ret tt st2 ∧
     run (destroys l1) st2 = Ret tt st3 ∧
     (∀ h : nat, h ∈ a :: hs →
        handles st2 !! h = Some (mkPtr (Some c) false) ∧
        get h st2 = Ret (Some p) st2 ∧
        ref_count h st2 = Ret (Z.of_nat (S (length hs))) st2) ∧
     destroyed_times p st2 = destroyed_times p st0 ∧
     (∀ h : nat, h ∈ l2 →
        get h st3 = Ret (Some p) st3 ∧
        ref_count h st3 = Ret (Z.of_nat (length l2)) st3 ∧
        destroyed_times p st3 = destroyed_times p st0 ∧
        freed_times c st3 = freed_times c st0) ∧
     (l2 = [] →
        handles st3 = handles st0 ∧ blocks st3 !! c = None ∧
        destroyed_times p st3 = S (destroyed_times p st0) ∧
        freed_times c st3 = S (freed_times c st0))).
Proof.
  intros Hwf Ha Hc Hsole Hsc Hlen Hnd Hfresh Hperm Hlen'.
  pose proof (Inv_constructed st0 p c a Hwf Ha Hc Hsole) as HI1.
  set (nd := destroyed_times p st0) in *. set (nf := freed_times c st0) in *.
  set (st1 := mkState (<[c := mkCB 1 0 (Some p) false]> (blocks st0))
                      (<[a := mkPtr (Some c) false]> (handles st0)) (trace st0)) in *.
  assert (Hsize : size (handles st1) = S (size (handles st0))).
  { simpl. by apply map_size_insert_None. }
  assert (Hdom : dom (handles st1) = {[a]} ∪ dom (handles st0)).
  { simpl. apply dom_insert_L. }
  assert (Hnone : ∀ (k : nat) w, handles st0 !! k ≠ Some (mkPtr (Some c) w)).
  { intros k w. by apply wf_unallocated. }
  unfold bind. rewrite (Ptr_from_raw_eq st0 a c p Ha Hc). fold st1.
  split.
  - destruct (run_spec p c nd nf ops st1 D HI1) as (st & Hr & HI & Hh & Hd).
    + rewrite Hsize. lia.
    + by rewrite Hdom.
    + exists st. split; [done|]. split; [done|]. split; [done|].
      split.
      { intros h Hs. split; [by apply (Inv_get p c nd nf)|].
        by apply (Inv_strong_alive p c nd nf st h). }
      split; [apply (Inv_no_strong p c nd nf st HI)|].
      split; [intros h w Hs; apply (Inv_referenced p c nd nf st h w HI Hs)|].
      intros Hn. destruct (Inv_unreferenced p c nd nf st HI Hn) as (? & ? & ?). done.
  - pose proof Hnd as [Hah Hndh]%NoDup_cons.
    destruct (run_copies p c nd nf a (mkPtr (Some c) false) hs st1 HI1)
      as (st2 & Hr2 & HI2 & Hsz2 & Hl2); try done.
    { rewrite Hsize. lia. }
    { simpl. by rewrite lookup_insert_eq. }
    { intros h Hh. simpl. rewrite lookup_insert_ne by (intros ->; done). by apply Hfresh. }
    assert (Hnd12 : NoDup (l1 ++ l2)) by (by rewrite Hperm).
    apply NoDup_app in Hnd12 as (Hnd1 & Hdisj & Hnd2).
    assert (Hall : ∀ h : nat, h ∈ a :: hs → handles st2 !! h = Some (mkPtr (Some c) false)).
    { intros h Hh. rewrite Hl2. destruct (decide (h ∈ hs)); [done|].
      apply elem_of_cons in Hh as [->|?]; [|done]. simpl. by rewrite lookup_insert_eq. }
    assert (Hrest : ∀ k : nat, k ∉ a :: hs → handles st2 !! k = handles st0 !! k).
    { intros k Hk. rewrite Hl2. rewrite decide_False by (intros ?; apply Hk; by right).
      simpl. rewrite lookup_insert_ne; [done|]. intros ->. apply Hk. by left. }
    destruct (run_destroys p c nd nf l1 st2 HI2) as (st3 & Hr3 & HI3 & Hl3).
    { rewrite Hsz2, Hsize. lia. }
    { done. }
    { intros h Hh. rewrite Hall; [eauto|]. rewrite <- Hperm. apply elem_of_app. by left. }
    assert (Hleft : ∀ h : nat, h ∈ l2 → handles st3 !! h = Some (mkPtr (Some c) false)).
    { intros h Hh. rewrite Hl3. rewrite decide_False by (intros ?; by apply (Hdisj h)).
      apply Hall. rewrite <- Hperm. apply elem_of_app. by right. }
    assert (Hcount2 : strong_refs c (handles st2) = S (length hs)).
    { unfold strong_refs. rewrite (refs_listed _ (a :: hs)); try done.
      intros k Hk. rewrite (Hrest k Hk). apply Hnone. }
    assert (Hcount3 : strong_refs c (handles st3) = length l2).
    { unfold strong_refs. apply refs_listed; try done.
      intros k Hk. rewrite Hl3. destruct (decide (k ∈ l1)) as [|Hk1]; [done|].
      rewrite Hrest; [apply Hnone|].
      rewrite <- Hperm. intros [?|?]%elem_of_app; done. }
    exists st2, st3. split; [done|]. split; [done|]. split.
    { intros h Hh. split; [by apply Hall|]. split.
      - apply (Inv_get p c nd nf); [done|by apply Hall].
      - destruct (wf_counts st2 h c false (proj1 HI2) (Hall h Hh)) as [Hrc _].
        by rewrite Hrc, Hcount2. }
    split.
    { apply (Inv_strong_alive p c nd nf st2 a HI2). apply Hall. by left. }
    split.
    { intros h Hh. pose proof (Hleft h Hh) as Hs. split.
      - by apply (Inv_get p c nd nf).
      - split.
        + destruct (wf_counts st3 h c false (proj1 HI3) Hs) as [Hrc _].
          by rewrite Hrc, Hcount3.
        + split; [by apply (Inv_strong_alive p c nd nf st3 h)|].
          by apply (Inv_referenced p c nd nf st3 h false). }
    intros ->. rewrite app_nil_r in Hperm.
    assert (Hh3 : handles st3 = handles st0).
    { apply map_eq. intros k. rewrite Hl3.
      destruct (decide (k ∈ l1)) as [Hk|Hk].
      - rewrite Hperm in Hk. apply elem_of_cons in Hk as [->|Hk]; [done|].
        symmetry. by apply Hfresh.
      - apply Hrest. by rewrite <- Hperm. }
    split; [done|].
    assert (Hn : ∀ (h : nat) w, handles st3 !! h ≠ Some (mkPtr (Some c) w)).
    { intros h w. rewrite Hh3. apply Hnone. }
    destruct (Inv_unreferenced p c nd nf st3 HI3 Hn) as (? & ? & ?). done.
Qed.

Lemma plain_value_destroyed_exactly_once_witness :
  (wf st_shared ∧ handles st_shared !! 5 = None ∧ blocks st_shared !! 200 = None ∧
   (∀ c' cb', blocks st_shared !! c' = Some cb' → ptr_ cb' ≠ Some 8) ∧
   scoped ({[5]} ∪ dom (handles st_shared))
     [OpCopy 6 5; OpSafe 7 5; OpDestroy 1; OpMove 8 6; OpDestroy 5; OpLock 1 9 7;
      OpAssignCopy 20 2 8; OpReset 8; OpDestroy 8; OpDestroy 9; OpDestroy 7;
      OpDestroy 6; OpDestroy 2] = Some ∅ ∧
   NoDup [5; 6; 7] ∧ (∀ h, h ∈ [6; 7] → handles st_shared !! h = None) ∧
   [5; 7] ++ [6] ≡ₚ [5; 6; 7]) ∧
  (∃ st, (Ptr_from_raw (Some 200) 5 (Some 8) ;;;
          run [OpCopy 6 5; OpSafe 7 5; OpDestroy 1; OpMove 8 6; OpDestroy 5;
               OpLock 1 9 7; OpAssignCopy 20 2 8; OpReset 8; OpDestroy 8;
               OpDestroy 9; OpDestroy 7; OpDestroy 6; OpDestroy 2]) st_shared
         = Ret tt st ∧
     dom (handles st) = ∅ ∧ destroyed_times 8 st = 1 ∧ freed_times 200 st = 1) ∧
  (∃ st2 st3,
     (Ptr_from_raw (Some 200) 5 (Some 8) ;;; run (copies 5 [6; 7])) st_shared
       = Ret tt st2 ∧
     run (destroys [5; 7]) st2 = Ret tt st3 ∧
     get 6 st3 = Ret (Some 8) st3 ∧ ref_count 6 st3 = Ret 1%Z st3 ∧
     destroyed_times 8 st3 = 0).
Proof.
  assert (H1 : handles st_shared !! 5 = None) by reflexivity.
  assert (H2 : blocks st_shared !! 200 = None) by reflexivity.
  assert (H3 : ∀ c' cb', blocks st_shared !! c' = Some cb' → ptr_ cb' ≠ Some 8).
  { intros c' cb' H. unfold st_shared in H. simpl in H.
    apply lookup_singleton_Some in H as [_ <-]. discriminate. }
  assert (H4 : scoped ({[5]} ∪ dom (handles st_shared))
     [OpCopy 6 5; OpSafe 7 5; OpDestroy 1; OpMove 8 6; OpDestroy 5; OpLock 1 9 7;
      OpAssignCopy 20 2 8; OpReset 8; OpDestroy 8; OpDestroy 9; OpDestroy 7;
      OpDestroy 6; OpDestroy 2] = Some ∅) by (vm_compute; reflexivity).
  assert (H5 : (Z.of_nat (size (handles st_shared))
                + Z.of_nat (length [OpCopy 6 5; OpSafe 7 5; OpDestroy 1; OpMove 8 6;
                    OpDestroy 5; OpLock 1 9 7; OpAssignCopy 20 2 8; OpReset 8;
                    OpDestroy 8; OpDestroy 9; OpDestroy 7; OpDestroy 6; OpDestroy 2])
                + 3 ≤ 2 ^ size_bits)%Z) by (vm_compute; discriminate).
  assert (H6 : NoDup [5; 6; 7]) by (apply (bool_decide_unpack _); vm_compute; exact I).
  assert (H7 : ∀ h, h ∈ [6; 7] → handles st_shared !! h = None).
  { intros h Hh. apply elem_of_cons in Hh as [->|Hh]; [reflexivity|].
    apply elem_of_cons in Hh as [->|Hh]; [reflexivity|].
    by apply not_elem_of_nil in Hh. }
  assert (H8 : [5; 7] ++ [6] ≡ₚ [5; 6; 7])
    by (apply (bool_decide_unpack _); vm_compute; exact I).
  assert (H9 : (Z.of_nat (size (handles st_shared)) + Z.of_nat (length [6; 7])
                + 3 ≤ 2 ^ size_bits)%Z) by (vm_compute; discriminate).
  split; [split_and!; try done; apply wf_st_shared|].
  destruct (plain_value_destroyed_exactly_once st_shared 8 200 5 _ ∅ [6; 7] [5; 7] [6]
              wf_st_shared H1 H2 H3 H4 H5 H6 H7 H8 H9)
    as [(st & Hr & _ & Hd & _ & Hdes & _ & Hfree)
        (st2 & st3 & Hr2 & Hr3 & _ & _ & Hleft & _)].
  split.
  - exists st. split; [exact Hr|]. split; [exact Hd|].
    apply dom_empty_iff_L in Hd.
    assert (Hn : ∀ (h : nat) w, handles st !! h ≠ Some (mkPtr (Some 200) w)).
    { intros h w. rewrite Hd, lookup_empty. discriminate. }
    split; [apply Hdes; intros h; apply Hn|]. by apply Hfree.
  - exists st2, st3. split; [exact Hr2|]. split; [exact Hr3|].
    assert (Hin : 6 ∈ [6]) by (apply list_elem_of_singleton; reflexivity).
    destruct (Hleft 6 Hin) as (Hg & Hc & Hdt & _).
    split; [exact Hg|]. split; [exact Hc|]. exact Hdt.
Defined.
